(** * Recovery subsystem of ai_job_agent: retry logic, circuit breaker, state store

    A shallow embedding of [src/recovery/retry_logic.py] and
    [src/recovery/state_manager.py].

    Conventions of the embedding:
    - Python [int] is [Z]; loop indices produced by [range] are [nat].
    - Python [float] delays and timestamps are rationals [Q]. The formulas
      are computed exactly; what a floating-point operation does when its
      exact result leaves the range of a binary64 (an [OverflowError], an
      infinity, a NaN) is modelled in [FloatRange], and rounding inside
      the range is idealised. Bounds that rounding can break are stated
      for every monotone rounding, and [Binary64] runs the jitter lines on
      the binary64 numbers of the kernel.
    - [random.random()] and [time.time()] are explicit inputs.
    - An exception object is its class (given by the names on its MRO) and
      its message. A callable can raise an instance of [Exception], which
      [except Exception] catches, or one of the other subclasses of
      [BaseException] ([KeyboardInterrupt], [SystemExit],
      [GeneratorExit]), which it does not catch. *)

From Stdlib Require Import ZArith QArith Qminmax List String Ascii Bool Lia.
From Stdlib Require Import DecimalString DecimalZ Lqa Qpower Qabs Qround.
From Stdlib Require Floats.
From stdpp Require Import gmap strings list sorting.
Import ListNotations.

Open Scope string_scope.
Open Scope list_scope.

(** ** Exceptions *)

Record exc : Type := Exc {
  exc_mro : list string;   (* names of type(e).__mro__, most derived first *)
  exc_msg : string         (* str(e) *)
}.

(** [isinstance(e, classes)] for a tuple of classes. *)
Definition isinstance (e : exc) (classes : list string) : bool :=
  existsb (fun c => existsb (String.eqb c) (exc_mro e)) classes.

(** [Exception(msg)] *)
Definition Exception (msg : string) : exc :=
  Exc ["Exception"; "BaseException"; "object"] msg.

(** [ValueError(msg)] and [OverflowError(msg)] *)
Definition ValueError (msg : string) : exc :=
  Exc ["ValueError"; "Exception"; "BaseException"; "object"] msg.
Definition OverflowError (msg : string) : exc :=
  Exc ["OverflowError"; "ArithmeticError"; "Exception"; "BaseException"; "object"] msg.

(** [KeyboardInterrupt()], which is not an [Exception]. *)
Definition KeyboardInterrupt : exc :=
  Exc ["KeyboardInterrupt"; "BaseException"; "object"] EmptyString.

(** The outcome of one invocation of a callable: it returns, it raises an
    instance of [Exception], or it raises a [BaseException] that is not
    an [Exception]. *)
Inductive outcome (A : Type) : Type :=
| Returns (v : A)
| Raises (e : exc)
| Aborts (e : exc).
Arguments Returns {A} v.
Arguments Raises {A} e.
Arguments Aborts {A} e.

(** Use of a result that may be an exception instead. *)
Definition and_then {A B : Type} (o : outcome A) (f : A -> outcome B) : outcome B :=
  match o with
  | Returns v => f v
  | Raises e => Raises e
  | Aborts e => Aborts e
  end.

(** [range(n)] *)
Definition range (n : Z) : list nat := seq 0 (Z.to_nat n).


(** ** Floating-point numbers

    The values a Python [float] takes, with the exact value of a finite
    one. An arithmetic operation returns its exact result when that is in
    range and an infinity otherwise; [**] and the conversion of an [int]
    raise [OverflowError] instead. *)

Module FloatRange.
Local Open Scope Q_scope.

Inductive float : Type :=
| Finite (x : Q)
| Infinity (negative : bool)
| NaN.

(** Results of this magnitude round to an infinity: [2**1024 - 2**970]. *)
Definition float_bound : Q := inject_Z (2 ^ 1024 - 2 ^ 970).

Definition overflows (x : Q) : bool := Qle_bool float_bound (Qabs x).

(** [x < 0] *)
Definition negative (x : Q) : bool := negb (Qle_bool 0 x).

(** The float an operation returns when its exact result is [x]. *)
Definition rounded (x : Q) : float :=
  if overflows x then Infinity (negative x) else Finite x.

(** [a * b] *)
Definition mul (a b : float) : float :=
  match a, b with
  | NaN, _ | _, NaN => NaN
  | Finite x, Finite y => rounded (x * y)
  | Infinity s, Finite y | Finite y, Infinity s =>
      if Qeq_bool y 0 then NaN else Infinity (xorb s (negative y))
  | Infinity s, Infinity t => Infinity (xorb s t)
  end.

(** [a + b] *)
Definition add (a b : float) : float :=
  match a, b with
  | NaN, _ | _, NaN => NaN
  | Finite x, Finite y => rounded (x + y)
  | Infinity s, Finite _ | Finite _, Infinity s => Infinity s
  | Infinity s, Infinity t => if Bool.eqb s t then Infinity s else NaN
  end.

(** [a < b]; a comparison with NaN is false. *)
Definition ltb (a b : float) : bool :=
  match a, b with
  | NaN, _ | _, NaN => false
  | Finite x, Finite y => negb (Qle_bool y x)
  | Finite _, Infinity t => negb t
  | Infinity s, Finite _ => s
  | Infinity s, Infinity t => s && negb t
  end.

(** The builtin [min(a, b)]: the second argument when it is smaller. *)
Definition min (a b : float) : float := if ltb b a then b else a.

(** [x ** n] for a float [x] and an [int] [n >= 0]. *)
Definition pow (x : Q) (n : nat) : outcome float :=
  if overflows (x ^ Z.of_nat n)
  then Raises (OverflowError "(34, 'Numerical result out of range')")
  else Returns (Finite (x ^ Z.of_nat n)).

(** The conversion of an [int] operand of a float operation. *)
Definition of_int (z : Z) : outcome float :=
  if overflows (inject_Z z)
  then Raises (OverflowError "int too large to convert to float")
  else Returns (Finite (inject_Z z)).

(** [time.sleep(secs)]: the seconds are converted to a 64-bit count of
    nanoseconds, which must not be negative; the result is the time
    slept. *)
Definition time_sleep (secs : float) : outcome Q :=
  match secs with
  | NaN => Raises (ValueError "Invalid value NaN (not a number)")
  | Infinity _ => Raises (OverflowError "timestamp too large to convert to C _PyTime_t")
  | Finite x =>
      if negb (Qle_bool (Qabs x * inject_Z (10 ^ 9)) (inject_Z (2 ^ 63)))
      then Raises (OverflowError "timestamp too large to convert to C _PyTime_t")
      else if negative x then Raises (ValueError "sleep length must be non-negative")
      else Returns x
  end.

End FloatRange.

(** The lines of [_calculate_delay] that add the jitter, on the binary64
    numbers of the kernel. *)

Module Binary64.
Import Floats.PrimFloat.

Definition add_jitter (delay jitter_factor r : float) : float :=
  let jitter_amount := (delay * jitter_factor * r)%float in
  (delay + jitter_amount)%float.

(** [computed * (1 + jitter_factor)] *)
Definition upper_bound (computed jitter_factor : float) : float :=
  (computed * (1 + jitter_factor))%float.

(** [0.0], [1.0], [3.0], [0.2], and the draw [1 - 2**-52] of
    [random.random()]. *)
Definition zero : float := 0%float.
Definition one : float := 1%float.
Definition three : float := 3%float.
Definition one_fifth : float := 0x1.999999999999ap-3%float.
Definition high_draw : float := (1 - 0x1p-52)%float.

End Binary64.

(** ** retry_logic.py *)

Module RetryLogic.

Inductive RetryStrategy : Type :=
| EXPONENTIAL_BACKOFF
| LINEAR_BACKOFF
| FIXED_DELAY
| FIBONACCI_BACKOFF.

Record RetryConfig : Type := {
  max_attempts : Z;
  base_delay : Q;
  max_delay : Q;
  exponential_factor : Q;
  jitter : bool;
  jitter_factor : Q;
  strategy : RetryStrategy;
  retryable_exceptions : list string;
  non_retryable_exceptions : list string
}.

(** [RetryConfig()] with the dataclass defaults. *)
Definition default_config : RetryConfig := {|
  max_attempts := 3;
  base_delay := 1;
  max_delay := 60;
  exponential_factor := 2;
  jitter := true;
  jitter_factor := 1 # 10;
  strategy := EXPONENTIAL_BACKOFF;
  retryable_exceptions := ["Exception"];
  non_retryable_exceptions := []
|}.

(** The two exceptions [execute_with_retry] raises itself.
    [NonRetryableError] is a bare subclass of [Exception] built from a
    message and chained ([from e]) to its cause; [RetryExhaustedError]
    stores [attempts] and [last_exception]. *)
Inductive retry_error : Type :=
| NonRetryableError (message : string) (cause : exc)
| RetryExhaustedError (attempts : Z) (last_exception : option exc).

(** The [attempts] attribute of a raised error, [None] when the object has
    no such attribute. *)
Definition attempts_attr (r : retry_error) : option Z :=
  match r with
  | RetryExhaustedError n _ => Some n
  | NonRetryableError _ _ => None
  end.

(** [_generate_fibonacci_sequence]: the loop appends
    [sequence[i-1] + sequence[i-2]] for [i] in [range(2, n)]. *)
Definition fib_append (sequence : list Z) (i : nat) : list Z :=
  sequence ++ [(nth (i - 1) sequence 0 + nth (i - 2) sequence 0)%Z].

Definition _generate_fibonacci_sequence (n : Z) : list Z :=
  if (n <=? 0)%Z then []
  else if (n =? 1)%Z then [1%Z]
  else fold_left fib_append (seq 2 (Z.to_nat n - 2)) [1%Z; 1%Z].

Record RetryHandler : Type := {
  config : RetryConfig;
  _fibonacci_sequence : list Z
}.

(** [RetryHandler.__init__] *)
Definition new_handler (cfg : RetryConfig) : RetryHandler := {|
  config := cfg;
  _fibonacci_sequence := _generate_fibonacci_sequence (max_attempts cfg + 5)
|}.

(** The delay of the configured strategy, before clamping. *)
Definition strategy_delay (h : RetryHandler) (attempt : nat) : Q :=
  let c := config h in
  match strategy c with
  | EXPONENTIAL_BACKOFF => base_delay c * exponential_factor c ^ Z.of_nat attempt
  | LINEAR_BACKOFF => base_delay c * inject_Z (Z.of_nat attempt + 1)
  | FIXED_DELAY => base_delay c
  | FIBONACCI_BACKOFF =>
      match _fibonacci_sequence h !! attempt with
      | Some f => base_delay c * inject_Z f
      | None => base_delay c * exponential_factor c ^ Z.of_nat attempt
      end
  end.

(** The delay after clamping and before jitter. *)
Definition computed (h : RetryHandler) (a : nat) : Q :=
  Qmin (strategy_delay h a) (max_delay (config h)).

(** [_calculate_delay]; [r] is the value [random.random()] returns when it
    is called. *)
Definition _calculate_delay (h : RetryHandler) (attempt : nat) (r : Q) : Q :=
  let delay := computed h attempt in
  if jitter (config h)
  then delay + delay * jitter_factor (config h) * r
  else delay.

(** The two lines that add the jitter, every floating-point operation
    being rounded by [rnd]; [_calculate_delay] above is the case where
    nothing is rounded. *)
Definition add_jitter (rnd : Q -> Q) (delay jitter_factor r : Q) : Q :=
  let jitter_amount := rnd (rnd (delay * jitter_factor)%Q * r)%Q in
  rnd (delay + jitter_amount)%Q.

(** *** The delay within the range of a float

    [_calculate_delay] with the operations of [FloatRange]: the power and
    the conversion of a Fibonacci number can raise [OverflowError], a
    product or a sum can be an infinity or a NaN. The numeric fields of
    the configuration hold floats, as annotated. *)

Definition strategy_float (h : RetryHandler) (attempt : nat) : outcome FloatRange.float :=
  let c := config h in
  let base := FloatRange.Finite (base_delay c) in
  let exponential :=
    and_then (FloatRange.pow (exponential_factor c) attempt)
             (fun p => Returns (FloatRange.mul base p)) in
  match strategy c with
  | EXPONENTIAL_BACKOFF => exponential
  | LINEAR_BACKOFF =>
      and_then (FloatRange.of_int (Z.of_nat attempt + 1))
               (fun n => Returns (FloatRange.mul base n))
  | FIXED_DELAY => Returns base
  | FIBONACCI_BACKOFF =>
      match _fibonacci_sequence h !! attempt with
      | Some f => and_then (FloatRange.of_int f) (fun n => Returns (FloatRange.mul base n))
      | None => exponential
      end
  end.

(** [delay = min(delay, self.config.max_delay)] *)
Definition clamped_float (h : RetryHandler) (attempt : nat) : outcome FloatRange.float :=
  and_then (strategy_float h attempt) (fun delay =>
    Returns (FloatRange.min delay (FloatRange.Finite (max_delay (config h))))).

Definition float_delay (h : RetryHandler) (attempt : nat) (r : Q)
    : outcome FloatRange.float :=
  let c := config h in
  and_then (clamped_float h attempt) (fun delay =>
    Returns (if jitter c
             then FloatRange.add delay
                    (FloatRange.mul (FloatRange.mul delay (FloatRange.Finite (jitter_factor c)))
                                    (FloatRange.Finite r))
             else delay)).

(** [delay = self._calculate_delay(attempt)] followed by
    [time.sleep(delay)]: the time slept, or the exception either raises. *)
Definition backoff (h : RetryHandler) (attempt : nat) (r : Q) : outcome Q :=
  and_then (float_delay h attempt r) FloatRange.time_sleep.

(** [_should_retry] *)
Definition _should_retry (h : RetryHandler) (e : exc) (attempt : nat) : bool :=
  let c := config h in
  if (Z.of_nat attempt >=? max_attempts c)%Z then false
  else if negb (match non_retryable_exceptions c with [] => true | _ => false end)
          && isinstance e (non_retryable_exceptions c)
  then false
  else isinstance e (retryable_exceptions c).

(** Observable effects of a run, in order. *)
Inductive event : Type :=
| EvCall (attempt : nat)      (* the callable is invoked at this attempt *)
| EvSleep (delay : Q).        (* time.sleep(delay) *)

Definition is_sleep (ev : event) : bool :=
  match ev with EvSleep _ => true | EvCall _ => false end.

Definition sleeps (tr : list event) : nat := length (List.filter is_sleep tr).
Definition calls (tr : list event) : nat :=
  length (List.filter (fun ev => negb (is_sleep ev)) tr).

(** How a run ends: with the value of the callable, with one of the two
    errors [execute_with_retry] raises itself, or with an exception that
    goes through it as it is. *)
Inductive retry_result (A : Type) : Type :=
| Returned (v : A)
| Raised (r : retry_error)
| Propagated (e : exc).
Arguments Returned {A} v.
Arguments Raised {A} r.
Arguments Propagated {A} e.

Section Execute.
Context {A : Type}.
Variable h : RetryHandler.
(** [func k] is what the [k]-th invocation of the callable does. *)
Variable func : nat -> outcome A.
(** [rand k] is the random draw available at attempt [k]. *)
Variable rand : nat -> Q.

Definition emit (evs : list event) (run : retry_result A * list event)
    : retry_result A * list event :=
  (fst run, evs ++ snd run).

(** The body of [for attempt in range(max_attempts)], followed by the
    statement after the loop; the second component lists the effects
    in the order they happen. The delay is computed and slept inside the
    [except] block: an exception raised there, like one of the callable
    that is not an [Exception], leaves [execute_with_retry] at once. *)
Fixpoint retry_loop (attempts : list nat) (last_exception : option exc)
    : retry_result A * list event :=
  match attempts with
  | [] => (Raised (RetryExhaustedError (max_attempts (config h)) last_exception), [])
  | attempt :: rest =>
      emit [EvCall attempt]
        match func attempt with
        | Returns result => (Returned result, [])
        | Raises e =>
            if negb (_should_retry h e attempt) then
              if isinstance e (non_retryable_exceptions (config h))
              then (Raised (NonRetryableError
                              ("Non-retryable exception: " +:+ exc_msg e) e), [])
              else (Raised (RetryExhaustedError (Z.of_nat attempt + 1) (Some e)), [])
            else if (Z.of_nat attempt <? max_attempts (config h) - 1)%Z
            then match backoff h attempt (rand attempt) with
                 | Returns slept => emit [EvSleep slept] (retry_loop rest (Some e))
                 | Raises err | Aborts err => (Propagated err, [])
                 end
            else retry_loop rest (Some e)
        | Aborts e => (Propagated e, [])
        end
  end.

Definition execute_with_retry : retry_result A * list event :=
  retry_loop (range (max_attempts (config h))) None.
End Execute.

(** The effects of an attempt that fails and is retried: the call, and
    the sleep unless the attempt is the last one of the policy. *)
Definition retried_attempt (h : RetryHandler) (rand : nat -> Q) (k : nat) : list event :=
  if (Z.of_nat k <? max_attempts (config h) - 1)%Z
  then match backoff h k (rand k) with
       | Returns slept => [EvCall k; EvSleep slept]
       | Raises _ | Aborts _ => [EvCall k]
       end
  else [EvCall k].

(** The back-off after attempt [k] is carried out: unless [k] is the last
    attempt of the policy, its delay is computed and [time.sleep] accepts
    it. *)
Definition backed_off (h : RetryHandler) (rand : nat -> Q) (k : nat) : Prop :=
  (Z.of_nat k < max_attempts (config h) - 1)%Z ->
  exists slept, backoff h k (rand k) = Returns slept.

(** Attempt [k] fails and [_should_retry] asks for another attempt. *)
Definition retried {A : Type} (h : RetryHandler) (func : nat -> outcome A) (k : nat) : Prop :=
  exists e, func k = Raises e /\ _should_retry h e k = true.

(** *** Reference formulas of the specification *)

(** Fibonacci numbers as the specification indexes them. *)
Fixpoint fib (n : nat) : Z :=
  match n with
  | O => 1
  | S m => match m with
           | O => 1
           | S k => fib m + fib k
           end
  end%Z.

(** Number of entries of the table [__init__] precomputes. *)
Definition table_size (cfg : RetryConfig) : nat := Z.to_nat (max_attempts cfg + 5).

(** The delay formula of the specification for each strategy, before
    clamping. *)
Definition formula_delay (cfg : RetryConfig) (a : nat) : Q :=
  match strategy cfg with
  | EXPONENTIAL_BACKOFF => base_delay cfg * exponential_factor cfg ^ Z.of_nat a
  | LINEAR_BACKOFF => base_delay cfg * inject_Z (Z.of_nat a + 1)
  | FIXED_DELAY => base_delay cfg
  | FIBONACCI_BACKOFF =>
      if (a <? table_size cfg)%nat
      then base_delay cfg * inject_Z (fib a)
      else base_delay cfg * exponential_factor cfg ^ Z.of_nat a
  end.

(** The power or the conversion the formula of attempt [a] needs does
    not fit a float. *)
Definition formula_overflows (cfg : RetryConfig) (a : nat) : bool :=
  match strategy cfg with
  | EXPONENTIAL_BACKOFF => FloatRange.overflows (exponential_factor cfg ^ Z.of_nat a)
  | LINEAR_BACKOFF => FloatRange.overflows (inject_Z (Z.of_nat a + 1))
  | FIXED_DELAY => false
  | FIBONACCI_BACKOFF =>
      if (a <? table_size cfg)%nat
      then FloatRange.overflows (inject_Z (fib a))
      else FloatRange.overflows (exponential_factor cfg ^ Z.of_nat a)
  end.

(** *** Sample policies and operations *)

Definition with_strategy (cfg : RetryConfig) (s : RetryStrategy) (j : bool) : RetryConfig := {|
  max_attempts := max_attempts cfg;
  base_delay := base_delay cfg;
  max_delay := max_delay cfg;
  exponential_factor := exponential_factor cfg;
  jitter := j;
  jitter_factor := jitter_factor cfg;
  strategy := s;
  retryable_exceptions := retryable_exceptions cfg;
  non_retryable_exceptions := non_retryable_exceptions cfg
|}.

(** [RetryConfig(strategy=FIBONACCI_BACKOFF, jitter=False)] *)
Definition fibonacci_config : RetryConfig :=
  with_strategy default_config FIBONACCI_BACKOFF false.

(** [RetryConfig(base_delay=0.0)]: retry at once. *)
Definition immediate_config : RetryConfig := {|
  max_attempts := 3;
  base_delay := 0;
  max_delay := 60;
  exponential_factor := 2;
  jitter := true;
  jitter_factor := 1 # 10;
  strategy := EXPONENTIAL_BACKOFF;
  retryable_exceptions := ["Exception"];
  non_retryable_exceptions := []
|}.

(** [ConnectionError(msg)] *)
Definition ConnectionError (msg : string) : exc :=
  Exc ["ConnectionError"; "OSError"; "Exception"; "BaseException"; "object"] msg.

(** [RetryConfig(retryable_exceptions=(Exception,),
    non_retryable_exceptions=(ValueError,))] *)
Definition strict_config : RetryConfig := {|
  max_attempts := 3;
  base_delay := 1;
  max_delay := 60;
  exponential_factor := 2;
  jitter := true;
  jitter_factor := 1 # 10;
  strategy := EXPONENTIAL_BACKOFF;
  retryable_exceptions := ["Exception"];
  non_retryable_exceptions := ["ValueError"]
|}.

(** [RetryConfig(base_delay=-1.0)] *)
Definition negative_delay : RetryConfig := {|
  max_attempts := 3;
  base_delay := -1;
  max_delay := 60;
  exponential_factor := 2;
  jitter := true;
  jitter_factor := 1 # 10;
  strategy := EXPONENTIAL_BACKOFF;
  retryable_exceptions := ["Exception"];
  non_retryable_exceptions := []
|}.

(** [RetryConfig(jitter=False)] *)
Definition steady_config : RetryConfig :=
  with_strategy default_config EXPONENTIAL_BACKOFF false.

(** Rounding to the nearest multiple of [1/1024], a half going up. *)
Definition to_grid (x : Q) : Q :=
  (inject_Z (Qfloor (x * 1024 + (1 # 2))) / 1024)%Q.

(** An operation that always loses its connection, and one that always
    rejects its input. *)
Definition always_disconnected : nat -> outcome unit :=
  fun _ => Raises (ConnectionError "connection reset").
Definition always_invalid : nat -> outcome unit :=
  fun _ => Raises (ValueError "bad input").

(** An operation that loses its connection once and then rejects its
    input. *)
Definition rejected_later : nat -> outcome unit :=
  fun k => match k with
           | O => Raises (ConnectionError "connection reset")
           | S _ => Raises (ValueError "bad input")
           end.

End RetryLogic.

(** ** retry_logic.py: CircuitBreaker *)

Module Breaker.

(** The three values the [state] attribute ever holds. *)
Inductive circuit_state : Type := CLOSED | OPEN | HALF_OPEN.

Record CircuitBreaker : Type := {
  failure_threshold : Z;
  recovery_timeout : Q;
  failure_count : Z;
  last_failure_time : option Q;
  state : circuit_state
}.

(** [CircuitBreaker.__init__] *)
Definition new_breaker (threshold : Z) (timeout : Q) : CircuitBreaker := {|
  failure_threshold := threshold;
  recovery_timeout := timeout;
  failure_count := 0;
  last_failure_time := None;
  state := CLOSED
|}.

Definition set_state (cb : CircuitBreaker) (s : circuit_state) : CircuitBreaker := {|
  failure_threshold := failure_threshold cb;
  recovery_timeout := recovery_timeout cb;
  failure_count := failure_count cb;
  last_failure_time := last_failure_time cb;
  state := s
|}.

(** [_is_recovery_timeout_reached]; [now] is the reading of [time.time()]. *)
Definition _is_recovery_timeout_reached (cb : CircuitBreaker) (now : Q) : bool :=
  match last_failure_time cb with
  | None => false
  | Some t => Qle_bool (recovery_timeout cb) (now - t)
  end.

(** The error [call] raises while the circuit is open. *)
Definition circuit_open_error : exc := Exception "Circuit breaker is OPEN".

(** First statement of [call]: the check made when the state is [OPEN]. *)
Definition gate (cb : CircuitBreaker) (now : Q) : CircuitBreaker + exc :=
  match state cb with
  | OPEN =>
      if _is_recovery_timeout_reached cb now
      then inl (set_state cb HALF_OPEN)
      else inr circuit_open_error
  | _ => inl cb
  end.

(** The [try] branch after the callable returned. *)
Definition on_success (cb : CircuitBreaker) : CircuitBreaker := {|
  failure_threshold := failure_threshold cb;
  recovery_timeout := recovery_timeout cb;
  failure_count := 0;
  last_failure_time := last_failure_time cb;
  state := match state cb with HALF_OPEN => CLOSED | s => s end
|}.

(** The [except] branch; [now] is the reading of [time.time()] there. *)
Definition on_failure (cb : CircuitBreaker) (now : Q) : CircuitBreaker :=
  let count := (failure_count cb + 1)%Z in {|
  failure_threshold := failure_threshold cb;
  recovery_timeout := recovery_timeout cb;
  failure_count := count;
  last_failure_time := Some now;
  state := if (count >=? failure_threshold cb)%Z then OPEN else state cb
|}.

(** One use of the breaker: what the callable does if it is invoked, and
    the two clock readings the call may take. *)
Record call_input (A : Type) : Type := {
  func : outcome A;
  t_check : Q;     (* time.time() in _is_recovery_timeout_reached *)
  t_fail : Q       (* time.time() in the except branch *)
}.
Arguments func {A} _.
Arguments t_check {A} _.
Arguments t_fail {A} _.

Record call_result (A : Type) : Type := {
  after : CircuitBreaker;     (* the breaker when call is left *)
  result : outcome A;         (* value returned or exception raised *)
  invoked : bool              (* whether the callable was invoked *)
}.
Arguments after {A} _.
Arguments result {A} _.
Arguments invoked {A} _.

(** [CircuitBreaker.call]. An exception of the callable that is not an
    [Exception] passes the [except] clause: the breaker stays as the
    first statement left it. *)
Definition call {A : Type} (cb : CircuitBreaker) (i : call_input A) : call_result A :=
  match gate cb (t_check i) with
  | inr e => {| after := cb; result := Raises e; invoked := false |}
  | inl cb1 =>
      match func i with
      | Returns v => {| after := on_success cb1; result := Returns v; invoked := true |}
      | Raises e => {| after := on_failure cb1 (t_fail i); result := Raises e; invoked := true |}
      | Aborts e => {| after := cb1; result := Aborts e; invoked := true |}
      end
  end.

(** A breaker used for a sequence of calls. *)
Fixpoint run {A : Type} (cb : CircuitBreaker) (ins : list (call_input A)) : CircuitBreaker :=
  match ins with
  | [] => cb
  | i :: rest => run (after (call cb i)) rest
  end.

(** Number of failures of the callable since its last success (or since
    the start), over the invocations a sequence of calls makes; [acc] is
    the count on entry. A failure is an exception the [except] clause
    catches. *)
Fixpoint consecutive_failures {A : Type} (cb : CircuitBreaker)
    (ins : list (call_input A)) (acc : Z) : Z :=
  match ins with
  | [] => acc
  | i :: rest =>
      let r := call cb i in
      consecutive_failures (after r) rest
        (if invoked r
         then match result r with Returns _ => 0 | Raises _ => acc + 1 | Aborts _ => acc end
         else acc)%Z
  end.

(** The invariant of a breaker between two calls. *)
Record between_calls (th : Z) (to : Q) (cb : CircuitBreaker) : Prop := {
  inv_threshold : failure_threshold cb = th;
  inv_timeout : recovery_timeout cb = to;
  inv_count : (0 <= failure_count cb)%Z;
  inv_open_count : state cb = OPEN -> (th <= failure_count cb)%Z;
  inv_open_time : state cb = OPEN -> last_failure_time cb <> None
}.

(** The callable of the call returns or raises an [Exception]. *)
Definition caught {A : Type} (i : call_input A) : Prop :=
  forall e, func i <> Aborts e.

(** *** Sample uses *)

(** A call at time [t] whose operation fails, resp. succeeds. *)
Definition failing_call (t : Q) : call_input unit :=
  {| func := Raises (Exception "service unavailable"); t_check := t; t_fail := t |}.
Definition succeeding_call (t : Q) : call_input unit :=
  {| func := Returns tt; t_check := t; t_fail := t |}.

(** A call whose operation raises [Exception("Circuit breaker is OPEN")]
    itself, for instance because it goes through another breaker. *)
Definition nested_open_call (t : Q) : call_input unit :=
  {| func := Raises (Exception "Circuit breaker is OPEN"); t_check := t; t_fail := t |}.

(** A call at time [t] whose operation is interrupted from the keyboard. *)
Definition interrupted_call (t : Q) : call_input unit :=
  {| func := Aborts KeyboardInterrupt; t_check := t; t_fail := t |}.

(** [CircuitBreaker(failure_threshold=2)] after two failures at times 0 and 1. *)
Definition tripped : CircuitBreaker :=
  run (new_breaker 2 60) [failing_call 0; failing_call 1].

End Breaker.

(** ** Python values, [str], [int] and the [json] module

    [state_manager.py] stores text produced by [str] and [json.dumps] and
    reads it back with [int], [float] and [json.loads]. These library
    functions are modelled on text: a Python [str] is a [string] whose
    characters are the code points below 256. *)

Module Python.

(** The [float] type with the three library functions the store applies
    to it. They are not part of the repository and stay abstract. *)
Class PyFloat : Type := {
  pyfloat : Type;
  float_str : pyfloat -> string;            (* str(x), float.__repr__(x) *)
  float_of_str : string -> option pyfloat;  (* float(s); None for ValueError *)
  floatstr : pyfloat -> string              (* json.encoder floatstr(x) *)
}.

Section Values.
Context {F : PyFloat}.

Local Set Warnings "-register-all".

Inductive pyval : Type :=
| PNone
| PBool (b : bool)
| PInt (z : Z)
| PFloat (x : pyfloat)
| PStr (s : string)
| PList (items : list pyval)
| PTuple (items : list pyval)
| PDict (items : list (pyval * pyval)).   (* in insertion order, keys distinct *)

(** [type(value).__name__] *)
Definition type_name (v : pyval) : string :=
  match v with
  | PNone => "NoneType"
  | PBool _ => "bool"
  | PInt _ => "int"
  | PFloat _ => "float"
  | PStr _ => "str"
  | PList _ => "list"
  | PTuple _ => "tuple"
  | PDict _ => "dict"
  end.

(** [str(z)] for an [int]: decimal digits, [-] in front when negative. *)
Definition str_int (z : Z) : string := NilZero.string_of_int (Z.to_int z).

(** [str(value)] for the values that reach it in [save_state]; containers
    are serialised by [json.dumps] before. *)
Definition str_scalar (v : pyval) : string :=
  match v with
  | PNone => "None"
  | PBool true => "True"
  | PBool false => "False"
  | PInt z => str_int z
  | PFloat x => float_str x
  | PStr s => s
  | PList _ | PTuple _ | PDict _ => EmptyString
  end.

Definition is_digit (c : ascii) : bool :=
  (("0" <=? c) && (c <=? "9"))%char.

(** The characters [int] ignores at both ends of its argument: the
    whitespace of ASCII, and the two other spaces below 256, which the
    conversion of a text that is not ASCII turns into blanks. *)
Definition is_space (c : ascii) : bool :=
  match c with
  | " "%char | "009"%char | "010"%char | "011"%char | "012"%char | "013"%char
  | "133"%char | "160"%char => true
  | _ => false
  end.

Fixpoint lstrip (s : string) : string :=
  match s with
  | String c r => if is_space c then lstrip r else s
  | EmptyString => EmptyString
  end.

Fixpoint rstrip (s : string) : string :=
  match s with
  | String c r =>
      match rstrip r with
      | EmptyString => if is_space c then EmptyString else String c EmptyString
      | r' => String c r'
      end
  | EmptyString => EmptyString
  end.

(** Digits of an [int] literal without the single underscores allowed
    between them; [None] when the text is not of that form. *)
Fixpoint literal_digits (s : string) (after_digit : bool) : option string :=
  match s with
  | EmptyString => if after_digit then Some EmptyString else None
  | String c r =>
      if is_digit c then option_map (String c) (literal_digits r true)
      else if (c =? "_")%char && after_digit
      then match r with
           | String d _ => if is_digit d then literal_digits r false else None
           | EmptyString => None
           end
      else None
  end.

Definition digits_value (s : string) : option Z :=
  option_map Z.of_uint (NilEmpty.uint_of_string s).

(** [int(s)] in base 10; [None] stands for [ValueError]. *)
Definition int_of_str (s : string) : option Z :=
  let body (t : string) := mbind digits_value (literal_digits t false) in
  match rstrip (lstrip s) with
  | String "-" r => option_map Z.opp (body r)
  | String "+" r => body r
  | t => body t
  end.

(** [s.lower()] on the letters of Latin-1. *)
Definition lower_char (c : ascii) : ascii :=
  let n := nat_of_ascii c in
  if (65 <=? n)%nat && (n <=? 90)%nat then ascii_of_nat (n + 32)
  else if (192 <=? n)%nat && (n <=? 222)%nat && negb (n =? 215)%nat then ascii_of_nat (n + 32)
  else c.

Fixpoint lower (s : string) : string :=
  match s with
  | String c r => String (lower_char c) (lower r)
  | EmptyString => EmptyString
  end.

(** *** [json.dumps] with its default options *)

Definition hex_digit (n : nat) : ascii :=
  match n with
  | 0 => "0" | 1 => "1" | 2 => "2" | 3 => "3" | 4 => "4" | 5 => "5" | 6 => "6"
  | 7 => "7" | 8 => "8" | 9 => "9" | 10 => "a" | 11 => "b" | 12 => "c"
  | 13 => "d" | 14 => "e" | _ => "f"
  end%char.

(** The replacement [encode_basestring_ascii] makes for one character:
    everything outside the range from space to tilde is escaped. *)
Definition escape_char (c : ascii) : string :=
  match c with
  | "034"%char => "\" +:+ String "034" EmptyString     (* quotation mark *)
  | "092"%char => "\\"                                 (* backslash *)
  | "010"%char => "\n"
  | "013"%char => "\r"
  | "009"%char => "\t"
  | "008"%char => "\b"
  | "012"%char => "\f"
  | _ =>
      let n := nat_of_ascii c in
      if (32 <=? n)%nat && (n <=? 126)%nat then String c EmptyString
      else "\u00" +:+ String (hex_digit (n / 16)) (String (hex_digit (n mod 16)) EmptyString)
  end.

Fixpoint escape (s : string) : string :=
  match s with
  | String c r => escape_char c +:+ escape r
  | EmptyString => EmptyString
  end.

(** [encode_basestring_ascii(s)]: the escaped text between quotation marks. *)
Definition encode_str (s : string) : string :=
  String "034" (escape s +:+ String "034" EmptyString).

(** The text a dictionary key becomes ([_iterencode_dict]); [None] stands
    for the [TypeError] raised for any other key. *)
Definition encode_key (k : pyval) : option string :=
  match k with
  | PStr s => Some s
  | PFloat x => Some (floatstr x)
  | PBool true => Some "true"
  | PBool false => Some "false"
  | PNone => Some "null"
  | PInt z => Some (str_int z)
  | PList _ | PTuple _ | PDict _ => None
  end.

(** [", ".join(chunks)] when every chunk was produced. *)
Fixpoint join_chunks (chunks : list (option string)) : option string :=
  match chunks with
  | [] => Some EmptyString
  | [c] => c
  | c :: rest =>
      match c, join_chunks rest with
      | Some t, Some u => Some (t +:+ ", " +:+ u)
      | _, _ => None
      end
  end.

(** [json.dumps(value)]; [None] stands for [TypeError]. *)
Fixpoint json_dumps (v : pyval) : option string :=
  match v with
  | PNone => Some "null"
  | PBool true => Some "true"
  | PBool false => Some "false"
  | PInt z => Some (str_int z)
  | PFloat x => Some (floatstr x)
  | PStr s => Some (encode_str s)
  | PList items | PTuple items =>
      option_map (fun body => "[" +:+ body +:+ "]") (join_chunks (map json_dumps items))
  | PDict items =>
      option_map (fun body => "{" +:+ body +:+ "}")
        (join_chunks
           (map (fun kv =>
                   match encode_key (fst kv), json_dumps (snd kv) with
                   | Some k, Some t => Some (encode_str k +:+ ": " +:+ t)
                   | _, _ => None
                   end) items))
  end.

(** *** [json.loads] with its default options *)

(** JSON whitespace. *)
Definition is_ws (c : ascii) : bool :=
  match c with
  | " "%char | "009"%char | "010"%char | "013"%char => true
  | _ => false
  end.

Fixpoint skip_ws (s : string) : string :=
  match s with
  | String c r => if is_ws c then skip_ws r else s
  | EmptyString => EmptyString
  end.

Definition hex_value (c : ascii) : option nat :=
  let n := nat_of_ascii c in
  if (48 <=? n)%nat && (n <=? 57)%nat then Some (n - 48)
  else if (97 <=? n)%nat && (n <=? 102)%nat then Some (n - 87)
  else if (65 <=? n)%nat && (n <=? 70)%nat then Some (n - 55)
  else None.

Definition hex4 (a b c d : ascii) : option nat :=
  match hex_value a, hex_value b, hex_value c, hex_value d with
  | Some x, Some y, Some z, Some w => Some (((x * 16 + y) * 16 + z) * 16 + w)
  | _, _, _, _ => None
  end.

(** The character a one-letter escape stands for. *)
Definition unescape (c : ascii) : option ascii :=
  match c with
  | "034"%char => Some "034"%char
  | "092"%char => Some "092"%char
  | "/"%char => Some "/"%char
  | "b"%char => Some "008"%char
  | "f"%char => Some "012"%char
  | "n"%char => Some "010"%char
  | "r"%char => Some "013"%char
  | "t"%char => Some "009"%char
  | _ => None
  end.

Definition prepend {B : Type} (c : ascii) (r : string * B) : string * B :=
  (String c (fst r), snd r).

(** [scanstring] in strict mode, started after the opening quotation
    mark: the decoded text and what follows the closing mark. Escapes of
    code points from 256 on have no counterpart in the model. *)
Fixpoint scanstring (s : string) : option (string * string) :=
  match s with
  | EmptyString => None
  | String c r =>
      if (c =? "034")%char then Some (EmptyString, r)
      else if (c =? "092")%char then
        match r with
        | String "u" (String h1 (String h2 (String h3 (String h4 r')))) =>
            match hex4 h1 h2 h3 h4 with
            | Some n =>
                if (n <? 256)%nat
                then option_map (prepend (ascii_of_nat n)) (scanstring r')
                else None
            | None => None
            end
        | String e r' =>
            match unescape e with
            | Some ch => option_map (prepend ch) (scanstring r')
            | None => None
            end
        | EmptyString => None
        end
      else if (nat_of_ascii c <? 32)%nat then None
      else option_map (prepend c) (scanstring r)
  end.

(** The longest prefix of digits, and the rest. *)
Fixpoint span_digits (s : string) : string * string :=
  match s with
  | String c r => if is_digit c then prepend c (span_digits r) else (EmptyString, s)
  | EmptyString => (EmptyString, EmptyString)
  end.

(** The three groups of [NUMBER_RE]: integer part, fraction, exponent. *)
Definition scan_natural (s : string) : option (string * string) :=
  match s with
  | String "0" r => Some (String "0" EmptyString, r)
  | String c r => if is_digit c then Some (prepend c (span_digits r)) else None
  | EmptyString => None
  end.

Definition scan_integer (s : string) : option (string * string) :=
  match s with
  | String "-" r => option_map (prepend "-") (scan_natural r)
  | _ => scan_natural s
  end.

Definition scan_frac (s : string) : string * string :=
  match s with
  | String "." r =>
      match span_digits r with
      | (EmptyString, _) => (EmptyString, s)
      | (ds, r') => (String "." ds, r')
      end
  | _ => (EmptyString, s)
  end.

Definition scan_exp (s : string) : string * string :=
  match s with
  | String e r =>
      if (e =? "e")%char || (e =? "E")%char then
        let '(sign, r1) :=
          match r with
          | String "-" r1 => (String "-" EmptyString, r1)
          | String "+" r1 => (String "+" EmptyString, r1)
          | _ => (EmptyString, r)
          end in
        match span_digits r1 with
        | (EmptyString, _) => (EmptyString, s)
        | (ds, r') => (String e (sign +:+ ds), r')
        end
      else (EmptyString, s)
  | EmptyString => (EmptyString, s)
  end.

(** A number at the start of [s]: [int] of the integer part when there is
    neither fraction nor exponent, [float] of the whole match otherwise. *)
Definition scan_number (s : string) : option (pyval * string) :=
  match scan_integer s with
  | None => None
  | Some (integer, r1) =>
      let '(frac, r2) := scan_frac r1 in
      let '(exp, r3) := scan_exp r2 in
      match frac, exp with
      | EmptyString, EmptyString =>
          option_map (fun z => (PInt z, r3)) (int_of_str integer)
      | _, _ =>
          option_map (fun x => (PFloat x, r3)) (float_of_str (integer +:+ frac +:+ exp))
      end
  end.

(** [s] without the prefix [p], when it starts with it. *)
Fixpoint strip_prefix (p s : string) : option string :=
  match p, s with
  | EmptyString, _ => Some s
  | String a p', String b s' => if (a =? b)%char then strip_prefix p' s' else None
  | String _ _, EmptyString => None
  end.

(** [dict(pairs)]: a later pair with a key already present replaces the
    value and keeps the position. *)
Fixpoint pairs_set (d : list (string * pyval)) (k : string) (v : pyval)
    : list (string * pyval) :=
  match d with
  | [] => [(k, v)]
  | (k', v') :: r => if String.eqb k' k then (k', v) :: r else (k', v') :: pairs_set r k v
  end.

Definition dict_of_pairs (pairs : list (string * pyval)) : pyval :=
  PDict (map (fun kv => (PStr (fst kv), snd kv))
           (fold_left (fun d kv => pairs_set d (fst kv) (snd kv)) pairs [])).

(** The scanner ([scan_once], [JSONArray], [JSONObject]). Recursion is on
    [fuel], which bounds the nesting and the number of items read;
    [json_loads] supplies more than any text can use. *)
Fixpoint parse_value (fuel : nat) (s : string) : option (pyval * string) :=
  match fuel with
  | O => None
  | S fuel =>
      match s with
      | String "034" r =>
          option_map (fun sr => (PStr (fst sr), snd sr)) (scanstring r)
      | String "{" r =>
          match skip_ws r with
          | String "}" r' => Some (PDict [], r')
          | String "034" r' =>
              option_map (fun pr => (dict_of_pairs (fst pr), snd pr)) (parse_members fuel r')
          | _ => None
          end
      | String "[" r =>
          match skip_ws r with
          | String "]" r' => Some (PList [], r')
          | r' => option_map (fun vr => (PList (fst vr), snd vr)) (parse_elements fuel r')
          end
      | _ =>
          match strip_prefix "null" s, strip_prefix "true" s, strip_prefix "false" s with
          | Some r, _, _ => Some (PNone, r)
          | _, Some r, _ => Some (PBool true, r)
          | _, _, Some r => Some (PBool false, r)
          | None, None, None =>
              match scan_number s with
              | Some vr => Some vr
              | None =>
                  let constant (name text : string) :=
                    match strip_prefix name s with
                    | Some r => option_map (fun x => (PFloat x, r)) (float_of_str text)
                    | None => None
                    end in
                  match constant "NaN" "nan" with
                  | Some vr => Some vr
                  | None =>
                      match constant "Infinity" "inf" with
                      | Some vr => Some vr
                      | None => constant "-Infinity" "-inf"
                      end
                  end
              end
          end
      end
  end

(** The items of an array, started at the first one, up to the closing
    bracket. *)
with parse_elements (fuel : nat) (s : string) : option (list pyval * string) :=
  match fuel with
  | O => None
  | S fuel =>
      match parse_value fuel s with
      | None => None
      | Some (v, r) =>
          match skip_ws r with
          | String "]" r' => Some ([v], r')
          | String "," r' =>
              option_map (fun vr => (v :: fst vr, snd vr)) (parse_elements fuel (skip_ws r'))
          | _ => None
          end
      end
  end

(** The members of an object, started after the quotation mark that opens
    the first key, up to the closing brace. *)
with parse_members (fuel : nat) (s : string) : option (list (string * pyval) * string) :=
  match fuel with
  | O => None
  | S fuel =>
      match scanstring s with
      | None => None
      | Some (key, r) =>
          match skip_ws r with
          | String ":" r1 =>
              match parse_value fuel (skip_ws r1) with
              | None => None
              | Some (v, r2) =>
                  match skip_ws r2 with
                  | String "}" r' => Some ([(key, v)], r')
                  | String "," r3 =>
                      match skip_ws r3 with
                      | String "034" r4 =>
                          option_map (fun pr => ((key, v) :: fst pr, snd pr))
                            (parse_members fuel r4)
                      | _ => None
                      end
                  | _ => None
                  end
              end
          | _ => None
          end
      end
  end.

(** [json.loads(s)]; [None] stands for [JSONDecodeError]. *)
Definition json_loads (s : string) : option pyval :=
  match parse_value (S (String.length s)) (skip_ws s) with
  | Some (v, r) =>
      match skip_ws r with
      | EmptyString => Some v
      | String _ _ => None
      end
  | None => None
  end.

(** What a value becomes on the way through JSON: tuples become lists,
    dictionary keys become their text, and keys with the same text are
    merged. *)
Fixpoint json_norm (v : pyval) : pyval :=
  match v with
  | PList items | PTuple items => PList (map json_norm items)
  | PDict items =>
      dict_of_pairs
        (map (fun kv => (default EmptyString (encode_key (fst kv)), json_norm (snd kv))) items)
  | _ => v
  end.

(** What may follow a number in a JSON text: anything but a character
    that would continue it. *)
Definition number_end (rest : string) : bool :=
  match rest with
  | EmptyString => true
  | String c _ => negb (is_digit c || (c =? ".")%char || (c =? "e")%char || (c =? "E")%char)
  end.

(** The number scanner reads the JSON text of [x] back as [x]; Python
    guarantees this of every finite float. *)
Definition float_scans_back (x : pyfloat) : Prop :=
  forall rest, number_end rest = true ->
    scan_number (floatstr x +:+ rest) = Some (PFloat x, rest).

(** Every float inside [v] (dictionary keys apart) is read back. *)
Fixpoint floats_ok (v : pyval) : Prop :=
  match v with
  | PFloat x => float_scans_back x
  | PList items | PTuple items => fold_right (fun x acc => floats_ok x /\ acc) True items
  | PDict items => fold_right (fun kv acc => floats_ok (snd kv) /\ acc) True items
  | _ => True
  end.

(** The values JSON represents as they are: no tuple, and dictionaries
    keyed by distinct strings. *)
Fixpoint json_native (v : pyval) : Prop :=
  match v with
  | PNone | PBool _ | PInt _ | PStr _ => True
  | PFloat x => float_scans_back x
  | PList items => fold_right (fun x acc => json_native x /\ acc) True items
  | PTuple _ => False
  | PDict items =>
      NoDup (map fst items) /\
      fold_right (fun kv acc =>
                    (exists s, fst kv = PStr s) /\ json_native (snd kv) /\ acc) True items
  end.

(** Fuel that suffices to read the text of a value. *)
Fixpoint vfuel (v : pyval) : nat :=
  match v with
  | PList items | PTuple items => S (fold_right (fun x acc => S (vfuel x + acc)) 0%nat items)
  | PDict items => S (fold_right (fun kv acc => S (vfuel (snd kv) + acc)) 0%nat items)
  | _ => 1
  end.

(** A text made of decimal digits. *)
Fixpoint all_digits (s : string) : Prop :=
  match s with
  | String c r => is_digit c = true /\ all_digits r
  | EmptyString => True
  end.

(** The chunk [json.dumps] writes for one member of a dictionary, and
    the pair [json.loads] makes of it. *)
Definition member_chunk (kv : pyval * pyval) : option string :=
  match encode_key (fst kv), json_dumps (snd kv) with
  | Some k, Some t => Some (encode_str k +:+ ": " +:+ t)
  | _, _ => None
  end.

Definition norm_pair (kv : pyval * pyval) : string * pyval :=
  (default EmptyString (encode_key (fst kv)), json_norm (snd kv)).

(** Fuel for the items of an array and the members of an object. *)
Definition efuel (items : list pyval) : nat :=
  fold_right (fun x acc => S (vfuel x + acc)) 0%nat items.

Definition mfuel (items : list (pyval * pyval)) : nat :=
  fold_right (fun kv acc => S (vfuel (snd kv) + acc)) 0%nat items.

(** The text of [v], followed by anything that may follow a number, is
    read back as the normalised [v]. *)
Definition reads_back (v : pyval) : Prop :=
  floats_ok v ->
  forall t rest fuel,
    json_dumps v = Some t -> number_end rest = true -> (vfuel v <= fuel)%nat ->
    parse_value fuel (t +:+ rest) = Some (json_norm v, rest).


End Values.

(** *** A float type for examples

    The floats with an integral value of moderate size: their text is the
    integer followed by [.0], for [str] and for JSON alike. *)

Fixpoint drop_dot_zero (s : string) : option string :=
  match s with
  | String "." (String "0" EmptyString) => Some EmptyString
  | String c r => option_map (String c) (drop_dot_zero r)
  | EmptyString => None
  end.

Definition integral_floats : PyFloat := {|
  pyfloat := Z;
  float_str := fun z => str_int z +:+ ".0";
  float_of_str := fun s => mbind int_of_str (drop_dot_zero s);
  floatstr := fun z => str_int z +:+ ".0"
|}.

End Python.

(** ** state_manager.py

    The SQLite file is a record of its tables; a table with a [UNIQUE]
    column is a finite map from that column to the row. The value of
    [CURRENT_TIMESTAMP] is an input of the statements that use it, and
    storage itself does not fail. *)

Module StateManager.
Import Python.

(** A row of [application_state]. *)
Record state_row : Type := {
  row_id : Z;
  value : string;
  data_type : string;
  created_at : Z;
  updated_at : Z
}.

(** A row of [job_search_state]; [None] is SQL [NULL]. *)
Record search_row : Type := {
  search_row_id : Z;
  query : string;
  results : option string;
  status : string;
  error_count : Z;
  last_error : option string;
  search_created_at : Z;
  search_updated_at : Z
}.

Record database : Type := {
  application_state : gmap string state_row;
  application_state_seq : Z;      (* largest id handed out so far *)
  job_search_state : gmap string search_row;
  job_search_state_seq : Z
}.

(** The tables [_init_database] creates. *)
Definition empty_db : database := {|
  application_state := ∅;
  application_state_seq := 0;
  job_search_state := ∅;
  job_search_state_seq := 0
|}.

(** [INSERT OR REPLACE INTO application_state (key, value, data_type,
    updated_at) VALUES (?, ?, ?, CURRENT_TIMESTAMP)] *)
Definition replace_state (db : database) (now : Z) (key serialized_value data_type : string)
    : database := {|
  application_state :=
    <[key := {| row_id := application_state_seq db + 1;
                value := serialized_value;
                data_type := data_type;
                created_at := now;
                updated_at := now |}]> (application_state db);
  application_state_seq := application_state_seq db + 1;
  job_search_state := job_search_state db;
  job_search_state_seq := job_search_state_seq db
|}.

(** [INSERT OR REPLACE INTO job_search_state (search_id, query, results,
    status, error_count, last_error, updated_at) VALUES (...)] *)
Definition replace_search (db : database) (now : Z) (search_id query : string)
    (results_json : option string) (status : string) (error_count : Z)
    (last_error : option string) : database := {|
  application_state := application_state db;
  application_state_seq := application_state_seq db;
  job_search_state :=
    <[search_id := {| search_row_id := job_search_state_seq db + 1;
                      query := query;
                      results := results_json;
                      status := status;
                      error_count := error_count;
                      last_error := last_error;
                      search_created_at := now;
                      search_updated_at := now |}]> (job_search_state db);
  job_search_state_seq := job_search_state_seq db + 1
|}.

Section Store.
Context {F : PyFloat}.

(** [save_state]; [None] stands for the [TypeError] of [json.dumps], which
    is raised before anything is written. *)
Definition save_state (db : database) (now : Z) (key : string) (value : pyval)
    : option database :=
  let data_type := type_name value in
  let serialized :=
    match value with
    | PDict _ | PList _ | PTuple _ =>
        option_map (fun serialized_value => (serialized_value, "json")) (json_dumps value)
    | _ => Some (str_scalar value, data_type)
    end in
  option_map (fun sd => replace_state db now key (fst sd) (snd sd)) serialized.

(** "Deserialize based on data type"; an exception raised on the way is
    caught by [load_state], which then returns [default]. *)
Definition deserialize (value data_type : string) (default : pyval) : pyval :=
  if String.eqb data_type "json" then
    match json_loads value with Some v => v | None => default end
  else if String.eqb data_type "int" then
    match int_of_str value with Some z => PInt z | None => default end
  else if String.eqb data_type "float" then
    match float_of_str value with Some x => PFloat x | None => default end
  else if String.eqb data_type "bool" then
    PBool (String.eqb (lower value) "true")
  else PStr value.

(** [load_state] *)
Definition load_state (db : database) (key : string) (default : pyval) : pyval :=
  match application_state db !! key with
  | None => default
  | Some row => deserialize (value row) (data_type row) default
  end.

(** [save_job_search_state]; [results] is an [Optional[List[Dict]]]. *)
Definition save_job_search_state (db : database) (now : Z) (search_id query : string)
    (results : option (list pyval)) (status : string) (error_count : Z)
    (last_error : option string) : option database :=
  let results_json :=
    match results with
    | Some ((_ :: _) as items) => option_map Some (json_dumps (PList items))
    | Some [] | None => Some None
    end in
  option_map
    (fun rj => replace_search db now search_id query rj status error_count last_error)
    results_json.

(** The dictionary [load_job_search_state] returns. *)
Record search_state : Type := {
  st_id : Z;
  st_search_id : string;
  st_query : string;
  st_results : pyval;
  st_status : string;
  st_error_count : Z;
  st_last_error : option string;
  st_created_at : Z;
  st_updated_at : Z
}.

Definition state_of_row (search_id : string) (row : search_row) (res : pyval) : search_state := {|
  st_id := search_row_id row;
  st_search_id := search_id;
  st_query := query row;
  st_results := res;
  st_status := status row;
  st_error_count := error_count row;
  st_last_error := last_error row;
  st_created_at := search_created_at row;
  st_updated_at := search_updated_at row
|}.

(** [load_job_search_state]: the stored text is decoded when it is
    truthy; a decoding error is caught and [None] returned. *)
Definition load_job_search_state (db : database) (search_id : string) : option search_state :=
  match job_search_state db !! search_id with
  | None => None
  | Some row =>
      match results row with
      | None => Some (state_of_row search_id row PNone)
      | Some EmptyString => Some (state_of_row search_id row (PStr EmptyString))
      | Some text => option_map (state_of_row search_id row) (json_loads text)
      end
  end.

End Store.

(** *** Sample values *)

Definition settings : @pyval integral_floats :=
  PDict [(PStr "role", PStr "data engineer");
         (PStr "remote", PBool true);
         (PStr "salary", PList [PInt 90000; @PFloat integral_floats 2%Z; PNone])].

End StateManager.

(** ** retry_logic.py: the decorators *)

Module RetryDecorators.
Import RetryLogic.

(** [retry_with_backoff(...)(func)(...)]: each call of the wrapper builds
    the configuration and a new handler, and runs [func] through it. *)
Definition retry_with_backoff {A : Type} (max_attempts : Z)
    (base_delay max_delay exponential_factor : Q) (jitter : bool) (jitter_factor : Q)
    (strategy : RetryStrategy) (retryable_exceptions non_retryable_exceptions : list string)
    (func : nat -> outcome A) (rand : nat -> Q) : retry_result A * list event :=
  let config := {|
    RetryLogic.max_attempts := max_attempts;
    RetryLogic.base_delay := base_delay;
    RetryLogic.max_delay := max_delay;
    RetryLogic.exponential_factor := exponential_factor;
    RetryLogic.jitter := jitter;
    RetryLogic.jitter_factor := jitter_factor;
    RetryLogic.strategy := strategy;
    RetryLogic.retryable_exceptions := retryable_exceptions;
    RetryLogic.non_retryable_exceptions := non_retryable_exceptions
  |} in
  let retry_handler := new_handler config in
  execute_with_retry retry_handler func rand.

(** Classes named in the convenience decorators, by qualified name where
    the name is not a builtin. *)
Definition network_retryable : list string :=
  ["requests.exceptions.ConnectionError"; "requests.exceptions.Timeout";
   "requests.exceptions.HTTPError"; "urllib.error.URLError"; "OSError"].
Definition network_non_retryable : list string := ["requests.exceptions.HTTPError"].

(** [retry_on_network_error(max_attempts, base_delay)] *)
Definition retry_on_network_error {A : Type} (max_attempts : Z) (base_delay : Q)
    : (nat -> outcome A) -> (nat -> Q) -> retry_result A * list event :=
  retry_with_backoff max_attempts base_delay 30 2 true (1 # 10) EXPONENTIAL_BACKOFF
    network_retryable network_non_retryable.

(** [retry_on_api_error(max_attempts, base_delay)] *)
Definition retry_on_api_error {A : Type} (max_attempts : Z) (base_delay : Q)
    : (nat -> outcome A) -> (nat -> Q) -> retry_result A * list event :=
  retry_with_backoff max_attempts base_delay 60 2 true (1 # 10) EXPONENTIAL_BACKOFF
    ["TimeoutError"; "ConnectionError"; "OSError"] [].

(** [retry_on_database_error(max_attempts, base_delay)] *)
Definition retry_on_database_error {A : Type} (max_attempts : Z) (base_delay : Q)
    : (nat -> outcome A) -> (nat -> Q) -> retry_result A * list event :=
  retry_with_backoff max_attempts base_delay 10 2 true (1 # 10) EXPONENTIAL_BACKOFF
    ["sqlite3.OperationalError"; "sqlite3.DatabaseError"] ["sqlite3.IntegrityError"].

(** [requests.exceptions.HTTPError(msg)] and [sqlite3.IntegrityError(msg)] *)
Definition HTTPError (msg : string) : exc :=
  Exc ["requests.exceptions.HTTPError"; "requests.exceptions.RequestException";
       "OSError"; "Exception"; "BaseException"; "object"] msg.
Definition IntegrityError (msg : string) : exc :=
  Exc ["sqlite3.IntegrityError"; "sqlite3.DatabaseError"; "sqlite3.Error";
       "Exception"; "BaseException"; "object"] msg.

(** [sqlite3.OperationalError(msg)] *)
Definition OperationalError (msg : string) : exc :=
  Exc ["sqlite3.OperationalError"; "sqlite3.DatabaseError"; "sqlite3.Error";
       "Exception"; "BaseException"; "object"] msg.

(** An operation that always finds the database locked. *)
Definition locked : nat -> outcome unit :=
  fun _ => Raises (OperationalError "database is locked").

(** An operation that fails twice and then returns 7, one that always
    gets a server error, one that always violates a constraint. *)
Definition flaky : nat -> outcome Z :=
  fun k => if (k <? 2)%nat then Raises (ConnectionError "connection reset") else Returns 7%Z.
Definition server_error : nat -> outcome unit :=
  fun _ => Raises (HTTPError "503 Server Error").
Definition constraint_violation : nat -> outcome unit :=
  fun _ => Raises (IntegrityError "UNIQUE constraint failed").

(** [RetryConfig(retryable_exceptions=(ConnectionError,))] *)
Definition connection_only : RetryConfig := {|
  RetryLogic.max_attempts := 3;
  RetryLogic.base_delay := 1;
  RetryLogic.max_delay := 60;
  RetryLogic.exponential_factor := 2;
  RetryLogic.jitter := true;
  RetryLogic.jitter_factor := 1 # 10;
  RetryLogic.strategy := EXPONENTIAL_BACKOFF;
  RetryLogic.retryable_exceptions := ["ConnectionError"];
  RetryLogic.non_retryable_exceptions := []
|}.

(** [RetryConfig(max_attempts=0)] *)
Definition disabled : RetryConfig := {|
  RetryLogic.max_attempts := 0;
  RetryLogic.base_delay := 1;
  RetryLogic.max_delay := 60;
  RetryLogic.exponential_factor := 2;
  RetryLogic.jitter := true;
  RetryLogic.jitter_factor := 1 # 10;
  RetryLogic.strategy := EXPONENTIAL_BACKOFF;
  RetryLogic.retryable_exceptions := ["Exception"];
  RetryLogic.non_retryable_exceptions := []
|}.

End RetryDecorators.

(** ** state_manager.py: the remaining operations *)

Module Store.
Import Python StateManager.

(** [delete_state]: the table without the row, and whether
    [cursor.rowcount > 0]. *)
Definition delete_state (db : database) (key : string) : database * bool :=
  ({| application_state := delete key (application_state db);
      application_state_seq := application_state_seq db;
      job_search_state := job_search_state db;
      job_search_state_seq := job_search_state_seq db |},
   bool_decide (is_Some (application_state db !! key))).

(** A row of [recovery_checkpoints]. *)
Record checkpoint_row : Type := {
  checkpoint_row_id : Z;
  operation : string;
  state_data : string;
  checkpoint_created_at : Z
}.

(** The database file with its third table. *)
Record store : Type := {
  tables : database;
  recovery_checkpoints : gmap string checkpoint_row;
  recovery_checkpoints_seq : Z
}.

Definition empty_store : store := {|
  tables := empty_db;
  recovery_checkpoints := ∅;
  recovery_checkpoints_seq := 0
|}.

(** [clear_all_states]: the three [DELETE FROM] statements; the result is
    [True]. Deleting rows does not reset the [AUTOINCREMENT] counters. *)
Definition clear_all_states (st : store) : store * bool :=
  ({| tables := {| application_state := ∅;
                   application_state_seq := application_state_seq (tables st);
                   job_search_state := ∅;
                   job_search_state_seq := job_search_state_seq (tables st) |};
      recovery_checkpoints := ∅;
      recovery_checkpoints_seq := recovery_checkpoints_seq st |},
   true).

Section Operations.
Context {F : PyFloat}.

(** [create_checkpoint]; [None] stands for the [TypeError] of
    [json.dumps], raised before anything is written. *)
Definition create_checkpoint (st : store) (now : Z) (checkpoint_id operation : string)
    (state_data : pyval) : option store :=
  option_map
    (fun state_json => {|
       tables := tables st;
       recovery_checkpoints :=
         <[checkpoint_id := {| checkpoint_row_id := recovery_checkpoints_seq st + 1;
                               operation := operation;
                               state_data := state_json;
                               checkpoint_created_at := now |}]>
           (recovery_checkpoints st);
       recovery_checkpoints_seq := recovery_checkpoints_seq st + 1 |})
    (json_dumps state_data).

(** [load_checkpoint]: the pair of ['operation'] and ['state_data'], or
    [None], also when decoding fails. *)
Definition load_checkpoint (st : store) (checkpoint_id : string) : option (string * pyval) :=
  match recovery_checkpoints st !! checkpoint_id with
  | None => None
  | Some row => option_map (fun data => (operation row, data)) (json_loads (state_data row))
  end.

(** The branches of [get_all_states] for one row; [None] stands for the
    exception a conversion raises. *)
Definition deserialize_row (row : state_row) : option pyval :=
  if String.eqb (data_type row) "json" then json_loads (value row)
  else if String.eqb (data_type row) "int" then option_map PInt (int_of_str (value row))
  else if String.eqb (data_type row) "float" then option_map PFloat (float_of_str (value row))
  else if String.eqb (data_type row) "bool" then
    Some (PBool (String.eqb (lower (value row)) "true"))
  else Some (PStr (value row)).

(** The loop of [get_all_states]: the first exception ends it, and the
    states gathered so far are returned. *)
Fixpoint gather (rows : list (string * state_row)) (states : gmap string pyval)
    : gmap string pyval :=
  match rows with
  | [] => states
  | (key, row) :: rest =>
      match deserialize_row row with
      | Some v => gather rest (<[key := v]> states)
      | None => states
      end
  end.

(** The rows as [fetchall] lists them: in the order of their ids. *)
Definition by_id (a b : string * state_row) : Prop :=
  (row_id (snd a) <= row_id (snd b))%Z.

#[export] Instance by_id_dec : RelDecision by_id :=
  fun a b => Z_le_dec (row_id (snd a)) (row_id (snd b)).

Definition scan (table : gmap string state_row) : list (string * state_row) :=
  merge_sort by_id (map_to_list table).

(** [get_all_states] *)
Definition get_all_states (db : database) : gmap string pyval :=
  gather (scan (application_state db)) ∅.

(** Every stored row can be deserialised. *)
Definition readable (db : database) : Prop :=
  forall key row, application_state db !! key = Some row -> is_Some (deserialize_row row).

(** The values whose stored text the conversions of [load_state] and
    [get_all_states] accept. *)
Definition convertible (v : pyval) : Prop :=
  match v with
  | PFloat x => is_Some (float_of_str (float_str x))
  | PList _ | PTuple _ | PDict _ => floats_ok v
  | _ => True
  end.

End Operations.

(** *** Sample rows *)

(** A result list of one posting. *)
Definition postings : list (@pyval integral_floats) :=
  [PDict [(PStr "title", PStr "data engineer"); (PStr "remote", PBool true)]].

Definition text_row (id : Z) (value data_type : string) : state_row := {|
  row_id := id;
  value := value;
  data_type := data_type;
  created_at := 0;
  updated_at := 0
|}.

(** Rows as a scan may fetch them; [int] rejects the text of the second. *)
Definition fetched_first : list (string * state_row) := [("page", text_row 1 "3" "int")].
Definition damaged : state_row := text_row 2 "three" "int".
Definition fetched_last : list (string * state_row) := [("query", text_row 3 "rust" "str")].

(** The database after [save_state("page", 3)]. *)
Definition paged : database := replace_state empty_db 0 "page" "3" "int".

(** A database whose only row is the damaged one. *)
Definition damaged_db : database := {|
  application_state := {["cursor" := damaged]};
  application_state_seq := 2;
  job_search_state := ∅;
  job_search_state_seq := 0
|}.

End Store.

(** * Properties *)

(** ** Retry handler *)

Module RetryFacts.
Import RetryLogic.

(** *** The precomputed Fibonacci table *)

Lemma fib_step (k : nat) : (2 <= k)%nat -> fib k = (fib (k - 1) + fib (k - 2))%Z.
Proof.
  intros Hk. destruct k as [|[|k]]; try lia.
  replace (S (S k) - 1)%nat with (S k) by lia.
  replace (S (S k) - 2)%nat with k by lia.
  reflexivity.
Qed.

Lemma nth_fib_prefix (k i : nat) :
  (i < k)%nat -> nth i (map fib (seq 0 k)) 0%Z = fib i.
Proof.
  intros Hi.
  rewrite (nth_indep _ 0%Z (fib 0)) by (rewrite length_map, length_seq; lia).
  rewrite map_nth, seq_nth by lia. reflexivity.
Qed.

Lemma fib_append_prefix (k : nat) :
  (2 <= k)%nat -> fib_append (map fib (seq 0 k)) k = map fib (seq 0 (S k)).
Proof.
  intros Hk. unfold fib_append.
  rewrite !nth_fib_prefix by lia.
  rewrite seq_S, map_app. simpl. rewrite <- fib_step by lia. reflexivity.
Qed.

Lemma fib_loop (m k : nat) :
  (2 <= k)%nat ->
  fold_left fib_append (seq k m) (map fib (seq 0 k)) = map fib (seq 0 (k + m)).
Proof.
  revert k. induction m as [|m IH]; intros k Hk; simpl.
  - rewrite Nat.add_0_r. reflexivity.
  - rewrite fib_append_prefix by lia. rewrite IH by lia.
    f_equal. f_equal. lia.
Qed.

Lemma fibonacci_sequence_spec (n : Z) :
  _generate_fibonacci_sequence n = map fib (seq 0 (Z.to_nat n)).
Proof.
  unfold _generate_fibonacci_sequence.
  destruct (Z.leb_spec n 0) as [Hn|Hn].
  - replace (Z.to_nat n) with 0%nat by lia. reflexivity.
  - destruct (Z.eqb_spec n 1) as [->|Hn1]; [reflexivity|].
    change [1%Z; 1%Z] with (map fib (seq 0 2)).
    rewrite fib_loop by lia. f_equal. f_equal. lia.
Qed.

Lemma fibonacci_sequence_length (n : Z) :
  length (_generate_fibonacci_sequence n) = Z.to_nat n.
Proof. rewrite fibonacci_sequence_spec, length_map, length_seq. reflexivity. Qed.

Lemma fibonacci_sequence_lookup (n : Z) (a : nat) :
  _generate_fibonacci_sequence n !! a =
  if (a <? Z.to_nat n)%nat then Some (fib a) else None.
Proof.
  rewrite fibonacci_sequence_spec.
  destruct (Nat.ltb_spec a (Z.to_nat n)) as [Ha|Ha].
  - rewrite list_lookup_fmap, lookup_seq_lt by lia. reflexivity.
  - apply lookup_ge_None. rewrite length_map, length_seq. lia.
Qed.

(** *** The retry loop *)

Section Loop.
Context {A : Type}.
Variable h : RetryHandler.
Variable func : nat -> outcome A.
Variable rand : nat -> Q.

Lemma should_retry_true (e : exc) (k : nat) :
  _should_retry h e k = true <->
  (Z.of_nat k < max_attempts (config h))%Z /\
  isinstance e (non_retryable_exceptions (config h)) = false /\
  isinstance e (retryable_exceptions (config h)) = true.
Proof.
  unfold _should_retry.
  destruct (Z.geb_spec (Z.of_nat k) (max_attempts (config h))) as [Hk|Hk].
  { split; [discriminate|]. intros (Hlt & _). lia. }
  destruct (non_retryable_exceptions (config h)) as [|c cs] eqn:Hn.
  { simpl. split; [intros ->; repeat split; lia|intros (_ & _ & H); exact H]. }
  destruct (isinstance e (c :: cs)); cbn [negb andb].
  - split; [discriminate|intros (_ & H & _); discriminate].
  - split; [intros ->; repeat split; lia|intros (_ & _ & H); exact H].
Qed.

Lemma non_retryable_not_retried (e : exc) (k : nat) :
  isinstance e (non_retryable_exceptions (config h)) = true ->
  _should_retry h e k = false.
Proof.
  intros Hn. destruct (_should_retry h e k) eqn:Hs; [|reflexivity].
  apply should_retry_true in Hs. destruct Hs as (_ & Hs & _). congruence.
Qed.

Lemma and_then_not_aborts {B C : Type} (o : outcome B) (f : B -> outcome C) :
  (forall e, o <> Aborts e) -> (forall v e, f v <> Aborts e) ->
  forall e, and_then o f <> Aborts e.
Proof.
  intros Ho Hf e. destruct o as [v|e'|e']; simpl; [apply Hf|discriminate|].
  exfalso. apply (Ho e'). reflexivity.
Qed.

Lemma pow_not_aborts (x : Q) (n : nat) (e : exc) : FloatRange.pow x n <> Aborts e.
Proof. unfold FloatRange.pow. destruct (FloatRange.overflows _); discriminate. Qed.

Lemma of_int_not_aborts (z : Z) (e : exc) : FloatRange.of_int z <> Aborts e.
Proof. unfold FloatRange.of_int. destruct (FloatRange.overflows _); discriminate. Qed.

Lemma time_sleep_not_aborts (x : FloatRange.float) (e : exc) :
  FloatRange.time_sleep x <> Aborts e.
Proof.
  unfold FloatRange.time_sleep. destruct x as [x|s|]; try discriminate.
  destruct (negb _); [discriminate|]. destruct (FloatRange.negative x); discriminate.
Qed.

Lemma returns_not_aborts {B : Type} (v : B) (e : exc) : Returns v <> Aborts e.
Proof. discriminate. Qed.

Lemma strategy_float_not_aborts (k : nat) (e : exc) : strategy_float h k <> Aborts e.
Proof.
  unfold strategy_float.
  assert (Hexp : forall b,
            and_then (FloatRange.pow (exponential_factor (config h)) k)
              (fun p => Returns (FloatRange.mul b p)) <> Aborts e).
  { intros b. apply and_then_not_aborts; [apply pow_not_aborts|].
    intros v e'. apply returns_not_aborts. }
  assert (Hint : forall b z,
            and_then (FloatRange.of_int z) (fun n => Returns (FloatRange.mul b n)) <> Aborts e).
  { intros b z. apply and_then_not_aborts; [apply of_int_not_aborts|].
    intros v e'. apply returns_not_aborts. }
  destruct (strategy (config h)).
  - apply Hexp.
  - apply Hint.
  - apply returns_not_aborts.
  - destruct (_fibonacci_sequence h !! k); [apply Hint|apply Hexp].
Qed.

(** The back-off raises an [Exception] when it fails. *)
Lemma backoff_cases (k : nat) (r : Q) :
  (exists slept, backoff h k r = Returns slept) \/ (exists err, backoff h k r = Raises err).
Proof.
  destruct (backoff h k r) as [slept|err|err] eqn:Hb;
    [left; eexists; reflexivity|right; eexists; reflexivity|].
  exfalso. revert Hb. apply and_then_not_aborts; [|apply time_sleep_not_aborts].
  apply and_then_not_aborts; [|intros v e; apply returns_not_aborts].
  apply and_then_not_aborts; [apply strategy_float_not_aborts|].
  intros v e. apply returns_not_aborts.
Qed.

(** Attempts that all fail, are retried and backed off leave the loop
    running. *)
Lemma retry_loop_retried (pre rest : list nat) (last_exception : option exc) :
  Forall (fun k => retried h func k /\ backed_off h rand k) pre ->
  exists last',
    retry_loop h func rand (pre ++ rest) last_exception =
    emit (flat_map (retried_attempt h rand) pre) (retry_loop h func rand rest last') /\
    (forall k e, last pre = Some k -> func k = Raises e -> last' = Some e) /\
    (pre = [] -> last' = last_exception).
Proof.
  intros Hpre. revert last_exception.
  induction Hpre as [|k pre [(e & Hf & Hs) Hb] _ IH]; intros last_exception.
  - exists last_exception. simpl. unfold emit. simpl.
    split; [destruct (retry_loop _ _ _ _ _); reflexivity|].
    split; [discriminate|reflexivity].
  - destruct (IH (Some e)) as (last' & Heq & Hlast & Hnil).
    exists last'. split; [|split; [|discriminate]].
    + simpl. rewrite Hf, Hs. simpl. unfold retried_attempt.
      destruct (Z.ltb_spec (Z.of_nat k) (max_attempts (config h) - 1)) as [Hk|Hk].
      * destruct (Hb Hk) as [slept ->]. rewrite Heq. unfold emit. simpl. reflexivity.
      * rewrite Heq. unfold emit. simpl. reflexivity.
    + intros k' e' Hk' Hf'. destruct pre as [|k2 pre].
      * simpl in Hk'. injection Hk' as <-. rewrite Hf in Hf'.
        injection Hf' as <-. apply Hnil. reflexivity.
      * apply (Hlast k' e'); [|exact Hf']. exact Hk'.
Qed.

Lemma retried_attempt_counts (k m : nat) :
  (Z.of_nat (k + m) <= max_attempts (config h) - 1)%Z ->
  (forall j, (k <= j < k + m)%nat -> backed_off h rand j) ->
  sleeps (flat_map (retried_attempt h rand) (seq k m)) = m /\
  calls (flat_map (retried_attempt h rand) (seq k m)) = m.
Proof.
  revert k. induction m as [|m IH]; intros k Hk Hb; [split; reflexivity|].
  destruct (IH (S k) ltac:(lia) ltac:(intros j Hj; apply Hb; lia)) as [IHs IHc].
  unfold sleeps, calls in *. simpl. unfold retried_attempt at 1 3.
  destruct (Z.ltb_spec (Z.of_nat k) (max_attempts (config h) - 1)) as [Hlt|]; [|lia].
  destruct (Hb k ltac:(lia) Hlt) as [slept ->].
  simpl. rewrite IHs, IHc. split; reflexivity.
Qed.

Lemma sleeps_app (t1 t2 : list event) : sleeps (t1 ++ t2) = (sleeps t1 + sleeps t2)%nat.
Proof. unfold sleeps. rewrite List.filter_app, length_app. reflexivity. Qed.

Lemma calls_app (t1 t2 : list event) : calls (t1 ++ t2) = (calls t1 + calls t2)%nat.
Proof. unfold calls. rewrite List.filter_app, length_app. reflexivity. Qed.

(** The attempts before attempt [a] fail, are retried and backed off:
    the run reaches attempt [a] after [a] calls and [a] sleeps. *)
Lemma run_reaches (a : nat) :
  (Z.of_nat a < max_attempts (config h))%Z ->
  (forall k, (k < a)%nat -> retried h func k) ->
  (forall k, (k < a)%nat -> exists slept, backoff h k (rand k) = Returns slept) ->
  exists pre last',
    execute_with_retry h func rand =
    emit pre (retry_loop h func rand
                (a :: seq (S a) (Z.to_nat (max_attempts (config h)) - S a)) last') /\
    calls pre = a /\ sleeps pre = a /\
    (forall e, (0 < a)%nat -> func (a - 1)%nat = Raises e -> last' = Some e) /\
    (a = 0%nat -> last' = None).
Proof.
  intros Ha Hpre Hback.
  assert (Hall : Forall (fun k => retried h func k /\ backed_off h rand k) (seq 0 a)).
  { apply List.Forall_forall. intros k Hk. apply in_seq in Hk.
    split; [apply Hpre; lia|]. intros _. apply Hback. lia. }
  set (rest := a :: seq (S a) (Z.to_nat (max_attempts (config h)) - S a)).
  destruct (retry_loop_retried (seq 0 a) rest None Hall) as (last' & Heq & Hlast & Hnil).
  assert (Hrange : range (max_attempts (config h)) = seq 0 a ++ rest).
  { unfold range, rest.
    replace (Z.to_nat (max_attempts (config h)))
      with (a + S (Z.to_nat (max_attempts (config h)) - S a))%nat at 1 by lia.
    rewrite seq_app. reflexivity. }
  exists (flat_map (retried_attempt h rand) (seq 0 a)), last'.
  split; [unfold execute_with_retry; rewrite Hrange; exact Heq|].
  destruct (retried_attempt_counts 0 a ltac:(lia)) as [Hs Hc].
  { intros j Hj _. apply Hback. lia. }
  split; [exact Hc|]. split; [exact Hs|]. split.
  - intros e Hpos Hf. apply (Hlast (a - 1)%nat e); [|exact Hf].
    replace a with (S (a - 1)) at 1 by lia. rewrite seq_S, last_snoc. reflexivity.
  - intros ->. apply Hnil. reflexivity.
Qed.

Lemma last_emit_call {B : Type} (pre : list event) (res : retry_result B) (a : nat) :
  last (snd (emit pre (res, [EvCall a]))) = Some (EvCall a).
Proof. unfold emit. cbn [snd]. apply last_snoc. Qed.

(** C1 (amended). When [max_attempts = N >= 1] and every attempt fails
    with an error the policy classifies as retryable: if the back-off
    after each attempt but the last is carried out (its delay is computed
    and [time.sleep] accepts it), [execute_with_retry] invokes the
    operation [N] times, sleeps after each attempt but the last ([N - 1]
    sleeps, the trace ends with the last call) and raises
    [RetryExhaustedError] with [attempts = N] and the last error; if the
    back-off after attempt [j] is the first that raises, its exception
    leaves [execute_with_retry] after [j + 1] calls and [j] sleeps. *)
Theorem C1_retry_exhausted (N : nat) (err : nat -> exc) :
  (1 <= N)%nat ->
  max_attempts (config h) = Z.of_nat N ->
  (forall k, (k < N)%nat -> func k = Raises (err k)) ->
  (forall k, (k < N)%nat ->
     isinstance (err k) (retryable_exceptions (config h)) = true /\
     isinstance (err k) (non_retryable_exceptions (config h)) = false) ->
  let run := execute_with_retry h func rand in
  ((forall k, (k < N - 1)%nat -> exists slept, backoff h k (rand k) = Returns slept) ->
   fst run = Raised (RetryExhaustedError (Z.of_nat N) (Some (err (N - 1)%nat))) /\
   snd run = flat_map (retried_attempt h rand) (seq 0 N) /\
   sleeps (snd run) = (N - 1)%nat /\
   calls (snd run) = N /\
   last (snd run) = Some (EvCall (N - 1))) /\
  (forall j bad, (j < N - 1)%nat ->
     (forall k, (k < j)%nat -> exists slept, backoff h k (rand k) = Returns slept) ->
     backoff h j (rand j) = Raises bad ->
     fst run = Propagated bad /\
     calls (snd run) = S j /\ sleeps (snd run) = j /\
     last (snd run) = Some (EvCall j)).
Proof.
  intros HN Hmax Hf Hcls run.
  assert (Hret : forall k, (k < N)%nat -> retried h func k).
  { intros k Hk. exists (err k). split; [apply Hf; lia|].
    apply should_retry_true. destruct (Hcls k ltac:(lia)) as [Hr Hn].
    repeat split; [lia|exact Hn|exact Hr]. }
  split.
  - intros Hback.
    assert (Hall : Forall (fun k => retried h func k /\ backed_off h rand k) (seq 0 N)).
    { apply List.Forall_forall. intros k Hk. apply in_seq in Hk.
      split; [apply Hret; lia|]. intros Hlt. apply Hback. lia. }
    destruct (retry_loop_retried (seq 0 N) [] None Hall) as (last' & Heq & Hlast & _).
    rewrite app_nil_r in Heq.
    assert (Hrun : run = (Raised (RetryExhaustedError (Z.of_nat N) (Some (err (N - 1)%nat))),
                          flat_map (retried_attempt h rand) (seq 0 N))).
    { unfold run, execute_with_retry, range. rewrite Hmax, Nat2Z.id, Heq.
      unfold emit. simpl. rewrite app_nil_r, Hmax.
      rewrite (Hlast (N - 1)%nat (err (N - 1)%nat)); [reflexivity| |apply Hf; lia].
      replace N with (S (N - 1)) at 1 by lia. rewrite seq_S, last_snoc. reflexivity. }
    rewrite Hrun. simpl. split; [reflexivity|]. split; [reflexivity|].
    replace N with (S (N - 1)) at 1 3 5 by lia.
    rewrite seq_S, flat_map_app, sleeps_app, calls_app, last_app. simpl.
    destruct (retried_attempt_counts 0 (N - 1) ltac:(lia)) as [-> ->].
    { intros j Hj Hlt. apply Hback. lia. }
    unfold retried_attempt.
    destruct (Z.ltb_spec (Z.of_nat (N - 1)) (max_attempts (config h) - 1)); [lia|].
    unfold sleeps, calls. simpl. repeat split; lia.
  - intros j bad Hj Hback Hbad.
    destruct (run_reaches j ltac:(lia) ltac:(intros k Hk; apply Hret; lia) Hback)
      as (pre & last' & Hrun & Hc & Hs & _).
    destruct (Hret j ltac:(lia)) as (e & Hfj & Hsj).
    assert (Hend : run = emit pre (Propagated bad, [EvCall j])).
    { unfold run. rewrite Hrun. f_equal. cbn [retry_loop]. rewrite Hfj, Hsj. cbn [negb].
      destruct (Z.ltb_spec (Z.of_nat j) (max_attempts (config h) - 1)); [|lia].
      rewrite Hbad. reflexivity. }
    rewrite Hend. split; [reflexivity|].
    rewrite last_emit_call. unfold emit. cbn [snd].
    rewrite calls_app, sleeps_app, Hc, Hs. unfold calls, sleeps. simpl.
    repeat split; lia.
Qed.

(** C4 (amended). When the error of attempt [a] matches
    [non_retryable_exceptions] (whether or not it also matches
    [retryable_exceptions]) [_should_retry] refuses it; when the earlier
    attempts were retried and backed off, so that attempt [a] is made,
    [execute_with_retry] raises [NonRetryableError] at once: its message
    embeds the error, its cause is the error, and it has no [attempts]
    attribute. The operation has then been invoked [a + 1] times, the
    only sleeps are the [a] ones of the earlier attempts, and nothing
    follows the failing call. *)
Theorem C4_non_retryable (a : nat) (e : exc) :
  (Z.of_nat a < max_attempts (config h))%Z ->
  (forall k, (k < a)%nat -> retried h func k) ->
  (forall k, (k < a)%nat -> exists slept, backoff h k (rand k) = Returns slept) ->
  func a = Raises e ->
  isinstance e (non_retryable_exceptions (config h)) = true ->
  let run := execute_with_retry h func rand in
  _should_retry h e a = false /\
  fst run = Raised (NonRetryableError ("Non-retryable exception: " +:+ exc_msg e) e) /\
  (forall r, fst run = Raised r -> attempts_attr r = None) /\
  calls (snd run) = S a /\
  sleeps (snd run) = a /\
  last (snd run) = Some (EvCall a).
Proof.
  intros Ha Hpre Hback Hf Hn run.
  pose proof (non_retryable_not_retried e a Hn) as Hs.
  destruct (run_reaches a Ha Hpre Hback) as (pre & last' & Hrun & Hc & Hsl & _).
  assert (Hend : run = emit pre (Raised (NonRetryableError
                                   ("Non-retryable exception: " +:+ exc_msg e) e),
                                 [EvCall a])).
  { unfold run. rewrite Hrun. f_equal. cbn [retry_loop]. rewrite Hf, Hs, Hn. reflexivity. }
  rewrite Hend. split; [exact Hs|]. split; [reflexivity|].
  split; [intros r [= <-]; reflexivity|].
  rewrite last_emit_call. unfold emit. cbn [snd].
  rewrite calls_app, sleeps_app, Hc, Hsl. unfold calls, sleeps. simpl.
  repeat split; lia.
Qed.
End Loop.

(** A [ValueError] is both retryable and non-retryable under
    [strict_config]; the error raised for it carries no attempt count. *)
Lemma C4_counterexample :
  let run := execute_with_retry (new_handler strict_config) always_invalid (fun _ => 0%Q) in
  isinstance (ValueError "bad input") (non_retryable_exceptions strict_config) = true /\
  isinstance (ValueError "bad input") (retryable_exceptions strict_config) = true /\
  ~ (exists r, fst run = Raised r /\ attempts_attr r = Some (0 + 1)%Z).
Proof.
  split; [reflexivity|]. split; [reflexivity|].
  intros (r & Hr & Hatt). vm_compute in Hr. injection Hr as <-. discriminate.
Qed.

(** A connection error, retried after a sleep, then a [ValueError]. *)
Lemma C4_non_retryable_witness :
  let run := execute_with_retry (new_handler strict_config) rejected_later (fun _ => 0%Q) in
  fst run = Raised (NonRetryableError "Non-retryable exception: bad input"
                      (ValueError "bad input")) /\
  calls (snd run) = 2%nat /\ sleeps (snd run) = 1%nat.
Proof.
  destruct (C4_non_retryable (new_handler strict_config) rejected_later (fun _ => 0%Q)
              1 (ValueError "bad input") ltac:(simpl; lia))
    as (_ & Hres & _ & Hc & Hsl & _).
  - intros k Hk. replace k with 0%nat by lia.
    exists (ConnectionError "connection reset"). split; reflexivity.
  - intros k Hk. replace k with 0%nat by lia. eexists. vm_compute. reflexivity.
  - reflexivity.
  - reflexivity.
  - split; [exact Hres|]. split; [exact Hc|exact Hsl].
Defined.

(** With [base_delay = -1] the first back-off raises [ValueError] in
    [time.sleep]: one call, no sleep, and no [RetryExhaustedError]. *)
Lemma C1_counterexample :
  let h := new_handler negative_delay in
  let run := execute_with_retry h always_disconnected (fun _ => 0%Q) in
  max_attempts (config h) = 3%Z /\
  (forall k, always_disconnected k = Raises (ConnectionError "connection reset")) /\
  isinstance (ConnectionError "connection reset") (retryable_exceptions (config h)) = true /\
  isinstance (ConnectionError "connection reset") (non_retryable_exceptions (config h))
    = false /\
  fst run = Propagated (ValueError "sleep length must be non-negative") /\
  calls (snd run) = 1%nat /\
  sleeps (snd run) = 0%nat /\
  ~ (sleeps (snd run) = (3 - 1)%nat /\
     exists last_error, fst run = Raised (RetryExhaustedError 3 last_error)).
Proof.
  repeat split. intros [Hs _]. vm_compute in Hs. discriminate.
Qed.

(** The default policy (three attempts, every [Exception] retryable) and an
    operation that always fails: two sleeps, then [RetryExhaustedError]. *)
Lemma C1_retry_exhausted_witness :
  let run := execute_with_retry (new_handler default_config) always_disconnected
               (fun _ => (1 # 2)%Q) in
  fst run = Raised (RetryExhaustedError 3 (Some (ConnectionError "connection reset"))) /\
  sleeps (snd run) = 2%nat.
Proof.
  destruct (C1_retry_exhausted (new_handler default_config) always_disconnected
              (fun _ => (1 # 2)%Q) 3 (fun _ => ConnectionError "connection reset")
              ltac:(lia) eq_refl ltac:(reflexivity) ltac:(intros; split; reflexivity))
    as [Hok _].
  destruct Hok as (Hres & _ & Hsl & _).
  - intros k Hk. destruct k as [|[|k]]; [eexists; vm_compute; reflexivity ..|lia].
  - split; [exact Hres|exact Hsl].
Defined.

(** *** Delay computation *)

Section Delay.
Local Open Scope Q_scope.
Import FloatRange.

Lemma strategy_delay_formula (cfg : RetryConfig) (a : nat) :
  strategy_delay (new_handler cfg) a = formula_delay cfg a.
Proof.
  unfold strategy_delay, formula_delay, new_handler, table_size; simpl.
  destruct (strategy cfg); try reflexivity.
  rewrite fibonacci_sequence_lookup.
  destruct (a <? _)%nat; reflexivity.
Qed.

(** **** The range of a float *)

Lemma overflows_false (x : Q) : overflows x = false <-> Qabs x < float_bound.
Proof.
  unfold overflows. rewrite <- not_true_iff_false, Qle_bool_iff.
  split; [apply Qnot_le_lt|apply Qlt_not_le].
Qed.

Lemma overflows_true (x : Q) : overflows x = true <-> float_bound <= Qabs x.
Proof. apply Qle_bool_iff. Qed.

Lemma negative_false (x : Q) : negative x = false <-> 0 <= x.
Proof. unfold negative. rewrite negb_false_iff. apply Qle_bool_iff. Qed.

Lemma negative_true (x : Q) : negative x = true <-> x < 0.
Proof.
  unfold negative. rewrite negb_true_iff, <- not_true_iff_false, Qle_bool_iff.
  split; [apply Qnot_le_lt|apply Qlt_not_le].
Qed.

Lemma float_bound_positive : 0 < float_bound.
Proof. reflexivity. Qed.

Lemma in_range_between (x lo hi : Q) :
  overflows lo = false -> overflows hi = false -> lo <= x <= hi -> overflows x = false.
Proof.
  rewrite !overflows_false. intros Hlo Hhi [H1 H2].
  apply Qabs_case; intros Hx.
  - apply Qle_lt_trans with hi; [exact H2|].
    apply Qle_lt_trans with (Qabs hi); [apply Qle_Qabs|exact Hhi].
  - apply Qle_lt_trans with (- lo); [apply Qopp_le_compat; exact H1|].
    apply Qle_lt_trans with (Qabs lo); [|exact Hlo].
    rewrite <- Qabs_opp. apply Qle_Qabs.
Qed.

Lemma zero_in_range : overflows 0 = false.
Proof. reflexivity. Qed.

Lemma rounded_in_range (x : Q) : overflows x = false -> rounded x = Finite x.
Proof. unfold rounded. intros ->. reflexivity. Qed.

Lemma min_finite (x m : Q) : FloatRange.min (Finite x) (Finite m) = Finite (Qmin x m).
Proof.
  unfold FloatRange.min, ltb.
  destruct (Qle_bool x m) eqn:Hle; cbn [negb].
  - apply Qle_bool_iff in Hle. unfold Qmin, GenericMinMax.gmin.
    destruct (x ?= m) eqn:Hc; try reflexivity.
    exfalso. apply (proj1 (Qle_alt x m) Hle). exact Hc.
  - unfold Qmin, GenericMinMax.gmin.
    destruct (x ?= m) eqn:Hc; try reflexivity; exfalso.
    + apply Qeq_alt in Hc. apply not_true_iff_false in Hle. apply Hle.
      apply Qle_bool_iff. rewrite Hc. apply Qle_refl.
    + apply Qlt_alt in Hc. apply not_true_iff_false in Hle. apply Hle.
      apply Qle_bool_iff. apply Qlt_le_weak. exact Hc.
Qed.

(** An infinite strategy delay is clamped as a finite one beyond
    [max_delay] is. *)
Lemma min_rounded (x m : Q) :
  overflows m = false ->
  negative x = false \/ overflows x = false ->
  FloatRange.min (rounded x) (Finite m) = Finite (Qmin x m).
Proof.
  intros Hm Hx. unfold rounded.
  destruct (overflows x) eqn:Ho; [|apply min_finite].
  destruct Hx as [Hx|Hx]; [|discriminate]. rewrite Hx.
  unfold FloatRange.min, ltb. cbn [negb]. f_equal. symmetry.
  apply overflows_true in Ho. apply negative_false in Hx.
  rewrite Qabs_pos in Ho by exact Hx. apply overflows_false in Hm.
  assert (Hmx : m <= x).
  { apply Qlt_le_weak. apply Qle_lt_trans with (Qabs m); [apply Qle_Qabs|].
    apply Qlt_le_trans with float_bound; assumption. }
  unfold Qmin, GenericMinMax.gmin.
  destruct (x ?= m) eqn:Hc; try reflexivity; exfalso.
  - apply Qeq_alt in Hc. rewrite Hc in Ho.
    apply (Qlt_irrefl float_bound). apply Qle_lt_trans with m; [exact Ho|].
    apply Qle_lt_trans with (Qabs m); [apply Qle_Qabs|exact Hm].
  - apply Qlt_alt in Hc. apply (Qlt_irrefl x). apply Qlt_le_trans with m; assumption.
Qed.

(** **** The delay of the strategy *)

Lemma strategy_float_formula (cfg : RetryConfig) (a : nat) :
  overflows (base_delay cfg) = false ->
  (formula_overflows cfg a = true ->
   exists msg, strategy_float (new_handler cfg) a = Raises (OverflowError msg)) /\
  (formula_overflows cfg a = false ->
   strategy_float (new_handler cfg) a = Returns (rounded (formula_delay cfg a))).
Proof.
  intros Hbase.
  unfold strategy_float, formula_overflows, formula_delay, table_size, new_handler.
  cbn [config _fibonacci_sequence].
  destruct (strategy cfg).
  - unfold FloatRange.pow. split; intros Ho; rewrite Ho; simpl.
    + eexists; reflexivity.
    + reflexivity.
  - unfold of_int. split; intros Ho; rewrite Ho; simpl.
    + eexists; reflexivity.
    + reflexivity.
  - split; [discriminate|]. intros _. rewrite rounded_in_range by exact Hbase. reflexivity.
  - rewrite fibonacci_sequence_lookup.
    destruct (a <? Z.to_nat (max_attempts cfg + 5))%nat.
    + unfold of_int. split; intros Ho; rewrite Ho; simpl.
      * eexists; reflexivity.
      * reflexivity.
    + unfold FloatRange.pow. split; intros Ho; rewrite Ho; simpl.
      * eexists; reflexivity.
      * reflexivity.
Qed.

(** C5 (amended). With jitter disabled the delay of attempt [a] does not
    depend on the random draw. When the power of the exponential formula
    or the Fibonacci number does not fit a float, [_calculate_delay]
    raises [OverflowError] and nothing is clamped. Otherwise it returns
    the strategy formula (exponential [base * factor^a], linear
    [base * (a+1)], fixed [base], Fibonacci [base * fib a] inside the
    precomputed table and the exponential formula beyond it) clamped to
    [max_delay], a product beyond the range of a float being clamped
    like any other; for the Fibonacci strategy of a policy with
    [max_attempts >= 1] the delays of attempts 0 and 1 are [base_delay]
    and that of attempt 2 is [2 * base_delay] whenever these do not
    exceed [max_delay]. *)
Theorem C5_delay_without_jitter (cfg : RetryConfig) (a : nat) (r : Q) :
  jitter cfg = false ->
  overflows (base_delay cfg) = false ->
  overflows (max_delay cfg) = false ->
  let delay := float_delay (new_handler cfg) in
  (forall r', delay a r' = delay a r) /\
  (formula_overflows cfg a = true -> exists msg, delay a r = Raises (OverflowError msg)) /\
  (formula_overflows cfg a = false ->
   delay a r = Returns (FloatRange.min (rounded (formula_delay cfg a))
                                       (Finite (max_delay cfg))) /\
   (negative (formula_delay cfg a) = false \/ overflows (formula_delay cfg a) = false ->
    delay a r = Returns (Finite (Qmin (formula_delay cfg a) (max_delay cfg))))) /\
  fib 0 = 1%Z /\ fib 1 = 1%Z /\ fib 2 = 2%Z /\
  (strategy cfg = FIBONACCI_BACKOFF -> (1 <= max_attempts cfg)%Z ->
   (base_delay cfg <= max_delay cfg ->
    exists d0 d1, delay 0%nat r = Returns (Finite d0) /\ d0 == base_delay cfg /\
                  delay 1%nat r = Returns (Finite d1) /\ d1 == base_delay cfg) /\
   (2 * base_delay cfg <= max_delay cfg -> overflows (2 * base_delay cfg) = false ->
    exists d2, delay 2%nat r = Returns (Finite d2) /\ d2 == 2 * base_delay cfg)).
Proof.
  intros Hj Hbase Hmax delay.
  assert (Hd : forall k x, delay k x =
            and_then (strategy_float (new_handler cfg) k)
              (fun s => Returns (FloatRange.min s (Finite (max_delay cfg))))).
  { intros k x. unfold delay, float_delay, clamped_float. cbn [config new_handler].
    rewrite Hj. destruct (strategy_float _ k); reflexivity. }
  assert (Hok : forall k x, formula_overflows cfg k = false ->
            delay k x = Returns (FloatRange.min (rounded (formula_delay cfg k))
                                                (Finite (max_delay cfg)))).
  { intros k x Ho. rewrite Hd.
    destruct (strategy_float_formula cfg k Hbase) as [_ Hs]. rewrite (Hs Ho). reflexivity. }
  split; [intros r'; rewrite !Hd; reflexivity|].
  split.
  { intros Ho. destruct (strategy_float_formula cfg a Hbase) as [Hs _].
    destruct (Hs Ho) as [msg Hmsg]. exists msg. rewrite Hd, Hmsg. reflexivity. }
  split.
  { intros Ho. split; [apply Hok, Ho|].
    intros Hf. rewrite (Hok a r Ho), (min_rounded _ _ Hmax Hf). reflexivity. }
  do 3 (split; [reflexivity|]).
  intros Hs Hn.
  assert (Hf : forall k, (k < 3)%nat ->
            formula_delay cfg k = base_delay cfg * inject_Z (fib k)).
  { intros k Hk. unfold formula_delay, table_size. rewrite Hs.
    destruct (Nat.ltb_spec k (Z.to_nat (max_attempts cfg + 5))); [reflexivity|lia]. }
  assert (Ho : forall k, (k < 3)%nat -> formula_overflows cfg k = false).
  { intros k Hk. unfold formula_overflows, table_size. rewrite Hs.
    destruct (Nat.ltb_spec k (Z.to_nat (max_attempts cfg + 5))); [|lia].
    destruct k as [|[|[|k]]]; [reflexivity..|lia]. }
  assert (Hone : base_delay cfg * inject_Z 1 == base_delay cfg) by ring.
  assert (Htwo : base_delay cfg * inject_Z 2 == 2 * base_delay cfg) by ring.
  split.
  - intros Hle.
    assert (Hr : overflows (base_delay cfg * inject_Z 1) = false).
    { apply overflows_false. rewrite Hone. apply overflows_false, Hbase. }
    exists (Qmin (base_delay cfg * inject_Z 1) (max_delay cfg)),
           (Qmin (base_delay cfg * inject_Z 1) (max_delay cfg)).
    assert (Hm : Qmin (base_delay cfg * inject_Z 1) (max_delay cfg) == base_delay cfg).
    { rewrite Q.min_l; [exact Hone|]. rewrite Hone. exact Hle. }
    repeat split; try exact Hm.
    + rewrite (Hok 0%nat r) by (apply Ho; lia). rewrite (Hf 0%nat) by lia.
      apply f_equal, min_rounded; [exact Hmax|right; exact Hr].
    + rewrite (Hok 1%nat r) by (apply Ho; lia). rewrite (Hf 1%nat) by lia.
      apply f_equal, min_rounded; [exact Hmax|right; exact Hr].
  - intros Hle Hin.
    assert (Hr : overflows (base_delay cfg * inject_Z 2) = false).
    { apply overflows_false. rewrite Htwo. apply overflows_false, Hin. }
    exists (Qmin (base_delay cfg * inject_Z 2) (max_delay cfg)). split.
    + rewrite (Hok 2%nat r) by (apply Ho; lia). rewrite (Hf 2%nat) by lia.
      apply f_equal, min_rounded; [exact Hmax|right; exact Hr].
    + rewrite Q.min_l; [exact Htwo|]. rewrite Htwo. exact Hle.
Qed.

(** The Fibonacci policy with the default bounds meets the hypotheses of C5. *)
Lemma C5_delay_without_jitter_witness :
  exists d2, float_delay (new_handler fibonacci_config) 2 0 = Returns (Finite d2) /\ d2 == 2.
Proof.
  destruct (C5_delay_without_jitter fibonacci_config 2 0 eq_refl eq_refl eq_refl)
    as (_ & _ & _ & _ & _ & _ & Hfib).
  destruct (Hfib eq_refl ltac:(simpl; lia)) as [_ H2].
  apply H2; [vm_compute; discriminate|reflexivity].
Defined.

(** Under the default policy without jitter the power [2.0 ** 1024] of
    attempt 1024 raises [OverflowError]: no delay is returned, where the
    formula clamped to [max_delay] is 60. *)
Lemma C5_counterexample :
  jitter steady_config = false /\
  Qmin (formula_delay steady_config 1024) (max_delay steady_config) == 60 /\
  float_delay (new_handler steady_config) 1024 0 =
    Raises (OverflowError "(34, 'Numerical result out of range')") /\
  ~ (exists d, float_delay (new_handler steady_config) 1024 0 = Returns d).
Proof.
  split; [reflexivity|]. split; [vm_compute; reflexivity|].
  assert (H : float_delay (new_handler steady_config) 1024 0 =
              Raises (OverflowError "(34, 'Numerical result out of range')"))
    by (vm_compute; reflexivity).
  split; [exact H|]. intros [d Hd]. rewrite H in Hd. discriminate.
Qed.

(** **** Jitter *)

Lemma float_delay_jitter (h : RetryHandler) (a : nat) (r : Q) (c : float) :
  jitter (config h) = true ->
  clamped_float h a = Returns c ->
  float_delay h a r =
  Returns (add c (mul (mul c (Finite (jitter_factor (config h)))) (Finite r))).
Proof. intros Hj Hc. unfold float_delay. rewrite Hc, Hj. reflexivity. Qed.

Lemma jitter_bounds (c jf r : Q) :
  0 <= c -> 0 <= jf -> 0 <= r -> r < 1 ->
  0 <= c * jf /\ 0 <= c * jf * r /\ c * jf * r <= c * jf /\
  c <= c + c * jf * r /\ c + c * jf * r <= c + c * jf.
Proof.
  intros Hc Hjf Hr0 Hr1.
  assert (H0 : 0 <= c * jf) by (apply Qmult_le_0_compat; assumption).
  assert (H1 : 0 <= c * jf * r) by (apply Qmult_le_0_compat; assumption).
  assert (H2 : c * jf * r <= c * jf * 1).
  { rewrite !(Qmult_comm (c * jf)). apply Qmult_le_compat_r; [|exact H0].
    apply Qlt_le_weak; exact Hr1. }
  repeat split; lra.
Qed.

(** The jitter lines under a rounding that is monotone. *)
Lemma add_jitter_rounded (rnd : Q -> Q) (c jf r : Q) :
  (forall x y, x <= y -> rnd x <= rnd y) ->
  (forall x, rnd (rnd x) == rnd x) ->
  rnd 0 == 0 -> rnd c == c ->
  0 <= c -> 0 <= jf -> 0 <= r -> r < 1 ->
  c <= add_jitter rnd c jf r /\ add_jitter rnd c jf r <= rnd (c + rnd (c * jf)).
Proof.
  intros Hmono Hidem H0 Hc Hc0 Hjf Hr0 Hr1. unfold add_jitter.
  assert (Hp : 0 <= rnd (c * jf)).
  { rewrite <- H0. apply Hmono. apply Qmult_le_0_compat; assumption. }
  assert (Ht : 0 <= rnd (rnd (c * jf) * r)).
  { rewrite <- H0. apply Hmono. apply Qmult_le_0_compat; assumption. }
  assert (Hle : rnd (rnd (c * jf) * r) <= rnd (c * jf)).
  { rewrite <- (Hidem (c * jf)) at 2. apply Hmono.
    rewrite <- (Qmult_1_r (rnd (c * jf))) at 2.
    rewrite !(Qmult_comm (rnd (c * jf))). apply Qmult_le_compat_r; [|exact Hp].
    apply Qlt_le_weak; exact Hr1. }
  split.
  - rewrite <- Hc at 1. apply Hmono. lra.
  - apply Hmono. lra.
Qed.

(** With [base_delay = 0] and jitter enabled the delay is [0], which the
    empty interval from [computed = 0] to [computed * (1 + jitter_factor) = 0]
    does not contain. On binary64 numbers, [computed = 3.0],
    [jitter_factor = 0.2] and the draw [1 - 2**-52] give a delay above
    [computed * (1 + jitter_factor)]. *)
Lemma C6_counterexample :
  (let h := new_handler immediate_config in
   jitter (config h) = true /\
   clamped_float h 0 = Returns (Finite (0 * 2 ^ 0)) /\
   float_delay h 0 (1 # 2) = Returns (Finite (0 * 2 ^ 0 + 0 * 2 ^ 0 * (1 # 10) * (1 # 2))) /\
   ~ (0 * 2 ^ 0 <= 0 * 2 ^ 0 + 0 * 2 ^ 0 * (1 # 10) * (1 # 2) /\
      0 * 2 ^ 0 + 0 * 2 ^ 0 * (1 # 10) * (1 # 2) < 0 * 2 ^ 0 * (1 + jitter_factor (config h)))) /\
  (PrimFloat.leb Binary64.zero Binary64.high_draw = true /\
   PrimFloat.ltb Binary64.high_draw Binary64.one = true /\
   PrimFloat.ltb (Binary64.upper_bound Binary64.three Binary64.one_fifth)
                 (Binary64.add_jitter Binary64.three Binary64.one_fifth Binary64.high_draw)
   = true).
Proof.
  split.
  - split; [reflexivity|]. split; [reflexivity|]. split; [reflexivity|].
    intros [_ H]. vm_compute in H. discriminate.
  - repeat split.
Qed.

(** C6 (amended). With jitter enabled and a draw [r] in [[0,1)], the delay
    is [computed + computed * jitter_factor * r], [computed] being the
    strategy delay clamped to [max_delay]. When [computed] and
    [jitter_factor] are not negative the jitter term is not negative and
    the delay lies between [computed] and
    [computed + computed * jitter_factor]; both bounds hold up under any
    monotone rounding of the three operations. *)
Theorem C6_delay_with_jitter (h : RetryHandler) (a : nat) (r c : Q) :
  jitter (config h) = true ->
  0 <= r -> r < 1 ->
  clamped_float h a = Returns (Finite c) ->
  let jf := jitter_factor (config h) in
  float_delay h a r = Returns (add (Finite c) (mul (mul (Finite c) (Finite jf)) (Finite r))) /\
  (0 <= c -> 0 <= jf -> overflows (c + c * jf) = false ->
   float_delay h a r = Returns (Finite (c + c * jf * r)) /\
   0 <= c * jf * r /\ c <= c + c * jf * r <= c + c * jf) /\
  (forall rnd : Q -> Q,
     (forall x y, x <= y -> rnd x <= rnd y) ->
     (forall x, rnd (rnd x) == rnd x) ->
     rnd 0 == 0 -> rnd c == c ->
     0 <= c -> 0 <= jf ->
     c <= add_jitter rnd c jf r <= rnd (c + rnd (c * jf))).
Proof.
  intros Hj Hr0 Hr1 Hc jf.
  pose proof (float_delay_jitter h a r (Finite c) Hj Hc) as Hd. fold jf in Hd.
  split; [exact Hd|]. split.
  - intros Hc0 Hjf Hin.
    destruct (jitter_bounds c jf r Hc0 Hjf Hr0 Hr1) as (H0 & H1 & H2 & H3 & H4).
    assert (Hcjf : overflows (c * jf) = false).
    { apply (in_range_between _ 0 (c + c * jf) zero_in_range Hin). split; lra. }
    assert (Hcjfr : overflows (c * jf * r) = false).
    { apply (in_range_between _ 0 (c + c * jf) zero_in_range Hin). split; lra. }
    assert (Hsum : overflows (c + c * jf * r) = false).
    { apply (in_range_between _ 0 (c + c * jf) zero_in_range Hin). split; lra. }
    split; [|repeat split; assumption].
    rewrite Hd. cbn [mul add]. rewrite (rounded_in_range _ Hcjf). cbn [mul].
    rewrite (rounded_in_range _ Hcjfr). cbn [add].
    rewrite (rounded_in_range _ Hsum). reflexivity.
  - intros rnd Hmono Hidem H0 Hfix Hc0 Hjf.
    apply add_jitter_rounded; assumption.
Qed.

(** **** What a back-off sleeps *)

Lemma rounded_finite (x d : Q) : rounded x = Finite d -> d = x /\ overflows x = false.
Proof. unfold rounded. destruct (overflows x); [discriminate|]. intros [= <-]. tauto. Qed.

Lemma mul_finite (a b : float) (d : Q) :
  mul a b = Finite d ->
  exists x y, a = Finite x /\ b = Finite y /\ d = x * y /\ overflows (x * y) = false.
Proof.
  destruct a as [x|s|], b as [y|t|]; cbn [mul]; try discriminate.
  - intros H. apply rounded_finite in H. exists x, y. tauto.
  - destruct (Qeq_bool x 0); discriminate.
  - destruct (Qeq_bool y 0); discriminate.
Qed.

Lemma add_finite (a b : float) (d : Q) :
  add a b = Finite d ->
  exists x y, a = Finite x /\ b = Finite y /\ d = x + y /\ overflows (x + y) = false.
Proof.
  destruct a as [x|s|], b as [y|t|]; cbn [add]; try discriminate.
  - intros H. apply rounded_finite in H. exists x, y. tauto.
  - destruct (Bool.eqb s t); discriminate.
Qed.

Lemma min_finite_le (s : float) (m c : Q) :
  FloatRange.min s (Finite m) = Finite c -> c <= m.
Proof.
  destruct s as [x|neg|].
  - rewrite min_finite. intros [= <-]. apply Q.le_min_r.
  - unfold FloatRange.min, ltb. destruct neg; cbn [negb]; [discriminate|].
    intros [= <-]. apply Qle_refl.
  - discriminate.
Qed.

Lemma clamped_float_le_max (h : RetryHandler) (a : nat) (c : Q) :
  clamped_float h a = Returns (Finite c) -> c <= max_delay (config h).
Proof.
  unfold clamped_float. destruct (strategy_float h a) as [s|e|e]; try discriminate.
  cbn [and_then]. intros [= H]. apply (min_finite_le _ _ _ H).
Qed.

(** A finite delay is the clamped strategy delay, plus the jitter when
    the policy has it. *)
Lemma float_delay_finite (h : RetryHandler) (a : nat) (r d : Q) :
  float_delay h a r = Returns (Finite d) ->
  exists c, clamped_float h a = Returns (Finite c) /\ c <= max_delay (config h) /\
    d = (if jitter (config h) then c + c * jitter_factor (config h) * r else c).
Proof.
  unfold float_delay. destruct (clamped_float h a) as [s|e|e] eqn:Hc; try discriminate.
  cbn [and_then]. destruct (jitter (config h)).
  - intros [= H]. apply add_finite in H. destruct H as (x & y & -> & Hy & -> & _).
    apply mul_finite in Hy. destruct Hy as (u & v & Hu & [= <-] & -> & _).
    apply mul_finite in Hu. destruct Hu as (x' & jf & [= <-] & [= <-] & -> & _).
    exists x. split; [reflexivity|]. split; [|reflexivity].
    apply (clamped_float_le_max h a), Hc.
  - intros [= ->]. exists d. split; [reflexivity|]. split; [|reflexivity].
    apply (clamped_float_le_max h a), Hc.
Qed.

Lemma time_sleep_returns (x : float) (d : Q) :
  time_sleep x = Returns d -> x = Finite d /\ 0 <= d.
Proof.
  unfold time_sleep. destruct x as [x|s|]; try discriminate.
  destruct (negb _); [discriminate|].
  destruct (negative x) eqn:Hn; [discriminate|]. intros [= <-].
  split; [reflexivity|apply negative_false, Hn].
Qed.

Lemma time_sleep_accepts (d : Q) :
  0 <= d -> d * inject_Z (10 ^ 9) <= inject_Z (2 ^ 63) ->
  time_sleep (Finite d) = Returns d.
Proof.
  intros H0 Hd. unfold time_sleep.
  rewrite Qabs_pos by exact H0.
  apply Qle_bool_iff in Hd. rewrite Hd. cbn [negb].
  apply negative_false in H0. rewrite H0. reflexivity.
Qed.

(** A length [time.sleep] accepts is within the range of a float. *)
Lemma sleep_length_in_range (d : Q) :
  0 <= d -> d * inject_Z (10 ^ 9) <= inject_Z (2 ^ 63) -> overflows d = false.
Proof.
  intros H0 Hd. apply overflows_false. rewrite Qabs_pos by exact H0.
  apply Qle_lt_trans with (d * inject_Z (10 ^ 9)).
  - rewrite <- (Qmult_1_r d) at 1. rewrite !(Qmult_comm d).
    apply Qmult_le_compat_r; [discriminate|exact H0].
  - apply Qle_lt_trans with (inject_Z (2 ^ 63)); [exact Hd|reflexivity].
Qed.

(** What [time.sleep] is given when a back-off is carried out. *)
Lemma backoff_returns (h : RetryHandler) (a : nat) (r d : Q) :
  backoff h a r = Returns d ->
  0 <= d /\
  exists c, clamped_float h a = Returns (Finite c) /\ c <= max_delay (config h) /\
    d = (if jitter (config h) then c + c * jitter_factor (config h) * r else c).
Proof.
  unfold backoff. destruct (float_delay h a r) as [x|e|e] eqn:Hx; try discriminate.
  cbn [and_then]. intros Hs. apply time_sleep_returns in Hs. destruct Hs as [-> H0].
  split; [exact H0|]. apply float_delay_finite, Hx.
Qed.

(** A clamped delay that is not negative and whose jitter keeps it a
    length [time.sleep] accepts is slept. *)
Lemma backoff_accepted (h : RetryHandler) (a : nat) (r c : Q) :
  clamped_float h a = Returns (Finite c) ->
  0 <= c -> 0 <= jitter_factor (config h) -> 0 <= r -> r < 1 ->
  (c + c * jitter_factor (config h)) * inject_Z (10 ^ 9) <= inject_Z (2 ^ 63) ->
  exists d, backoff h a r = Returns d /\ c <= d <= c + c * jitter_factor (config h).
Proof.
  intros Hc Hc0 Hjf Hr0 Hr1 Hlen.
  set (jf := jitter_factor (config h)) in *.
  destruct (jitter_bounds c jf r Hc0 Hjf Hr0 Hr1) as (H0 & H1 & H2 & H3 & H4).
  assert (Hin : overflows (c + c * jf) = false).
  { apply sleep_length_in_range; [lra|exact Hlen]. }
  assert (Hle : forall d, 0 <= d -> d <= c + c * jf ->
            d * inject_Z (10 ^ 9) <= inject_Z (2 ^ 63)).
  { intros d Hd0 Hd. apply Qle_trans with ((c + c * jf) * inject_Z (10 ^ 9)); [|exact Hlen].
    apply Qmult_le_compat_r; [exact Hd|discriminate]. }
  unfold backoff, float_delay. rewrite Hc. cbn [and_then]. fold jf.
  destruct (jitter (config h)).
  - assert (Hcjf : overflows (c * jf) = false).
    { apply (in_range_between _ 0 (c + c * jf) zero_in_range Hin). split; lra. }
    assert (Hcjfr : overflows (c * jf * r) = false).
    { apply (in_range_between _ 0 (c + c * jf) zero_in_range Hin). split; lra. }
    assert (Hsum : overflows (c + c * jf * r) = false).
    { apply (in_range_between _ 0 (c + c * jf) zero_in_range Hin). split; lra. }
    cbn [mul]. rewrite (rounded_in_range _ Hcjf). cbn [mul].
    rewrite (rounded_in_range _ Hcjfr). cbn [add]. rewrite (rounded_in_range _ Hsum).
    exists (c + c * jf * r). split; [|split; assumption].
    apply time_sleep_accepts; [lra|]. apply Hle; [lra|exact H4].
  - exists c. split; [|split; lra].
    apply time_sleep_accepts; [exact Hc0|]. apply Hle; [exact Hc0|lra].
Qed.

(** The exponential strategy: the clamped delay when the power fits a
    float and the base delay is not negative. *)
Lemma exponential_clamped (h : RetryHandler) (a : nat) :
  strategy (config h) = EXPONENTIAL_BACKOFF ->
  overflows (exponential_factor (config h) ^ Z.of_nat a) = false ->
  0 <= base_delay (config h) -> 0 <= exponential_factor (config h) ->
  overflows (max_delay (config h)) = false ->
  clamped_float h a =
  Returns (Finite (Qmin (base_delay (config h) * exponential_factor (config h) ^ Z.of_nat a)
                        (max_delay (config h)))).
Proof.
  intros Hs Hp Hb Hf Hm. unfold clamped_float, strategy_float. rewrite Hs.
  unfold FloatRange.pow. rewrite Hp. cbn [and_then mul]. f_equal.
  apply min_rounded; [exact Hm|]. left. apply negative_false.
  apply Qmult_le_0_compat; [exact Hb|]. apply Qpower_pos. exact Hf.
Qed.

Lemma power_of_two_in_range (a : nat) : (a <= 1023)%nat -> overflows (2 ^ Z.of_nat a) = false.
Proof.
  intros Ha. apply overflows_false.
  assert (H0 : 0 <= 2 ^ Z.of_nat a) by (apply Qpower_pos; discriminate).
  rewrite Qabs_pos by exact H0.
  apply Qle_lt_trans with (2 ^ 1023).
  - apply Qpower_le_compat_l; [lia|discriminate].
  - reflexivity.
Qed.

(** **** The sample rounding *)

Lemma to_grid_monotone (x y : Q) : x <= y -> to_grid x <= to_grid y.
Proof.
  intros Hxy. unfold to_grid, Qdiv.
  apply Qmult_le_compat_r; [|discriminate].
  rewrite <- Zle_Qle. apply Qfloor_resp_le. lra.
Qed.

Lemma Qfloor_half (n : Z) : Qfloor (inject_Z n + (1 # 2)) = n.
Proof.
  pose proof (Qfloor_le (inject_Z n + (1 # 2))) as Hlo.
  pose proof (Qlt_floor (inject_Z n + (1 # 2))) as Hhi.
  set (f := Qfloor (inject_Z n + (1 # 2))) in *.
  assert (H1 : inject_Z f < inject_Z (n + 1)).
  { rewrite inject_Z_plus. apply Qle_lt_trans with (inject_Z n + (1 # 2)); [exact Hlo|].
    apply Qplus_lt_r. reflexivity. }
  assert (H2 : inject_Z n < inject_Z (f + 1)).
  { apply Qle_lt_trans with (inject_Z n + (1 # 2)); [|exact Hhi].
    rewrite <- (Qplus_0_r (inject_Z n)) at 1. apply Qplus_le_r. discriminate. }
  rewrite <- Zlt_Qlt in H1, H2. lia.
Qed.

Lemma to_grid_idempotent (x : Q) : to_grid (to_grid x) == to_grid x.
Proof.
  unfold to_grid at 1. set (n := Qfloor (x * 1024 + (1 # 2))).
  assert (He : to_grid x * 1024 + (1 # 2) == inject_Z n + (1 # 2)).
  { unfold to_grid. fold n. field. }
  rewrite He, Qfloor_half. reflexivity.
Qed.

(** The default policy: attempt 1 has [computed = 2], draw [1/2]. *)
Lemma C6_delay_with_jitter_witness :
  let h := new_handler default_config in
  float_delay h 1 (1 # 2) = Returns (Finite (2 + 2 * (1 # 10) * (1 # 2))) /\
  2 <= 2 + 2 * (1 # 10) * (1 # 2) <= 2 + 2 * (1 # 10) /\
  2 <= add_jitter to_grid 2 (1 # 10) (1 # 2) <= to_grid (2 + to_grid (2 * (1 # 10))).
Proof.
  destruct (C6_delay_with_jitter (new_handler default_config) 1 (1 # 2) 2 eq_refl
              ltac:(vm_compute; discriminate) ltac:(reflexivity) eq_refl)
    as (_ & Hexact & Hrounded).
  destruct (Hexact ltac:(vm_compute; discriminate) ltac:(vm_compute; discriminate) eq_refl)
    as (Hd & _ & Hb).
  split; [exact Hd|]. split; [exact Hb|].
  apply (Hrounded to_grid to_grid_monotone to_grid_idempotent);
    try reflexivity; vm_compute; discriminate.
Defined.

End Delay.

End RetryFacts.

(** ** Circuit breaker *)

Module BreakerFacts.
Import Breaker.

Section Runs.
Context {A : Type}.
Implicit Types (cb : CircuitBreaker) (i : call_input A) (ins : list (call_input A)).

Lemma run_snoc cb ins i : run cb (ins ++ [i]) = after (call (run cb ins) i).
Proof. revert cb. induction ins as [|j ins IH]; intros cb; simpl; [reflexivity|apply IH]. Qed.

Lemma consecutive_failures_snoc cb ins i (acc : Z) :
  consecutive_failures cb (ins ++ [i]) acc =
  let r := call (run cb ins) i in
  (if invoked r
   then match result r with
        | Returns _ => 0
        | Raises _ => consecutive_failures cb ins acc + 1
        | Aborts _ => consecutive_failures cb ins acc
        end
   else consecutive_failures cb ins acc)%Z.
Proof.
  revert cb acc. induction ins as [|j ins IH]; intros cb acc; simpl; [reflexivity|].
  rewrite IH. reflexivity.
Qed.

(** What [gate] lets through differs from the breaker in its state only. *)
Lemma gate_inl cb (now : Q) cb1 :
  gate cb now = inl cb1 ->
  failure_threshold cb1 = failure_threshold cb /\
  recovery_timeout cb1 = recovery_timeout cb /\
  failure_count cb1 = failure_count cb /\
  last_failure_time cb1 = last_failure_time cb /\
  (state cb = OPEN /\ state cb1 = HALF_OPEN /\ _is_recovery_timeout_reached cb now = true
   \/ state cb <> OPEN /\ cb1 = cb).
Proof.
  unfold gate. destruct (state cb) eqn:Hs.
  - intros [= <-]. repeat split. right. split; [congruence|reflexivity].
  - destruct (_is_recovery_timeout_reached cb now); [|discriminate].
    intros [= <-]. repeat split. left. repeat split.
  - intros [= <-]. repeat split. right. split; [congruence|reflexivity].
Qed.

Lemma call_failure_count cb i :
  failure_count (after (call cb i)) =
  (if invoked (call cb i)
   then match result (call cb i) with
        | Returns _ => 0
        | Raises _ => failure_count cb + 1
        | Aborts _ => failure_count cb
        end
   else failure_count cb)%Z.
Proof.
  unfold call. destruct (gate cb (t_check i)) as [cb1|e] eqn:Hg; [|reflexivity].
  apply gate_inl in Hg. destruct Hg as (_ & _ & Hc & _).
  destruct (func i); simpl; [reflexivity| |]; rewrite Hc; reflexivity.
Qed.

Lemma between_calls_init (th : Z) (to : Q) : between_calls th to (new_breaker th to).
Proof. split; simpl; try reflexivity; try lia; discriminate. Qed.

Lemma between_calls_call (th : Z) (to : Q) cb i :
  between_calls th to cb -> between_calls th to (after (call cb i)).
Proof.
  intros [Hth Hto Hc0 Hoc Hot]. unfold call.
  destruct (gate cb (t_check i)) as [cb1|e] eqn:Hg; [|split; assumption].
  apply gate_inl in Hg. destruct Hg as (Hth1 & Hto1 & Hc1 & Hl1 & Hst).
  assert (Hno1 : state cb1 <> OPEN).
  { destruct Hst as [(_ & Hh & _)|[Hno ->]]; [rewrite Hh; discriminate|exact Hno]. }
  destruct (func i) as [v|e|e]; cbn [after].
  - split; cbn; try congruence; try lia.
    + destruct (state cb1); try discriminate. congruence.
    + destruct (state cb1); try discriminate. congruence.
  - split; cbn; try congruence; try lia.
    rewrite Hth1, Hth.
    destruct (Z.geb_spec (failure_count cb1 + 1) th) as [Hge|Hlt]; [intros _; lia|].
    intros Ho. congruence.
  - destruct Hst as [(Ho & Hh & _)|[Hno ->]]; [|split; assumption].
    split; congruence.
Qed.

(** Calls whose operations return or raise an [Exception] never leave
    the breaker [HALF_OPEN]. *)
Lemma caught_not_half_open (th : Z) (to : Q) cb i :
  between_calls th to cb ->
  state cb <> HALF_OPEN -> caught i -> state (after (call cb i)) <> HALF_OPEN.
Proof.
  intros [Hth Hto Hc0 Hoc Hot] Hh Hi. unfold call, gate.
  destruct (state cb) eqn:Hs; [| |congruence].
  - destruct (func i) as [v|e|e] eqn:Hf; cbn; rewrite ?Hs.
    + discriminate.
    + destruct (_ >=? _)%Z; discriminate.
    + destruct (Hi e Hf).
  - destruct (_is_recovery_timeout_reached cb (t_check i)); [|cbn; congruence].
    destruct (func i) as [v|e|e] eqn:Hf; cbn.
    + discriminate.
    + rewrite Hth. specialize (Hoc eq_refl).
      destruct (Z.geb_spec (failure_count cb + 1) th); [discriminate|lia].
    + destruct (Hi e Hf).
Qed.

Lemma between_calls_run (th : Z) (to : Q) ins :
  between_calls th to (run (new_breaker th to) ins).
Proof.
  induction ins as [|i ins IH] using rev_ind; [apply between_calls_init|].
  rewrite run_snoc. apply between_calls_call, IH.
Qed.

Lemma caught_run_not_half_open (th : Z) (to : Q) ins :
  Forall caught ins -> state (run (new_breaker th to) ins) <> HALF_OPEN.
Proof.
  induction ins as [|i ins IH] using rev_ind; [discriminate|].
  intros Hall. apply Forall_app in Hall. destruct Hall as [Hins Hi].
  rewrite run_snoc.
  apply (caught_not_half_open th to); [apply between_calls_run|apply IH, Hins|].
  apply Forall_inv in Hi. exact Hi.
Qed.

Lemma failure_count_run (th : Z) (to : Q) ins :
  failure_count (run (new_breaker th to) ins) =
  consecutive_failures (new_breaker th to) ins 0.
Proof.
  induction ins as [|i ins IH] using rev_ind; [reflexivity|].
  rewrite run_snoc, consecutive_failures_snoc, call_failure_count, IH. reflexivity.
Qed.

Lemma timeout_reached_iff cb (now t : Q) :
  last_failure_time cb = Some t ->
  (_is_recovery_timeout_reached cb now = true <-> (recovery_timeout cb <= now - t)%Q) /\
  (_is_recovery_timeout_reached cb now = false <-> (now - t < recovery_timeout cb)%Q).
Proof.
  intros Ht. unfold _is_recovery_timeout_reached. rewrite Ht.
  split; [apply Qle_bool_iff|].
  rewrite <- not_true_iff_false, Qle_bool_iff. split; [apply Qnot_le_lt|apply Qlt_not_le].
Qed.

(** C2. A breaker starts [CLOSED] with a zero count, and its count is the
    number of consecutive failures of the operation. From [CLOSED] a call
    always invokes the operation and leaves the breaker [OPEN] exactly when
    the operation fails and the consecutive failures have reached
    [failure_threshold]. While [OPEN], a call made before
    [recovery_timeout] has elapsed since the last failure raises the
    circuit-open error without invoking the operation and changes nothing;
    a call made once it has elapsed moves to [HALF_OPEN] and invokes the
    operation: success leaves the breaker [CLOSED] with count 0, failure
    records the failure time, increments the count and leaves it [OPEN]. *)
Theorem C2_lifecycle (th : Z) (to : Q) ins i :
  let init := new_breaker th to in
  let cb := run init ins in
  let r := call cb i in
  (state init = CLOSED /\ failure_count init = 0%Z) /\
  failure_count cb = consecutive_failures init ins 0 /\
  (state cb = CLOSED ->
     invoked r = true /\
     (state (after r) = OPEN <->
        (exists e, func i = Raises e) /\
        (th <= consecutive_failures init (ins ++ [i]) 0)%Z)) /\
  (state cb = OPEN ->
     exists t, last_failure_time cb = Some t /\
     ((t_check i - t < to)%Q ->
        result r = Raises circuit_open_error /\ invoked r = false /\ after r = cb) /\
     ((to <= t_check i - t)%Q ->
        gate cb (t_check i) = inl (set_state cb HALF_OPEN) /\
        invoked r = true /\
        (forall v, func i = Returns v ->
           result r = Returns v /\ state (after r) = CLOSED /\
           failure_count (after r) = 0%Z) /\
        (forall e, func i = Raises e ->
           result r = Raises e /\ state (after r) = OPEN /\
           failure_count (after r) = (failure_count cb + 1)%Z /\
           last_failure_time (after r) = Some (t_fail i)))).
Proof.
  intros init cb r.
  pose proof (between_calls_run th to ins) as [Hth Hto Hc0 Hoc Hot].
  fold init cb in Hth, Hto, Hc0, Hoc, Hot.
  split; [split; reflexivity|].
  split; [apply failure_count_run|].
  split.
  - intros Hc.
    assert (Hg : gate cb (t_check i) = inl cb) by (unfold gate; rewrite Hc; reflexivity).
    assert (Hinv : invoked r = true).
    { unfold r, call. rewrite Hg. destruct (func i); reflexivity. }
    split; [exact Hinv|].
    pose proof (failure_count_run th to ins) as Hcf. fold init cb in Hcf.
    rewrite consecutive_failures_snoc. fold init cb r. cbv zeta.
    rewrite Hinv, <- Hcf.
    unfold r, call. rewrite Hg. destruct (func i) as [v|e|e]; cbn.
    + rewrite Hc. split; [discriminate|intros [[e He] _]; discriminate].
    + rewrite Hth, Hc.
      destruct (Z.geb_spec (failure_count cb + 1) th) as [Hge|Hlt].
      * split; [intros _; split; [eexists; reflexivity|lia]|reflexivity].
      * split; [discriminate|intros [_ Hle]; lia].
    + rewrite Hc. split; [discriminate|intros [[e' He] _]; discriminate].
  - intros Ho. destruct (last_failure_time cb) as [t|] eqn:Ht; [|destruct (Hot Ho); reflexivity].
    exists t. split; [reflexivity|].
    destruct (timeout_reached_iff cb (t_check i) t Ht) as [Hyes Hno].
    rewrite Hto in Hyes, Hno. split.
    + intros Hlt. apply Hno in Hlt.
      unfold r, call, gate. rewrite Ho, Hlt. repeat split.
    + intros Hle. apply Hyes in Hle.
      assert (Hg : gate cb (t_check i) = inl (set_state cb HALF_OPEN))
        by (unfold gate; rewrite Ho, Hle; reflexivity).
      split; [exact Hg|].
      unfold r, call. rewrite Hg.
      split; [destruct (func i); reflexivity|].
      split.
      * intros v ->. repeat split.
      * intros e ->. cbn. rewrite Hth.
        destruct (Z.geb_spec (failure_count cb + 1) th) as [Hge|Hlt]; [repeat split|].
        specialize (Hoc Ho). lia.
Qed.

(** C8. After any sequence of calls on a new breaker, state [OPEN] implies
    that a failure time is recorded; the timeout check then compares the
    clock with that time, and its branch for a missing failure time is
    not taken. *)
Theorem C8_open_has_failure_time (th : Z) (to : Q) ins :
  let cb := run (new_breaker th to) ins in
  state cb = OPEN ->
  last_failure_time cb <> None /\
  exists t, last_failure_time cb = Some t /\
    forall now, _is_recovery_timeout_reached cb now = Qle_bool (recovery_timeout cb) (now - t).
Proof.
  intros cb Ho.
  pose proof (between_calls_run th to ins) as [_ _ _ _ Hot].
  specialize (Hot Ho). fold cb in Hot.
  split; [exact Hot|].
  destruct (last_failure_time cb) as [t|] eqn:Ht; [|congruence].
  exists t. split; [reflexivity|].
  intros now. unfold _is_recovery_timeout_reached. rewrite Ht. reflexivity.
Qed.

(** C7 (amended). While the circuit is open and cooling down, [call]
    raises [Exception("Circuit breaker is OPEN")], an instance of the
    plain [Exception] class, without invoking the operation. A call that
    did invoke its operation ends the same way exactly when the operation
    raised an equal [Exception]; any other error of the operation differs
    from the fail-fast error. *)
Theorem C7_fail_fast_error cb i :
  state cb = OPEN ->
  _is_recovery_timeout_reached cb (t_check i) = false ->
  result (call cb i) = Raises (Exception "Circuit breaker is OPEN") /\
  invoked (call cb i) = false /\
  forall cb' i', invoked (call cb' i') = true ->
    (result (call cb' i') = result (call cb i) <->
     func i' = Raises (Exception "Circuit breaker is OPEN")).
Proof.
  intros Ho Hno.
  assert (Hr : call cb i = {| after := cb; result := Raises circuit_open_error;
                              invoked := false |}).
  { unfold call, gate. rewrite Ho, Hno. reflexivity. }
  rewrite Hr. cbn [result invoked]. split; [reflexivity|]. split; [reflexivity|].
  intros cb' i'. unfold call.
  destruct (gate cb' (t_check i')); [|discriminate].
  destruct (func i') as [v|e|e]; cbn; intros _.
  - split; discriminate.
  - split; intros [= ->]; reflexivity.
  - split; discriminate.
Qed.

End Runs.

(** Two failures trip a breaker of threshold 2; the call made 100 seconds
    later is let through and its success closes the circuit. *)
Lemma C2_lifecycle_witness :
  state tripped = OPEN /\
  state (after (call tripped (succeeding_call 100))) = CLOSED /\
  failure_count (after (call tripped (succeeding_call 100))) = 0%Z.
Proof.
  destruct (C2_lifecycle 2 60 [failing_call 0; failing_call 1] (succeeding_call 100))
    as (_ & _ & _ & Hopen).
  split; [reflexivity|].
  destruct (Hopen eq_refl) as (t & Ht & _ & Hafter).
  injection Ht as <-.
  destruct (Hafter ltac:(vm_compute; discriminate)) as (_ & _ & Hok & _).
  destruct (Hok tt eq_refl) as (_ & Hs & Hc).
  split; [exact Hs|exact Hc].
Defined.

Lemma C8_open_has_failure_time_witness : last_failure_time tripped <> None.
Proof.
  destruct (C8_open_has_failure_time 2 60 [failing_call 0; failing_call 1] eq_refl)
    as [H _].
  exact H.
Defined.

(** The fail-fast error of a tripped breaker and the error of an operation
    run by a closed breaker are the same exception. *)
Lemma C7_counterexample :
  state tripped = OPEN /\
  invoked (call tripped (succeeding_call 10)) = false /\
  invoked (call (new_breaker 5 60) (nested_open_call 10)) = true /\
  result (call tripped (succeeding_call 10)) =
  result (call (new_breaker 5 60) (nested_open_call 10)).
Proof. repeat split. Qed.

Lemma C7_fail_fast_error_witness :
  result (call tripped (succeeding_call 10)) = Raises (Exception "Circuit breaker is OPEN").
Proof.
  destruct (C7_fail_fast_error tripped (succeeding_call 10) eq_refl eq_refl) as [H _].
  exact H.
Defined.

End BreakerFacts.

(** ** Text of integers, strings and JSON documents *)

Module PythonFacts.
Import Python.

Section Text.
Context {F : PyFloat}.

Local Arguments append !s1 s2.

(** *** Strings *)

Lemma append_assoc (a b c : string) : (a +:+ b) +:+ c = a +:+ b +:+ c.
Proof. induction a as [|x a IH]; simpl; [reflexivity|rewrite IH; reflexivity]. Qed.

Lemma append_nil_r (a : string) : a +:+ EmptyString = a.
Proof. induction a as [|x a IH]; simpl; [reflexivity|rewrite IH; reflexivity]. Qed.

Lemma length_append (a b : string) :
  String.length (a +:+ b) = (String.length a + String.length b)%nat.
Proof. induction a as [|x a IH]; simpl; [reflexivity|rewrite IH; reflexivity]. Qed.

(** *** Decimal digits *)

Lemma digit_cases (c : ascii) :
  is_digit c = true ->
  In c ["0"; "1"; "2"; "3"; "4"; "5"; "6"; "7"; "8"; "9"]%char.
Proof.
  destruct c as [[] [] [] [] [] [] [] []]; intros H; try discriminate H;
    simpl; tauto.
Qed.

Lemma space_not_digit (c : ascii) : is_digit c = true -> is_space c = false.
Proof.
  intros H. apply digit_cases in H. simpl in H.
  repeat (destruct H as [<-|H]; [reflexivity|]). destruct H.
Qed.

Lemma string_of_uint_digits (d : Decimal.uint) : all_digits (NilEmpty.string_of_uint d).
Proof. induction d; simpl; auto. Qed.

Lemma span_digits_append (s rest : string) :
  all_digits s -> number_end rest = true ->
  span_digits (s +:+ rest) = (s, rest).
Proof.
  intros Hs Hr. induction s as [|c s IH]; simpl.
  - destruct rest as [|c r]; [reflexivity|]. simpl in Hr |- *.
    destruct (is_digit c); [discriminate|reflexivity].
  - destruct Hs as [Hc Hs]. rewrite Hc, (IH Hs). reflexivity.
Qed.

Lemma lstrip_digits (s : string) : all_digits s -> lstrip s = s.
Proof.
  destruct s as [|c s]; [reflexivity|]. intros [Hc _]. simpl.
  rewrite (space_not_digit c Hc). reflexivity.
Qed.

Lemma rstrip_digits (s : string) : all_digits s -> rstrip s = s.
Proof.
  induction s as [|c s IH]; [reflexivity|]. intros [Hc Hs]. simpl.
  rewrite (IH Hs), (space_not_digit c Hc). destruct s; reflexivity.
Qed.

Lemma literal_digits_plain (s : string) (b : bool) :
  all_digits s -> s <> EmptyString \/ b = true ->
  literal_digits s b = Some s.
Proof.
  revert b. induction s as [|c s IH]; intros b Hs Hb; simpl.
  - destruct Hb as [Hb| ->]; [congruence|reflexivity].
  - destruct Hs as [Hc Hs]. rewrite Hc, (IH true Hs) by (right; reflexivity).
    reflexivity.
Qed.

Lemma Z_of_to_uint (p : positive) : Z.of_uint (Pos.to_uint p) = Z.pos p.
Proof. unfold Z.of_uint. rewrite DecimalPos.Unsigned.of_to. reflexivity. Qed.

(** The digits of a positive number: at least one, the first not [0]. *)
Lemma to_uint_head (p : positive) :
  exists c r, NilEmpty.string_of_uint (Pos.to_uint p) = String c r /\
              is_digit c = true /\ c <> "0"%char.
Proof.
  pose proof (DecimalPos.Unsigned.to_of (Pos.to_uint p)) as Hn.
  rewrite DecimalPos.Unsigned.of_to in Hn. simpl in Hn.
  pose proof (DecimalFacts.nzhead_nonzero (Pos.to_uint p)) as Hz.
  pose proof (DecimalPos.Unsigned.to_uint_nonzero p) as Hnz.
  assert (Hh : Decimal.nzhead (Pos.to_uint p) = Pos.to_uint p).
  { unfold Decimal.unorm in Hn. destruct (Decimal.nzhead (Pos.to_uint p)); congruence. }
  rewrite <- Hh.
  destruct (Decimal.nzhead (Pos.to_uint p)) as [|u|u|u|u|u|u|u|u|u|u] eqn:He; simpl.
  - rewrite <- Hh in Hnz. exfalso. 
    pose proof (DecimalPos.Unsigned.to_uint_nonnil p). congruence.
  - destruct (Hz u eq_refl).
  - eexists _, _; repeat split; discriminate.
  - eexists _, _; repeat split; discriminate.
  - eexists _, _; repeat split; discriminate.
  - eexists _, _; repeat split; discriminate.
  - eexists _, _; repeat split; discriminate.
  - eexists _, _; repeat split; discriminate.
  - eexists _, _; repeat split; discriminate.
  - eexists _, _; repeat split; discriminate.
  - eexists _, _; repeat split; discriminate.
Qed.

Lemma digits_value_to_uint (p : positive) :
  digits_value (NilEmpty.string_of_uint (Pos.to_uint p)) = Some (Z.pos p).
Proof. unfold digits_value. rewrite NilEmpty.usu. simpl. rewrite Z_of_to_uint. reflexivity. Qed.

Lemma int_of_digits (s : string) :
  all_digits s -> s <> EmptyString -> int_of_str s = digits_value s.
Proof.
  intros Hs Hne. unfold int_of_str.
  rewrite (lstrip_digits s Hs), (rstrip_digits s Hs).
  pose proof (literal_digits_plain s false Hs (or_introl Hne)) as Hl.
  destruct s as [|c r]; [congruence|]. destruct Hs as [Hc _].
  apply digit_cases in Hc. simpl in Hc.
  repeat (destruct Hc as [<-|Hc]; [cbv beta iota zeta; rewrite Hl; reflexivity|]).
  destruct Hc.
Qed.

Lemma str_int_pos (p : positive) :
  str_int (Z.pos p) = NilEmpty.string_of_uint (Pos.to_uint p).
Proof.
  unfold str_int. simpl. unfold NilZero.string_of_uint.
  pose proof (DecimalPos.Unsigned.to_uint_nonnil p).
  destruct (Pos.to_uint p); congruence.
Qed.

Lemma str_int_neg (p : positive) :
  str_int (Z.neg p) = String "-" (NilEmpty.string_of_uint (Pos.to_uint p)).
Proof. rewrite <- str_int_pos. reflexivity. Qed.

(** [int(str(z)) == z] *)
Lemma int_of_str_int (z : Z) : int_of_str (str_int z) = Some z.
Proof.
  destruct z as [|p|p]; [reflexivity| |].
  - rewrite str_int_pos.
    destruct (to_uint_head p) as (c & r & He & _).
    rewrite int_of_digits; [apply digits_value_to_uint|apply string_of_uint_digits|].
    rewrite He. discriminate.
  - rewrite str_int_neg.
    pose proof (string_of_uint_digits (Pos.to_uint p)) as Hd.
    destruct (to_uint_head p) as (c & r & He & _).
    assert (Hne : NilEmpty.string_of_uint (Pos.to_uint p) <> EmptyString)
      by (rewrite He; discriminate).
    unfold int_of_str. simpl lstrip.
    assert (Hr : rstrip (String "-" (NilEmpty.string_of_uint (Pos.to_uint p))) =
                 String "-" (NilEmpty.string_of_uint (Pos.to_uint p))).
    { simpl. rewrite (rstrip_digits _ Hd). rewrite He. reflexivity. }
    rewrite Hr. cbv beta iota zeta.
    rewrite (literal_digits_plain _ false Hd (or_introl Hne)). simpl.
    rewrite digits_value_to_uint. reflexivity.
Qed.

Lemma number_end_cases (rest : string) :
  number_end rest = true ->
  (span_digits rest = (EmptyString, rest)) /\
  scan_frac rest = (EmptyString, rest) /\
  scan_exp rest = (EmptyString, rest).
Proof.
  destruct rest as [|c r]; [repeat split|]. simpl.
  intros H. apply negb_true_iff in H.
  apply orb_false_iff in H. destruct H as [H HE].
  apply orb_false_iff in H. destruct H as [H He].
  apply orb_false_iff in H. destruct H as [Hd Hdot].
  split; [rewrite Hd; reflexivity|].
  split.
  - unfold scan_frac. apply Ascii.eqb_neq in Hdot.
    destruct c as [[] [] [] [] [] [] [] []]; try reflexivity. congruence.
  - unfold scan_exp. rewrite He, HE. reflexivity.
Qed.

(** The scanner reads the text of an [int] back. *)
Lemma scan_number_int (z : Z) (rest : string) :
  number_end rest = true ->
  scan_number (str_int z +:+ rest) = Some (PInt z, rest).
Proof.
  intros Hr. destruct (number_end_cases rest Hr) as (Hsp & Hfr & Hex).
  assert (Hnat : forall p, scan_natural (NilEmpty.string_of_uint (Pos.to_uint p) +:+ rest) =
            Some (NilEmpty.string_of_uint (Pos.to_uint p), rest) /\
          scan_integer (NilEmpty.string_of_uint (Pos.to_uint p) +:+ rest) =
            Some (NilEmpty.string_of_uint (Pos.to_uint p), rest)).
  { intros p. pose proof (string_of_uint_digits (Pos.to_uint p)) as Hd.
    destruct (to_uint_head p) as (c & r & He & Hc & Hnz).
    rewrite He in Hd |- *. destruct Hd as [_ Hd]. simpl.
    pose proof (span_digits_append r rest Hd Hr) as Hs.
    apply digit_cases in Hc. simpl in Hc.
    destruct Hc as [<-|Hc]; [congruence|].
    repeat (destruct Hc as [<-|Hc];
            [unfold scan_integer, scan_natural; simpl; rewrite Hs; split; reflexivity|]).
    destruct Hc. }
  unfold scan_number.
  destruct z as [|p|p].
  - change (str_int 0 +:+ rest) with (String "0" rest). simpl.
    rewrite Hfr, Hex. reflexivity.
  - rewrite str_int_pos. destruct (Hnat p) as [_ ->].
    rewrite Hfr, Hex, <- str_int_pos, int_of_str_int. reflexivity.
  - rewrite str_int_neg. simpl append. unfold scan_integer.
    destruct (Hnat p) as [-> _]. simpl.
    rewrite Hfr, Hex, <- str_int_neg, int_of_str_int. reflexivity.
Qed.

(** *** Escaped strings *)

Lemma scanstring_escape_char (c : ascii) (tail : string) :
  scanstring (escape_char c +:+ tail) = option_map (prepend c) (scanstring tail).
Proof. destruct c as [[] [] [] [] [] [] [] []]; reflexivity. Qed.

Lemma scanstring_escape (s rest : string) :
  scanstring (escape s +:+ String "034" rest) = Some (s, rest).
Proof.
  induction s as [|c s IH]; [reflexivity|].
  simpl escape. rewrite append_assoc, scanstring_escape_char, IH. reflexivity.
Qed.

Lemma scanstring_encode_str (s rest : string) :
  exists body, encode_str s +:+ rest = String "034" body /\
               scanstring body = Some (s, rest).
Proof.
  exists (escape s +:+ String "034" rest). split; [|apply scanstring_escape].
  unfold encode_str. simpl. rewrite append_assoc. reflexivity.
Qed.

(** *** Heads of values *)

Lemma ws_cases (c : ascii) :
  is_ws c = true -> In c [" "; "009"; "010"; "013"]%char.
Proof.
  destruct c as [[] [] [] [] [] [] [] []]; intros H; try discriminate H; simpl; tauto.
Qed.

Lemma parse_value_head (fuel : nat) (s : string) (vr : pyval * string) :
  parse_value fuel s = Some vr ->
  exists c r, s = String c r /\ is_ws c = false /\ c <> "]"%char.
Proof.
  destruct fuel as [|fuel]; [discriminate|].
  destruct s as [|c r]; [discriminate|]. intros H.
  exists c, r. split; [reflexivity|]. split.
  - destruct (is_ws c) eqn:Hw; [|reflexivity]. exfalso.
    apply ws_cases in Hw. simpl in Hw.
    repeat (destruct Hw as [<-|Hw]; [discriminate H|]). destruct Hw.
  - intros ->. discriminate H.
Qed.

Lemma skip_ws_head (c : ascii) (r : string) :
  is_ws c = false -> skip_ws (String c r) = String c r.
Proof. intros H. simpl. rewrite H. reflexivity. Qed.

Lemma parse_value_skip_ws (fuel : nat) (s : string) (vr : pyval * string) :
  parse_value fuel s = Some vr -> skip_ws s = s.
Proof.
  intros H. destruct (parse_value_head fuel s vr H) as (c & r & -> & Hw & _).
  apply skip_ws_head, Hw.
Qed.

Lemma parse_value_number (fuel : nat) (s : string) (vr : pyval * string) :
  scan_number s = Some vr -> parse_value (S fuel) s = Some vr.
Proof.
  intros H.
  assert (Hc : exists c r, s = String c r /\
             In c ["-"; "0"; "1"; "2"; "3"; "4"; "5"; "6"; "7"; "8"; "9"]%char).
  { unfold scan_number in H. destruct (scan_integer s) as [ir|] eqn:Hi; [|discriminate].
    clear H. destruct s as [|c r]; [discriminate|]. exists c, r. split; [reflexivity|].
    destruct (Ascii.eqb_spec c "-") as [->|Hm]; [left; reflexivity|]. right.
    apply digit_cases.
    assert (Hn : scan_natural (String c r) = Some ir).
    { unfold scan_integer in Hi.
      destruct c as [[] [] [] [] [] [] [] []]; try exact Hi. congruence. }
    unfold scan_natural in Hn. destruct (is_digit c) eqn:Hd; [reflexivity|].
    destruct c as [[] [] [] [] [] [] [] []]; try discriminate Hn; discriminate Hd. }
  destruct Hc as (c & r & -> & Hc). simpl in Hc.
  repeat (destruct Hc as [<-|Hc];
          [cbn -[scan_number]; rewrite H; reflexivity|]).
  destruct Hc.
Qed.

(** *** Induction on values *)

Lemma pyval_induction (P : pyval -> Prop) :
  P PNone -> (forall b, P (PBool b)) -> (forall z, P (PInt z)) ->
  (forall x, P (PFloat x)) -> (forall s, P (PStr s)) ->
  (forall items, Forall P items -> P (PList items)) ->
  (forall items, Forall P items -> P (PTuple items)) ->
  (forall items, Forall (fun kv => P (snd kv)) items -> P (PDict items)) ->
  forall v, P v.
Proof.
  intros HN HB HI HF HS HL HT HD.
  fix IH 1. intros [| | | | |items|items|items];
    [exact HN|apply HB|apply HI|apply HF|apply HS| | |].
  - apply HL. induction items as [|v items IHitems]; constructor; [apply IH|exact IHitems].
  - apply HT. induction items as [|v items IHitems]; constructor; [apply IH|exact IHitems].
  - apply HD. induction items as [|kv items IHitems]; constructor; [apply IH|exact IHitems].
Qed.

Lemma join_chunks_cons (c c2 : option string) (chunks : list (option string)) (body : string) :
  join_chunks (c :: c2 :: chunks) = Some body ->
  exists t u, c = Some t /\ join_chunks (c2 :: chunks) = Some u /\ body = t +:+ ", " +:+ u.
Proof.
  change (join_chunks (c :: c2 :: chunks))
    with (match c, join_chunks (c2 :: chunks) with
          | Some t, Some u => Some (t +:+ ", " +:+ u)
          | _, _ => None
          end).
  destruct c as [t|]; [|discriminate].
  destruct (join_chunks (c2 :: chunks)) as [u|]; [|discriminate].
  intros [= <-]. exists t, u. repeat split.
Qed.

(** *** Reading back what [json.dumps] wrote *)

Lemma parse_elements_skip_ws (fuel : nat) (s : string) (vr : list pyval * string) :
  parse_elements fuel s = Some vr -> skip_ws s = s.
Proof.
  destruct fuel as [|fuel]; [discriminate|]. simpl.
  destruct (parse_value fuel s) as [vr'|] eqn:H; [|discriminate].
  intros _. apply (parse_value_skip_ws _ _ _ H).
Qed.

Lemma parse_elements_dumps (items : list pyval) :
  Forall reads_back items -> items <> [] ->
  fold_right (fun x acc => floats_ok x /\ acc) True items ->
  forall body rest fuel,
    join_chunks (map json_dumps items) = Some body ->
    number_end rest = true -> (efuel items <= fuel)%nat ->
    parse_elements fuel (body +:+ String "]" rest) = Some (map json_norm items, rest).
Proof.
  induction 1 as [|v items Hv Hitems IH]; [congruence|].
  intros _ [Hfv Hfs] body rest fuel Hbody Hrest Hfuel.
  destruct fuel as [|fuel]; [simpl in Hfuel; lia|].
  simpl in Hfuel. fold (efuel items) in Hfuel.
  destruct items as [|v2 items].
  - simpl in Hbody. cbn [parse_elements].
    rewrite (Hv Hfv body (String "]" rest) fuel Hbody eq_refl ltac:(lia)).
    reflexivity.
  - apply join_chunks_cons in Hbody. destruct Hbody as (t & u & Ht & Hu & ->).
    pose proof (IH ltac:(discriminate) Hfs u rest fuel Hu Hrest ltac:(lia)) as Hrec.
    set (tail := u +:+ String "]" rest) in *.
    replace ((t +:+ ", " +:+ u) +:+ String "]" rest)
      with (t +:+ String "," (String " " tail))
      by (unfold tail; rewrite !append_assoc; reflexivity).
    cbn [parse_elements].
    rewrite (Hv Hfv t (String "," (String " " tail)) fuel Ht eq_refl ltac:(lia)).
    pose proof (parse_elements_skip_ws _ _ _ Hrec) as Hskip.
    cbn [skip_ws is_ws]. rewrite Hskip, Hrec. reflexivity.
Qed.

Lemma parse_members_dumps (items : list (pyval * pyval)) :
  Forall (fun kv => reads_back (snd kv)) items -> items <> [] ->
  fold_right (fun kv acc => floats_ok (snd kv) /\ acc) True items ->
  forall body rest fuel,
    join_chunks (map member_chunk items) = Some body ->
    number_end rest = true -> (mfuel items <= fuel)%nat ->
    exists body0,
      body +:+ String "}" rest = String "034" body0 /\
      parse_members fuel body0 = Some (map norm_pair items, rest).
Proof.
  induction 1 as [|[k v] items Hv Hitems IH]; [congruence|].
  intros _ [Hfv Hfs] body rest fuel Hbody Hrest Hfuel.
  destruct fuel as [|fuel]; [simpl in Hfuel; lia|].
  simpl in Hfuel. fold (mfuel items) in Hfuel. simpl in Hv, Hfv.
  assert (Hchunk : forall c, member_chunk (k, v) = Some c ->
            exists ks tv, encode_key k = Some ks /\ json_dumps v = Some tv /\
                          c = encode_str ks +:+ ": " +:+ tv).
  { unfold member_chunk. simpl. intros c.
    destruct (encode_key k) as [ks|]; [|discriminate].
    destruct (json_dumps v) as [tv|]; [|discriminate].
    intros [= <-]. exists ks, tv. repeat split. }
  assert (Hstep : forall ks tv tail out,
            encode_key k = Some ks -> json_dumps v = Some tv ->
            number_end tail = true ->
            (forall key val,
               match skip_ws tail with
               | String "}" r' => Some ([(key, val)], r')
               | String "," r3 =>
                   match skip_ws r3 with
                   | String "034" r4 =>
                       option_map (fun pr => ((key, val) :: fst pr, snd pr))
                         (parse_members fuel r4)
                   | _ => None
                   end
               | _ => None
               end = out key val) ->
            exists body0,
              (encode_str ks +:+ ": " +:+ tv) +:+ tail = String "034" body0 /\
              parse_members (S fuel) body0 = out ks (json_norm v)).
  { intros ks tv tail out Hk Ht Htail Hout.
    destruct (scanstring_encode_str ks (String ":" (String " " (tv +:+ tail))))
      as (body0 & Hb0 & Hscan).
    exists body0. split; [rewrite <- Hb0, !append_assoc; reflexivity|].
    pose proof (Hv Hfv tv tail fuel Ht Htail ltac:(lia)) as Hval.
    cbn [parse_members]. rewrite Hscan. cbn [skip_ws is_ws].
    rewrite (parse_value_skip_ws _ _ _ Hval), Hval.
    apply Hout. }
  destruct items as [|kv2 items].
  - simpl in Hbody. destruct (Hchunk body Hbody) as (ks & tv & Hk & Ht & ->).
    destruct (Hstep ks tv (String "}" rest) (fun key val => Some ([(key, val)], rest))
                Hk Ht eq_refl ltac:(reflexivity)) as (body0 & Hb0 & Hp).
    exists body0. split; [exact Hb0|]. rewrite Hp. unfold norm_pair.
    cbn [map fst snd]. rewrite Hk. reflexivity.
  - apply join_chunks_cons in Hbody. destruct Hbody as (c & u & Hc & Hu & ->).
    destruct (Hchunk c Hc) as (ks & tv & Hk & Ht & ->).
    destruct (IH ltac:(discriminate) Hfs u rest fuel Hu Hrest ltac:(lia))
      as (body1 & Hb1 & Hrec).
    destruct (Hstep ks tv (String "," (String " " (String "034" body1)))
                (fun key val => Some ((key, val) :: map norm_pair (kv2 :: items), rest))
                Hk Ht eq_refl) as (body0 & Hb0 & Hp).
    { intros key val. cbn [skip_ws is_ws]. rewrite Hrec. reflexivity. }
    exists body0. split.
    + rewrite <- Hb0, <- Hb1, !append_assoc. reflexivity.
    + rewrite Hp. rewrite (map_cons norm_pair (k, v)).
      change (norm_pair (k, v)) with (default EmptyString (encode_key k), json_norm v).
      rewrite Hk. reflexivity.
Qed.

Lemma option_map_Some {B C : Type} (f : B -> C) (o : option B) (c : C) :
  option_map f o = Some c -> exists b, o = Some b /\ c = f b.
Proof. destruct o as [b|]; [|discriminate]. intros [= <-]. exists b. split; reflexivity. Qed.

Lemma parse_value_array (fuel : nat) (r : string) :
  parse_value (S fuel) (String "[" r) =
  match skip_ws r with
  | String "]" r' => Some (PList [], r')
  | r' => option_map (fun vr => (PList (fst vr), snd vr)) (parse_elements fuel r')
  end.
Proof. reflexivity. Qed.

Lemma parse_value_array_items (fuel : nat) (c : ascii) (r : string) :
  is_ws c = false -> c <> "]"%char ->
  parse_value (S fuel) (String "[" (String c r)) =
  option_map (fun vr => (PList (fst vr), snd vr)) (parse_elements fuel (String c r)).
Proof.
  intros Hw Hc. rewrite parse_value_array, skip_ws_head by exact Hw.
  destruct c as [[] [] [] [] [] [] [] []]; try reflexivity. congruence.
Qed.

Lemma parse_value_object (fuel : nat) (r : string) :
  parse_value (S fuel) (String "{" (String "034" r)) =
  option_map (fun pr => (dict_of_pairs (fst pr), snd pr)) (parse_members fuel r).
Proof. reflexivity. Qed.

(** Every value whose floats are read back is read back as a whole. *)
Lemma all_read_back (v : pyval) : reads_back v.
Proof.
  induction v as [|b|z|x|s|items IH|items IH|items IH] using pyval_induction;
    intros Hf t rest fuel Ht Hrest Hfuel;
    (destruct fuel as [|fuel]; [simpl in Hfuel; lia|]).
  - injection Ht as <-. reflexivity.
  - destruct b; injection Ht as <-; reflexivity.
  - injection Ht as <-. apply parse_value_number, scan_number_int, Hrest.
  - injection Ht as <-. apply parse_value_number, Hf, Hrest.
  - injection Ht as <-.
    destruct (scanstring_encode_str s rest) as (body & -> & Hscan).
    cbn [parse_value]. rewrite Hscan. reflexivity.
  - simpl in Ht, Hf, Hfuel. fold (efuel items) in Hfuel.
    apply option_map_Some in Ht. destruct Ht as (body & Hbody & ->).
    destruct items as [|v items]; [injection Hbody as <-; reflexivity|].
    pose proof (parse_elements_dumps (v :: items) IH ltac:(discriminate) Hf
                  body rest fuel Hbody Hrest ltac:(lia)) as Hp.
    assert (Hhead : exists c r, body +:+ String "]" rest = String c r /\
                                is_ws c = false /\ c <> "]"%char).
    { destruct fuel as [|fuel']; [discriminate|]. simpl in Hp.
      destruct (parse_value fuel' (body +:+ String "]" rest)) as [vr|] eqn:Hv;
        [|discriminate].
      apply (parse_value_head _ _ _ Hv). }
    destruct Hhead as (c & r & Hcr & Hw & Hc).
    replace (String "[" (body +:+ "]") +:+ rest) with (String "[" (String c r))
      by (rewrite <- Hcr; simpl; rewrite append_assoc; reflexivity).
    rewrite Hcr in Hp.
    rewrite (parse_value_array_items fuel c r Hw Hc), Hp. reflexivity.
  - simpl in Ht, Hf, Hfuel. fold (efuel items) in Hfuel.
    apply option_map_Some in Ht. destruct Ht as (body & Hbody & ->).
    destruct items as [|v items]; [injection Hbody as <-; reflexivity|].
    pose proof (parse_elements_dumps (v :: items) IH ltac:(discriminate) Hf
                  body rest fuel Hbody Hrest ltac:(lia)) as Hp.
    assert (Hhead : exists c r, body +:+ String "]" rest = String c r /\
                                is_ws c = false /\ c <> "]"%char).
    { destruct fuel as [|fuel']; [discriminate|]. simpl in Hp.
      destruct (parse_value fuel' (body +:+ String "]" rest)) as [vr|] eqn:Hv;
        [|discriminate].
      apply (parse_value_head _ _ _ Hv). }
    destruct Hhead as (c & r & Hcr & Hw & Hc).
    replace (String "[" (body +:+ "]") +:+ rest) with (String "[" (String c r))
      by (rewrite <- Hcr; simpl; rewrite append_assoc; reflexivity).
    rewrite Hcr in Hp.
    rewrite (parse_value_array_items fuel c r Hw Hc), Hp. reflexivity.
  - simpl in Ht, Hf, Hfuel. fold (mfuel items) in Hfuel.
    apply option_map_Some in Ht. destruct Ht as (body & Hbody & ->).
    destruct items as [|kv items]; [injection Hbody as <-; reflexivity|].
    destruct (parse_members_dumps (kv :: items) IH ltac:(discriminate) Hf
                body rest fuel Hbody Hrest ltac:(lia)) as (body0 & Hb0 & Hp).
    replace (String "{" (body +:+ "}") +:+ rest) with (String "{" (String "034" body0))
      by (rewrite <- Hb0; simpl; rewrite append_assoc; reflexivity).
    rewrite parse_value_object, Hp. reflexivity.
Qed.

(** *** Enough fuel *)

Lemma join_length {B : Type} (items : list B) (chunk : B -> option string) (cost : B -> nat) :
  Forall (fun x => forall t, chunk x = Some t -> (cost x <= S (String.length t))%nat) items ->
  forall body, join_chunks (map chunk items) = Some body ->
  (fold_right (fun x acc => S (cost x + acc)) 0 items <= String.length body + 2)%nat.
Proof.
  induction 1 as [|x items Hx Hitems IH]; intros body Hbody; [simpl; lia|].
  destruct items as [|x2 items].
  - simpl in Hbody |- *. specialize (Hx body Hbody). lia.
  - apply join_chunks_cons in Hbody. destruct Hbody as (t & u & Ht & Hu & ->).
    specialize (Hx t Ht). specialize (IH u Hu).
    rewrite !length_append. cbn [fold_right] in IH |- *. simpl String.length. lia.
Qed.

Lemma dumps_fuel (v : pyval) (t : string) :
  json_dumps v = Some t -> (vfuel v <= S (String.length t))%nat.
Proof.
  revert t.
  induction v as [|b|z|x|s|items IH|items IH|items IH] using pyval_induction;
    intros t Ht; try (simpl; lia).
  - simpl in Ht. apply option_map_Some in Ht. destruct Ht as (body & Hbody & ->).
    pose proof (join_length items json_dumps vfuel IH body Hbody) as Hl.
    simpl. rewrite length_append. simpl. lia.
  - simpl in Ht. apply option_map_Some in Ht. destruct Ht as (body & Hbody & ->).
    pose proof (join_length items json_dumps vfuel IH body Hbody) as Hl.
    simpl. rewrite length_append. simpl. lia.
  - simpl in Ht. apply option_map_Some in Ht. destruct Ht as (body & Hbody & ->).
    assert (Hm : Forall (fun kv => forall t, member_chunk kv = Some t ->
                    (vfuel (snd kv) <= S (String.length t))%nat) items).
    { eapply Forall_impl; [exact IH|]. intros [k v] Hv c. unfold member_chunk. simpl.
      destruct (encode_key k) as [ks|]; [|discriminate].
      destruct (json_dumps v) as [tv|] eqn:Htv; [|discriminate].
      intros [= <-]. specialize (Hv tv Htv). simpl in Hv.
      repeat (rewrite length_append || simpl String.length). lia. }
    pose proof (join_length items member_chunk (fun kv => vfuel (snd kv)) Hm body Hbody) as Hl.
    simpl. rewrite length_append. simpl. lia.
Qed.

(** [json.loads(json.dumps(v))] is the normalised [v], for every [v] that
    [json.dumps] accepts and whose floats are read back. *)
Theorem json_roundtrip (v : pyval) (t : string) :
  floats_ok v -> json_dumps v = Some t -> json_loads t = Some (json_norm v).
Proof.
  intros Hf Ht.
  pose proof (all_read_back v Hf t EmptyString (S (String.length t)) Ht eq_refl
                (dumps_fuel v t Ht)) as Hp.
  rewrite append_nil_r in Hp.
  unfold json_loads. rewrite (parse_value_skip_ws _ _ _ Hp), Hp. reflexivity.
Qed.

(** *** JSON-native values *)

Lemma pairs_set_fresh (d : list (string * pyval)) (k : string) (v : pyval) :
  ~ In k (map fst d) -> pairs_set d k v = d ++ [(k, v)].
Proof.
  induction d as [|[k' v'] d IH]; intros Hk; [reflexivity|]. simpl in Hk |- *.
  destruct (String.eqb_spec k' k) as [->|Hne]; [tauto|].
  rewrite IH by tauto. reflexivity.
Qed.

Lemma fold_pairs_set_distinct (pairs acc : list (string * pyval)) :
  List.NoDup (map fst (acc ++ pairs)) ->
  fold_left (fun d kv => pairs_set d (fst kv) (snd kv)) pairs acc = acc ++ pairs.
Proof.
  revert acc. induction pairs as [|[k v] pairs IH]; intros acc Hnd; simpl.
  - rewrite app_nil_r. reflexivity.
  - rewrite pairs_set_fresh.
    + rewrite IH; rewrite <- app_assoc; [reflexivity|exact Hnd].
    + rewrite map_app in Hnd. simpl in Hnd.
      apply List.NoDup_remove_2 in Hnd. intros Hin. apply Hnd.
      apply in_or_app. left. exact Hin.
Qed.

Lemma dict_of_distinct_pairs (pairs : list (string * pyval)) :
  List.NoDup (map fst pairs) ->
  dict_of_pairs pairs = PDict (map (fun kv => (PStr (fst kv), snd kv)) pairs).
Proof.
  intros Hnd. unfold dict_of_pairs. rewrite (fold_pairs_set_distinct pairs []); [reflexivity|].
  exact Hnd.
Qed.

Lemma native_floats_ok (v : pyval) : json_native v -> floats_ok v.
Proof.
  induction v as [|b|z|x|s|items IH|items IH|items IH] using pyval_induction;
    simpl; try tauto.
  - induction IH as [|v items Hv _ IHitems]; simpl; [tauto|].
    intros [Hn Hns]. split; [apply Hv, Hn|apply IHitems, Hns].
  - intros [_ Hn]. induction IH as [|kv items Hv _ IHitems]; simpl; [tauto|].
    destruct Hn as (_ & Hn & Hns). split; [apply Hv, Hn|apply IHitems, Hns].
Qed.

Lemma native_norm (v : pyval) : json_native v -> json_norm v = v.
Proof.
  induction v as [|b|z|x|s|items IH|items IH|items IH] using pyval_induction;
    simpl; try tauto; try reflexivity.
  - intros Hn. f_equal.
    induction IH as [|v items Hv _ IHitems]; simpl; [reflexivity|].
    destruct Hn as [Hn Hns]. rewrite (Hv Hn), (IHitems Hns). reflexivity.
  - intros [Hnd Hn].
    assert (Hmap : map (fun kv => (default EmptyString (encode_key (fst kv)),
                                   json_norm (snd kv))) items =
                   map (fun kv => (default EmptyString (encode_key (fst kv)), snd kv)) items /\
                   map (fun kv => PStr (default EmptyString (encode_key (fst kv)))) items =
                   map fst items).
    { clear Hnd. induction IH as [|[k v] items Hv _ IHitems]; simpl; [split; reflexivity|].
      destruct Hn as ((s & Hs) & Hn & Hns). simpl in Hs, Hv. subst k.
      destruct (IHitems Hns) as [-> ->]. rewrite (Hv Hn). split; reflexivity. }
    destruct Hmap as [Hvals Hkeys]. rewrite Hvals.
    rewrite dict_of_distinct_pairs.
    + f_equal. rewrite map_map. simpl.
      clear - Hkeys. induction items as [|[k v] items IHitems]; [reflexivity|].
      simpl in Hkeys |- *. injection Hkeys as Hk Hkeys.
      rewrite Hk, (IHitems Hkeys). reflexivity.
    + rewrite map_map. simpl.
      rewrite <- Hkeys in Hnd. rewrite <- (map_map _ PStr) in Hnd.
      apply NoDup_ListNoDup in Hnd.
      apply List.NoDup_map_inv in Hnd. exact Hnd.
Qed.

Lemma join_chunks_total {B : Type} (chunk : B -> option string) (items : list B) :
  Forall (fun x => exists t, chunk x = Some t) items ->
  exists body, join_chunks (map chunk items) = Some body.
Proof.
  induction 1 as [|x items (t & Ht) _ (body & IH)]; [exists EmptyString; reflexivity|].
  destruct items as [|x2 items]; [exists t; exact Ht|].
  exists (t +:+ ", " +:+ body).
  change (join_chunks (map chunk (x :: x2 :: items)))
    with (match chunk x, join_chunks (map chunk (x2 :: items)) with
          | Some t, Some u => Some (t +:+ ", " +:+ u)
          | _, _ => None
          end).
  rewrite Ht, IH. reflexivity.
Qed.

Lemma json_dumps_list (items : list pyval) :
  json_dumps (PList items) =
  option_map (fun body => "[" +:+ body +:+ "]") (join_chunks (map json_dumps items)).
Proof. reflexivity. Qed.

Lemma json_dumps_dict (items : list (pyval * pyval)) :
  json_dumps (PDict items) =
  option_map (fun body => "{" +:+ body +:+ "}") (join_chunks (map member_chunk items)).
Proof. reflexivity. Qed.

Lemma native_dumps (v : pyval) : json_native v -> exists t, json_dumps v = Some t.
Proof.
  induction v as [|b|z|x|s|items IH|items IH|items IH] using pyval_induction; intros Hn.
  - eexists; reflexivity.
  - destruct b; eexists; reflexivity.
  - eexists; reflexivity.
  - eexists; reflexivity.
  - eexists; reflexivity.
  - rewrite json_dumps_list.
    destruct (join_chunks_total json_dumps items) as (body & ->); [|eexists; reflexivity].
    simpl in Hn. induction IH as [|v items Hv _ IHitems]; constructor.
    + apply Hv, Hn.
    + apply IHitems, Hn.
  - destruct Hn.
  - rewrite json_dumps_dict. destruct Hn as [_ Hn].
    destruct (join_chunks_total member_chunk items) as (body & ->); [|eexists; reflexivity].
    induction IH as [|[k v] items Hv _ IHitems]; constructor.
    + destruct Hn as ((s & Hs) & Hn & _). simpl in Hs, Hv. subst k.
      destruct (Hv Hn) as (t & Ht). unfold member_chunk. simpl. rewrite Ht.
      eexists; reflexivity.
    + apply IHitems, Hn.
Qed.

(** A JSON-native value comes back from JSON as it went in. *)
Lemma json_roundtrip_native (v : pyval) :
  json_native v -> exists t, json_dumps v = Some t /\ json_loads t = Some v.
Proof.
  intros Hn. destruct (native_dumps v Hn) as (t & Ht). exists t. split; [exact Ht|].
  rewrite (json_roundtrip v t (native_floats_ok v Hn) Ht), (native_norm v Hn).
  reflexivity.
Qed.

End Text.
End PythonFacts.

(** ** State store *)

Module StateFacts.
Import Python StateManager PythonFacts.

Section Store.
Context {F : PyFloat}.

Lemma load_after_replace (db : database) (now : Z) (key value data_type : string)
    (default : pyval) :
  load_state (replace_state db now key value data_type) key default =
  deserialize value data_type default.
Proof.
  unfold load_state, replace_state. cbn [application_state].
  rewrite lookup_insert_eq. reflexivity.
Qed.

Lemma save_scalar (db : database) (now : Z) (key : string) (v : pyval) :
  match v with PList _ | PTuple _ | PDict _ => False | _ => True end ->
  save_state db now key v = Some (replace_state db now key (str_scalar v) (type_name v)).
Proof. destruct v; intros H; try destruct H; reflexivity. Qed.

Lemma save_container (db : database) (now : Z) (key : string) (v : pyval) (t : string) :
  match v with PList _ | PTuple _ | PDict _ => True | _ => False end ->
  json_dumps v = Some t ->
  save_state db now key v = Some (replace_state db now key t "json").
Proof.
  destruct v; intros H Ht; try destruct H; unfold save_state; rewrite Ht; reflexivity.
Qed.




(** C9. Saving a search with [results=[]] writes the same row as saving
    it without results: the [results] column is [NULL], and
    [load_job_search_state] returns a record whose [results] is [None],
    not the empty list. *)
Theorem C9_empty_results_are_null (db : database) (now : Z) (search_id query : string)
    (status : string) (error_count : Z) (last_error : option string) :
  save_job_search_state db now search_id query (Some []) status error_count last_error =
  save_job_search_state db now search_id query None status error_count last_error /\
  exists db' row state,
    save_job_search_state db now search_id query (Some []) status error_count last_error
      = Some db' /\
    job_search_state db' !! search_id = Some row /\
    results row = None /\
    load_job_search_state db' search_id = Some state /\
    st_results state = PNone /\
    st_results state <> PList [].
Proof.
  split; [reflexivity|].
  eexists _, _, _. split; [reflexivity|].
  split; [cbn [replace_search job_search_state]; apply lookup_insert_eq|].
  split; [reflexivity|].
  split.
  - unfold load_job_search_state. cbn [replace_search job_search_state].
    rewrite lookup_insert_eq. reflexivity.
  - split; [reflexivity|discriminate].
Qed.

End Store.

(** *** Examples with the sample float type *)

#[local] Existing Instance integral_floats.

Lemma integral_two_scans_back : @float_scans_back integral_floats 2%Z.
Proof.
  intros rest Hr. destruct (number_end_cases rest Hr) as (Hsp & _ & Hex).
  unfold scan_number. cbn [floatstr integral_floats].
  replace ((str_int 2 +:+ ".0") +:+ rest) with (String "2" (String "." (String "0" rest)))
    by reflexivity.
  simpl. rewrite Hsp. simpl. rewrite Hex. reflexivity.
Qed.

Lemma settings_native : json_native settings.
Proof.
  split.
  - repeat constructor; simpl; rewrite ?elem_of_cons, ?elem_of_nil; intuition discriminate.
  - simpl. repeat split; try (eexists; reflexivity). apply integral_two_scans_back.
Qed.





End StateFacts.

(** ** Retry handler: further properties *)

Module RetryExtra.
Import RetryLogic RetryFacts RetryDecorators.

(** X1. [_generate_fibonacci_sequence n] has [n] terms ([0] when [n] is
    negative); they start [1, 1] and each later term is the sum of the
    two before it. *)
Theorem fibonacci_sequence_terms (n : Z) :
  length (_generate_fibonacci_sequence n) = Z.to_nat n /\
  (forall k, (k < Z.to_nat n)%nat -> _generate_fibonacci_sequence n !! k = Some (fib k)) /\
  fib 0 = 1%Z /\ fib 1 = 1%Z /\
  (forall k, fib (S (S k)) = (fib (S k) + fib k)%Z).
Proof.
  split; [apply fibonacci_sequence_length|].
  split; [|repeat split].
  intros k Hk. rewrite fibonacci_sequence_lookup.
  destruct (Nat.ltb_spec k (Z.to_nat n)); [reflexivity|lia].
Qed.

Lemma fibonacci_sequence_terms_witness :
  _generate_fibonacci_sequence 8 !! 6%nat = Some 13%Z.
Proof.
  destruct (fibonacci_sequence_terms 8) as (_ & Hk & _).
  apply (Hk 6%nat). simpl. lia.
Defined.

Section Runs.
Context {A : Type}.
Variable h : RetryHandler.
Variable func : nat -> outcome A.
Variable rand : nat -> Q.

(** X2. When the attempts before attempt [a] fail, are retried and
    backed off (each delay is computed and [time.sleep] accepts it) and
    attempt [a] returns, [execute_with_retry] returns that value after
    [a + 1] calls and [a] sleeps, the call being the last effect. *)
Theorem first_success_returns (a : nat) (v : A) :
  (Z.of_nat a < max_attempts (config h))%Z ->
  (forall k, (k < a)%nat -> retried h func k) ->
  (forall k, (k < a)%nat -> exists slept, backoff h k (rand k) = Returns slept) ->
  func a = Returns v ->
  let run := execute_with_retry h func rand in
  fst run = Returned v /\
  calls (snd run) = S a /\ sleeps (snd run) = a /\ last (snd run) = Some (EvCall a).
Proof.
  intros Ha Hpre Hback Hf run.
  destruct (run_reaches h func rand a Ha Hpre Hback) as (pre & last' & Hrun & Hc & Hs & _).
  assert (Hr : run = emit pre (Returned v, [EvCall a])).
  { unfold run. rewrite Hrun. f_equal. cbn [retry_loop]. rewrite Hf. reflexivity. }
  rewrite Hr. split; [reflexivity|].
  rewrite last_emit_call. unfold emit. cbn [snd].
  rewrite calls_app, sleeps_app, Hc, Hs. unfold calls, sleeps. simpl.
  repeat split; lia.
Qed.

(** X3. When the attempts before attempt [a] fail, are retried and
    backed off, an error of attempt [a] that matches neither
    [non_retryable_exceptions] nor [retryable_exceptions] ends the run at
    once with [RetryExhaustedError] carrying the attempts made so far,
    which may be fewer than [max_attempts]. *)
Theorem unlisted_error_ends_run (a : nat) (e : exc) :
  (Z.of_nat a < max_attempts (config h))%Z ->
  (forall k, (k < a)%nat -> retried h func k) ->
  (forall k, (k < a)%nat -> exists slept, backoff h k (rand k) = Returns slept) ->
  func a = Raises e ->
  isinstance e (non_retryable_exceptions (config h)) = false ->
  isinstance e (retryable_exceptions (config h)) = false ->
  let run := execute_with_retry h func rand in
  fst run = Raised (RetryExhaustedError (Z.of_nat a + 1) (Some e)) /\
  calls (snd run) = S a /\ sleeps (snd run) = a /\ last (snd run) = Some (EvCall a).
Proof.
  intros Ha Hpre Hback Hf Hn Hr run.
  destruct (run_reaches h func rand a Ha Hpre Hback) as (pre & last' & Hrun & Hc & Hsl & _).
  assert (Hs : _should_retry h e a = false).
  { destruct (_should_retry h e a) eqn:Hs; [|reflexivity].
    apply should_retry_true in Hs. destruct Hs as (_ & _ & Hs). congruence. }
  assert (Hrun' : run = emit pre (Raised (RetryExhaustedError (Z.of_nat a + 1) (Some e)),
                                  [EvCall a])).
  { unfold run. rewrite Hrun. f_equal. cbn [retry_loop]. rewrite Hf, Hs, Hn. reflexivity. }
  rewrite Hrun'. split; [reflexivity|].
  rewrite last_emit_call. unfold emit. cbn [snd].
  rewrite calls_app, sleeps_app, Hc, Hsl. unfold calls, sleeps. simpl.
  repeat split; lia.
Qed.

(** X4. With [max_attempts <= 0] the operation is never invoked and
    [RetryExhaustedError] is raised with that count and no last error. *)
Theorem no_attempts_no_call :
  (max_attempts (config h) <= 0)%Z ->
  execute_with_retry h func rand =
  (Raised (RetryExhaustedError (max_attempts (config h)) None), []).
Proof.
  intros Hn. unfold execute_with_retry, range.
  replace (Z.to_nat (max_attempts (config h))) with 0%nat by lia. reflexivity.
Qed.

(** The loop over the attempts from [k] on. *)
Lemma retry_loop_bounds (m k : nat) (last_exception : option exc) :
  Z.of_nat (k + m) = max_attempts (config h) ->
  let tr := snd (retry_loop h func rand (seq k m) last_exception) in
  (m = 0%nat -> tr = []) /\
  ((0 < m)%nat ->
   (1 <= calls tr <= m)%nat /\ (sleeps tr < calls tr)%nat /\
   exists j, last tr = Some (EvCall j)).
Proof.
  revert k last_exception. induction m as [|m IH]; intros k last_exception Hk tr.
  { split; [reflexivity|lia]. }
  split; [lia|]. intros _. unfold tr. clear tr. cbn [seq retry_loop].
  assert (Hstop : forall res : retry_result A,
            let tr := snd (emit [EvCall k] (res, [])) in
            (1 <= calls tr <= S m)%nat /\ (sleeps tr < calls tr)%nat /\
            exists j, last tr = Some (EvCall j)).
  { intros res. unfold emit, calls, sleeps. simpl. repeat split; try lia. eexists; reflexivity. }
  destruct (func k) as [v|e|e]; [apply Hstop| |apply Hstop].
  destruct (_should_retry h e k); cbn [negb];
    [|destruct (isinstance e _); apply Hstop].
  destruct (IH (S k) (Some e) ltac:(lia)) as [Hnil Hpos].
  destruct (Z.ltb_spec (Z.of_nat k) (max_attempts (config h) - 1)) as [Hlt|Hge].
  - destruct (backoff h k (rand k)) as [slept|err|err]; [|apply Hstop|apply Hstop].
    destruct (Hpos ltac:(lia)) as ((Hc1 & Hc2) & Hs & (j & Hj)).
    unfold emit. cbn [fst snd].
    change ([EvCall k] ++ [EvSleep slept] ++
              snd (retry_loop h func rand (seq (S k) m) (Some e)))
      with ([EvCall k; EvSleep slept] ++
              snd (retry_loop h func rand (seq (S k) m) (Some e))).
    rewrite calls_app, sleeps_app.
    change (calls [EvCall k; EvSleep slept]) with 1%nat.
    change (sleeps [EvCall k; EvSleep slept]) with 1%nat.
    repeat split; try lia.
    exists j. destruct (snd (retry_loop h func rand (seq (S k) m) (Some e))) as [|ev tr'] eqn:Htr;
      [discriminate Hj|].
    rewrite last_app. rewrite Hj. reflexivity.
  - assert (Hm : m = 0%nat) by lia. subst m.
    unfold emit. cbn [fst snd seq retry_loop]. unfold calls, sleeps. simpl.
    repeat split; try lia. eexists; reflexivity.
Qed.

(** X5. Whatever the operation, the delays and [time.sleep] do,
    [execute_with_retry] invokes the operation at most [max_attempts]
    times and never ends on a sleep. With [max_attempts >= 1] it invokes
    the operation at least once and sleeps fewer times than it invokes
    it; with [max_attempts <= 0] it neither invokes it nor sleeps. *)
Theorem run_bounds :
  let tr := snd (execute_with_retry h func rand) in
  (calls tr <= Z.to_nat (max_attempts (config h)))%nat /\
  (forall d, last tr <> Some (EvSleep d)) /\
  ((1 <= max_attempts (config h))%Z -> (1 <= calls tr)%nat /\ (sleeps tr < calls tr)%nat) /\
  ((max_attempts (config h) <= 0)%Z -> calls tr = 0%nat /\ sleeps tr = 0%nat).
Proof.
  intros tr. unfold tr, execute_with_retry, range.
  destruct (Z.to_nat (max_attempts (config h))) as [|m] eqn:Hm.
  - simpl. unfold calls, sleeps. simpl. repeat split; try lia. discriminate.
  - destruct (retry_loop_bounds (S m) 0 None ltac:(lia)) as [_ Hpos].
    destruct (Hpos ltac:(lia)) as ((Hc1 & Hc2) & Hs & (j & Hj)).
    repeat split; try lia. intros d. rewrite Hj. discriminate.
Qed.

End Runs.

(** The sample operation fails twice and returns at the third attempt. *)
Lemma first_success_returns_witness :
  let run := execute_with_retry (new_handler default_config) flaky (fun _ => 0%Q) in
  fst run = Returned 7%Z /\ sleeps (snd run) = 2%nat.
Proof.
  destruct (first_success_returns (new_handler default_config) flaky (fun _ => 0%Q) 2 7%Z
              ltac:(simpl; lia)) as (Hres & _ & Hsl & _).
  - intros k Hk. exists (ConnectionError "connection reset").
    destruct k as [|[|k]]; [split; reflexivity|split; reflexivity|lia].
  - intros k Hk. destruct k as [|[|k]]; [eexists; vm_compute; reflexivity ..|lia].
  - reflexivity.
  - split; [exact Hres|exact Hsl].
Defined.

(** A connection error, retried after a sleep, then a [ValueError],
    under a policy that retries connection errors only. *)
Lemma unlisted_error_ends_run_witness :
  let run := execute_with_retry (new_handler connection_only) rejected_later (fun _ => 0%Q) in
  fst run = Raised (RetryExhaustedError 2 (Some (ValueError "bad input"))) /\
  sleeps (snd run) = 1%nat.
Proof.
  destruct (unlisted_error_ends_run (new_handler connection_only) rejected_later
              (fun _ => 0%Q) 1 (ValueError "bad input") ltac:(simpl; lia))
    as (Hres & _ & Hsl & _).
  - intros k Hk. replace k with 0%nat by lia.
    exists (ConnectionError "connection reset"). split; reflexivity.
  - intros k Hk. replace k with 0%nat by lia. eexists. vm_compute. reflexivity.
  - reflexivity.
  - reflexivity.
  - reflexivity.
  - split; [exact Hres|exact Hsl].
Defined.

Lemma no_attempts_no_call_witness :
  execute_with_retry (new_handler disabled) always_invalid (fun _ => 0%Q) =
  (Raised (RetryExhaustedError 0 None), []).
Proof.
  apply (no_attempts_no_call (new_handler disabled) always_invalid (fun _ => 0%Q)).
  simpl. lia.
Defined.

(** *** Delays *)

Section Delays.
Local Open Scope Q_scope.

Lemma computed_le_max (h : RetryHandler) (a : nat) : computed h a <= max_delay (config h).
Proof. apply Q.le_min_r. Qed.

(** A delay that is slept is at most [max_delay] plus its share. *)
Lemma slept_bound (h : RetryHandler) (a : nat) (r d : Q) :
  0 <= max_delay (config h) -> 0 <= jitter_factor (config h) -> 0 <= r -> r < 1 ->
  backoff h a r = Returns d ->
  0 <= d /\ d <= max_delay (config h) + max_delay (config h) * jitter_factor (config h).
Proof.
  intros HM Hjf Hr0 Hr1 Hb. apply backoff_returns in Hb.
  destruct Hb as (Hd0 & c & _ & Hc & ->). split; [exact Hd0|].
  set (M := max_delay (config h)) in *. set (jf := jitter_factor (config h)) in *.
  assert (HMjf : 0 <= M * jf) by (apply Qmult_le_0_compat; assumption).
  destruct (jitter (config h)); [|lra].
  destruct (Qlt_le_dec c 0) as [Hneg|Hpos].
  - assert (H1 : 0 <= (0 - c) * jf) by (apply Qmult_le_0_compat; lra).
    assert (H2 : 0 <= (0 - c) * jf * r) by (apply Qmult_le_0_compat; assumption).
    lra.
  - assert (H0 : 0 <= c * jf) by (apply Qmult_le_0_compat; assumption).
    assert (H2 : 0 <= c * jf * (1 - r)) by (apply Qmult_le_0_compat; lra).
    assert (H3 : 0 <= (M - c) * jf) by (apply Qmult_le_0_compat; lra).
    lra.
Qed.

(** The jitter lines under a monotone rounding, for a clamped delay. *)
Lemma add_jitter_capped (rnd : Q -> Q) (c m jf r : Q) :
  (forall x y, x <= y -> rnd x <= rnd y) ->
  (forall x, rnd (rnd x) == rnd x) ->
  rnd 0 == 0 ->
  c <= m -> 0 <= m -> 0 <= jf -> 0 <= r -> r < 1 ->
  add_jitter rnd c jf r <= rnd (m + rnd (m * jf)).
Proof.
  intros Hmono Hidem H0 Hcm Hm Hjf Hr0 Hr1. unfold add_jitter.
  assert (HP : 0 <= rnd (m * jf)).
  { rewrite <- H0. apply Hmono. apply Qmult_le_0_compat; assumption. }
  assert (Hp : rnd (c * jf) <= rnd (m * jf)).
  { apply Hmono. apply Qmult_le_compat_r; assumption. }
  assert (Ht : rnd (rnd (c * jf) * r) <= rnd (m * jf)).
  { destruct (Qlt_le_dec (rnd (c * jf)) 0) as [Hneg|Hpos].
    - apply Qle_trans with (rnd 0); [|rewrite H0; exact HP].
      apply Hmono.
      assert (Hn : 0 <= (0 - rnd (c * jf)) * r) by (apply Qmult_le_0_compat; lra).
      lra.
    - apply Qle_trans with (rnd (c * jf)); [|exact Hp].
      rewrite <- (Hidem (c * jf)) at 2. apply Hmono.
      assert (Hn : 0 <= rnd (c * jf) * (1 - r)) by (apply Qmult_le_0_compat; lra).
      lra. }
  apply Hmono. lra.
Qed.

Section Sleeps.
Context {A : Type}.
Variable h : RetryHandler.
Variable func : nat -> outcome A.
Variable rand : nat -> Q.

(** Every sleep of the loop is the back-off of one of its attempts that
    is not the last of the policy. *)
Lemma sleep_origin (attempts : list nat) (last_exception : option exc) (d : Q) :
  In (EvSleep d) (snd (retry_loop h func rand attempts last_exception)) ->
  exists k, In k attempts /\ (Z.of_nat k < max_attempts (config h) - 1)%Z /\
            backoff h k (rand k) = Returns d.
Proof.
  revert last_exception. induction attempts as [|k attempts IH]; intros last_exception;
    [intros []|].
  cbn [retry_loop]. unfold emit at 1. cbn [snd fst app].
  intros [Hd|Hd]; [discriminate|].
  destruct (func k) as [v|e|e]; [destruct Hd| |destruct Hd].
  destruct (_should_retry h e k); cbn [negb] in Hd;
    [|destruct (isinstance e _); destruct Hd].
  destruct (Z.ltb_spec (Z.of_nat k) (max_attempts (config h) - 1)) as [Hlt|Hge].
  - destruct (backoff h k (rand k)) as [slept|err|err] eqn:Hb;
      [|destruct Hd|destruct Hd].
    unfold emit in Hd. cbn [snd fst app] in Hd. destruct Hd as [Hd|Hd].
    + injection Hd as <-. exists k. split; [left; reflexivity|]. split; [exact Hlt|exact Hb].
    + destruct (IH _ Hd) as (j & Hj & Hlj & He). exists j. split; [right; exact Hj|]. tauto.
  - destruct (IH _ Hd) as (j & Hj & Hlj & He). exists j. split; [right; exact Hj|]. tauto.
Qed.

(** X6. When [max_delay] and [jitter_factor] are not negative and the
    random draws lie in [[0,1)], no sleep of a run is negative or longer
    than [max_delay + max_delay * jitter_factor], whatever the strategy
    and the base delay; under any monotone rounding of the operations
    the jitter lines keep a delay clamped to [max_delay] at or below
    that sum as rounded. *)
Theorem no_sleep_exceeds_cap (d : Q) :
  0 <= max_delay (config h) -> 0 <= jitter_factor (config h) ->
  (forall k, 0 <= rand k /\ rand k < 1) ->
  (In (EvSleep d) (snd (execute_with_retry h func rand)) ->
   0 <= d <= max_delay (config h) + max_delay (config h) * jitter_factor (config h)) /\
  (forall (rnd : Q -> Q) (c r : Q),
     (forall x y, x <= y -> rnd x <= rnd y) ->
     (forall x, rnd (rnd x) == rnd x) ->
     rnd 0 == 0 ->
     c <= max_delay (config h) -> 0 <= r -> r < 1 ->
     add_jitter rnd c (jitter_factor (config h)) r <=
     rnd (max_delay (config h) + rnd (max_delay (config h) * jitter_factor (config h)))).
Proof.
  intros HM Hjf Hrand. split.
  - intros Hd. apply sleep_origin in Hd. destruct Hd as (k & _ & _ & Hb).
    apply (slept_bound h k (rand k)); try assumption; apply Hrand.
  - intros rnd c r Hmono Hidem H0 Hc Hr0 Hr1. apply add_jitter_capped; assumption.
Qed.

End Sleeps.

Lemma fib_positive (a : nat) : (0 < fib a)%Z.
Proof.
  assert (H : (0 < fib a /\ 0 < fib (S a))%Z); [|apply H].
  induction a as [|a [IH1 IH2]]; [split; reflexivity|].
  split; [exact IH2|]. change (fib (S (S a))) with (fib (S a) + fib a)%Z. lia.
Qed.

Lemma fib_increasing (a : nat) : (fib a <= fib (S a))%Z.
Proof.
  destruct a as [|a]; [simpl; lia|].
  change (fib (S (S a))) with (fib (S a) + fib a)%Z.
  pose proof (fib_positive a). lia.
Qed.

Lemma Qmult_le_l_weak (z x y : Q) : 0 <= z -> x <= y -> z * x <= z * y.
Proof.
  intros Hz Hxy. rewrite !(Qmult_comm z). apply Qmult_le_compat_r; assumption.
Qed.

(** X7. With jitter disabled, a base delay that is not negative and an
    exponential factor of at least 1, the delay of an attempt is never
    shorter than that of the attempt before, for every strategy, as long
    as the attempts are within the precomputed Fibonacci table. *)
Theorem backoff_never_decreases (cfg : RetryConfig) (a : nat) (r r' : Q) :
  jitter cfg = false ->
  0 <= base_delay cfg -> 1 <= exponential_factor cfg ->
  (Z.of_nat (S a) < max_attempts cfg + 5)%Z ->
  _calculate_delay (new_handler cfg) a r <= _calculate_delay (new_handler cfg) (S a) r'.
Proof.
  intros Hj Hb Hf Ha. unfold _calculate_delay, computed. cbn [config new_handler].
  rewrite Hj, !strategy_delay_formula.
  apply Q.min_le_compat_r. unfold formula_delay, table_size.
  destruct (strategy cfg).
  - apply Qmult_le_l_weak; [exact Hb|]. apply Qpower_le_compat_l; [lia|exact Hf].
  - apply Qmult_le_l_weak; [exact Hb|]. rewrite <- Zle_Qle. lia.
  - apply Qle_refl.
  - destruct (Nat.ltb_spec a (Z.to_nat (max_attempts cfg + 5))); [|lia].
    destruct (Nat.ltb_spec (S a) (Z.to_nat (max_attempts cfg + 5))); [|lia].
    apply Qmult_le_l_weak; [exact Hb|]. rewrite <- Zle_Qle. apply fib_increasing.
Qed.







Lemma no_sleep_exceeds_cap_witness :
  let h := new_handler default_config in
  0 <= 21 # 20 <= 60 + 60 * (1 # 10) /\
  add_jitter to_grid 1 (1 # 10) (1 # 2) <= to_grid (60 + to_grid (60 * (1 # 10))).
Proof.
  destruct (no_sleep_exceeds_cap (new_handler default_config) always_disconnected
              (fun _ => 1 # 2) (21 # 20)) as [Hrun Hrounded].
  - vm_compute. discriminate.
  - vm_compute. discriminate.
  - intros k. split; [vm_compute; discriminate|reflexivity].
  - split.
    + apply Hrun. vm_compute. right. left. reflexivity.
    + apply (Hrounded to_grid 1 (1 # 2) to_grid_monotone to_grid_idempotent);
        try reflexivity; vm_compute; discriminate.
Defined.

Lemma backoff_never_decreases_witness :
  _calculate_delay (new_handler fibonacci_config) 1 0 <=
  _calculate_delay (new_handler fibonacci_config) 2 0.
Proof.
  apply (backoff_never_decreases fibonacci_config 1 0 0 eq_refl).
  - vm_compute. discriminate.
  - vm_compute. discriminate.
  - simpl. lia.
Defined.


End Delays.

(** *** The convenience decorators *)

Section Decorators.
Context {A : Type}.
Variable func : nat -> outcome A.
Variable rand : nat -> Q.

Lemma non_retryable_first_attempt (h : RetryHandler) (e : exc) :
  (1 <= max_attempts (config h))%Z ->
  func 0%nat = Raises e ->
  isinstance e (non_retryable_exceptions (config h)) = true ->
  execute_with_retry h func rand =
  (Raised (NonRetryableError ("Non-retryable exception: " +:+ exc_msg e) e), [EvCall 0]).
Proof.
  intros Hn Hf He. unfold execute_with_retry, range.
  destruct (Z.to_nat (max_attempts (config h))) as [|m] eqn:Hm; [lia|].
  cbn [seq retry_loop]. rewrite Hf, (non_retryable_not_retried h e 0 He), He.
  reflexivity.
Qed.

Lemma all_retried_exhausts (h : RetryHandler) (N : nat) :
  (1 <= N)%nat -> max_attempts (config h) = Z.of_nat N ->
  (forall k, (k < N)%nat -> retried h func k) ->
  (forall k, (k < N - 1)%nat -> exists slept, backoff h k (rand k) = Returns slept) ->
  exists e, func (N - 1)%nat = Raises e /\
    fst (execute_with_retry h func rand) =
      Raised (RetryExhaustedError (Z.of_nat N) (Some e)) /\
    calls (snd (execute_with_retry h func rand)) = N /\
    sleeps (snd (execute_with_retry h func rand)) = (N - 1)%nat.
Proof.
  intros HN Hmax Hall Hback.
  destruct (run_reaches h func rand (N - 1) ltac:(lia)
              ltac:(intros k Hk; apply Hall; lia) Hback)
    as (pre & last' & Hrun & Hc & Hs & _).
  destruct (Hall (N - 1)%nat ltac:(lia)) as (e & He & Hre).
  exists e. split; [exact He|].
  assert (Hend : execute_with_retry h func rand =
                 emit pre (Raised (RetryExhaustedError (Z.of_nat N) (Some e)),
                           [EvCall (N - 1)])).
  { rewrite Hrun. f_equal.
    replace (Z.to_nat (max_attempts (config h)) - S (N - 1))%nat with 0%nat by lia.
    cbn [seq retry_loop]. rewrite He, Hre. cbn [negb].
    destruct (Z.ltb_spec (Z.of_nat (N - 1)) (max_attempts (config h) - 1)); [lia|].
    rewrite Hmax. reflexivity. }
  rewrite Hend. split; [reflexivity|]. unfold emit. cbn [snd].
  rewrite calls_app, sleeps_app, Hc, Hs. unfold calls, sleeps. simpl. lia.
Qed.

(** X9. Under [retry_on_network_error] every [requests] [HTTPError],
    whatever its status, is surfaced as [NonRetryableError] after a single
    call and without a sleep, although [HTTPError] is also listed as
    retryable. *)
Theorem network_http_error_not_retried (max_attempts : Z) (base_delay : Q) (e : exc) :
  (1 <= max_attempts)%Z ->
  func 0%nat = Raises e ->
  isinstance e ["requests.exceptions.HTTPError"] = true ->
  isinstance e network_retryable = true /\
  retry_on_network_error max_attempts base_delay func rand =
  (Raised (NonRetryableError ("Non-retryable exception: " +:+ exc_msg e) e), [EvCall 0]).
Proof.
  intros Hn Hf He. split.
  - unfold network_retryable. simpl in He |- *. rewrite orb_false_r in He. rewrite He.
    rewrite !orb_true_r. reflexivity.
  - apply non_retryable_first_attempt; assumption.
Qed.

(** The back-offs of [retry_on_database_error] are carried out when the
    base delay is not negative, the power of two fits a float and the
    draw lies in [[0,1)]. *)
Lemma database_backoff (N : Z) (base_delay : Q) (k : nat) (r : Q) :
  (0 <= base_delay)%Q -> (k <= 1023)%nat -> (0 <= r)%Q -> (r < 1)%Q ->
  exists slept,
    backoff (new_handler {|
      RetryLogic.max_attempts := N;
      RetryLogic.base_delay := base_delay;
      RetryLogic.max_delay := 10;
      RetryLogic.exponential_factor := 2;
      RetryLogic.jitter := true;
      RetryLogic.jitter_factor := 1 # 10;
      RetryLogic.strategy := EXPONENTIAL_BACKOFF;
      RetryLogic.retryable_exceptions := ["sqlite3.OperationalError"; "sqlite3.DatabaseError"];
      RetryLogic.non_retryable_exceptions := ["sqlite3.IntegrityError"] |}) k r
    = Returns slept.
Proof.
  intros Hb Hk Hr0 Hr1.
  match goal with |- context [backoff ?h' _ _] => set (h := h') end.
  pose proof (exponential_clamped h k eq_refl (power_of_two_in_range k Hk) Hb
                ltac:(discriminate) eq_refl) as Hc.
  cbn [config new_handler RetryLogic.base_delay RetryLogic.exponential_factor
       RetryLogic.max_delay h] in Hc.
  set (c := Qmin (base_delay * 2 ^ Z.of_nat k) 10) in Hc.
  assert (Hc0 : (0 <= c)%Q).
  { apply Q.min_glb; [|discriminate].
    apply Qmult_le_0_compat; [exact Hb|]. apply Qpower_pos. discriminate. }
  assert (Hc10 : (c <= 10)%Q) by apply Q.le_min_r.
  destruct (backoff_accepted h k r c Hc Hc0 ltac:(discriminate) Hr0 Hr1) as (d & Hd & _).
  - cbn [config new_handler RetryLogic.jitter_factor h].
    apply Qle_trans with ((10 + 10 * (1 # 10)) * inject_Z (10 ^ 9))%Q; [|discriminate].
    apply Qmult_le_compat_r; [|discriminate].
    assert (H : (c * (1 # 10) <= 10 * (1 # 10))%Q)
      by (apply Qmult_le_compat_r; [exact Hc10|discriminate]).
    lra.
  - exists d. exact Hd.
Qed.

(** X10. Under [retry_on_database_error] an [IntegrityError] is surfaced
    as [NonRetryableError] after a single call, although it is a
    [DatabaseError]; with a base delay that is not negative, at most
    1025 attempts (the power of two of every back-off then fits a float)
    and draws in [[0,1)], an operation that keeps failing with other
    database errors is invoked [max_attempts] times, with a sleep after
    each attempt but the last, before [RetryExhaustedError] is raised
    with its last error. *)
Theorem database_errors_classified (N : nat) (base_delay : Q) :
  (1 <= N)%nat ->
  (forall e, func 0%nat = Raises e -> isinstance e ["sqlite3.IntegrityError"] = true ->
     retry_on_database_error (Z.of_nat N) base_delay func rand =
     (Raised (NonRetryableError ("Non-retryable exception: " +:+ exc_msg e) e),
      [EvCall 0])) /\
  ((N <= 1025)%nat -> (0 <= base_delay)%Q ->
   (forall k, (0 <= rand k)%Q /\ (rand k < 1)%Q) ->
   (forall k, (k < N)%nat -> exists e, func k = Raises e /\
       isinstance e ["sqlite3.OperationalError"; "sqlite3.DatabaseError"] = true /\
       isinstance e ["sqlite3.IntegrityError"] = false) ->
   exists e, func (N - 1)%nat = Raises e /\
     fst (retry_on_database_error (Z.of_nat N) base_delay func rand) =
       Raised (RetryExhaustedError (Z.of_nat N) (Some e)) /\
     calls (snd (retry_on_database_error (Z.of_nat N) base_delay func rand)) = N /\
     sleeps (snd (retry_on_database_error (Z.of_nat N) base_delay func rand)) = (N - 1)%nat).
Proof.
  intros HN. split.
  - intros e Hf He. apply non_retryable_first_attempt; [simpl; lia|exact Hf|exact He].
  - intros HN' Hb Hrand Hall. unfold retry_on_database_error, retry_with_backoff.
    match goal with |- context [execute_with_retry ?h' _ _] => set (h := h') end.
    apply (all_retried_exhausts h N HN eq_refl).
    + intros k Hk. destruct (Hall k Hk) as (e & Hf & Hr & Hnr).
      exists e. split; [exact Hf|]. apply should_retry_true.
      split; [simpl; lia|]. split; [exact Hnr|exact Hr].
    + intros k Hk. destruct (Hrand k) as [Hr0 Hr1].
      apply database_backoff; [exact Hb|lia|exact Hr0|exact Hr1].
Qed.

End Decorators.

Lemma network_http_error_not_retried_witness :
  retry_on_network_error 3 2 server_error (fun _ => 0%Q) =
  (Raised (NonRetryableError "Non-retryable exception: 503 Server Error"
             (HTTPError "503 Server Error")), [EvCall 0]).
Proof.
  destruct (network_http_error_not_retried server_error (fun _ => 0%Q) 3 2
              (HTTPError "503 Server Error") ltac:(lia) eq_refl eq_refl) as [_ H].
  exact H.
Defined.

Lemma database_errors_classified_witness :
  retry_on_database_error 3 (1 # 2) constraint_violation (fun _ => 0%Q) =
    (Raised (NonRetryableError "Non-retryable exception: UNIQUE constraint failed"
               (IntegrityError "UNIQUE constraint failed")), [EvCall 0]) /\
  sleeps (snd (retry_on_database_error 3 (1 # 2) locked (fun _ => 0%Q))) = 2%nat.
Proof.
  split.
  - destruct (database_errors_classified constraint_violation (fun _ => 0%Q) 3 (1 # 2)
                ltac:(lia)) as [H _].
    apply (H (IntegrityError "UNIQUE constraint failed") eq_refl eq_refl).
  - destruct (database_errors_classified locked (fun _ => 0%Q) 3 (1 # 2) ltac:(lia))
      as [_ H].
    destruct H as (e & _ & _ & _ & Hs).
    + lia.
    + vm_compute. discriminate.
    + intros k. split; [vm_compute; discriminate|reflexivity].
    + intros k _. exists (OperationalError "database is locked"). repeat split.
    + exact Hs.
Defined.

End RetryExtra.

(** ** Circuit breaker: further properties *)

Module BreakerExtra.
Import Breaker BreakerFacts.

Section Runs.
Context {A : Type}.
Implicit Types (cb : CircuitBreaker) (i : call_input A) (ins : list (call_input A)).

(** X11. Whenever [call] returns a value, the operation was invoked and
    returned it, and the breaker is left [CLOSED] with a zero failure
    count, whatever its state was. *)
Theorem success_closes cb i (v : A) :
  result (call cb i) = Returns v ->
  invoked (call cb i) = true /\ func i = Returns v /\
  state (after (call cb i)) = CLOSED /\ failure_count (after (call cb i)) = 0%Z.
Proof.
  unfold call. destruct (gate cb (t_check i)) as [cb1|e] eqn:Hg; [|discriminate].
  destruct (func i) as [w|e|e]; [|discriminate|discriminate]. cbn. intros [= ->].
  repeat split. apply gate_inl in Hg. destruct Hg as (_ & _ & _ & _ & Hst).
  destruct Hst as [(_ & -> & _)|[Hno ->]]; [reflexivity|].
  destruct (state cb); congruence.
Qed.

(** X12. While the circuit is open and the recovery timeout has not
    elapsed, calls are all rejected with the circuit-open error, none
    invokes its operation, and the breaker stays exactly as it was. *)
Theorem cooling_down_rejects_all cb ins :
  state cb = OPEN ->
  Forall (fun i => _is_recovery_timeout_reached cb (t_check i) = false) ins ->
  run cb ins = cb /\
  Forall (fun i => invoked (call cb i) = false /\
                   result (call cb i) = Raises circuit_open_error) ins.
Proof.
  intros Ho Hins.
  assert (Hcall : forall i, _is_recovery_timeout_reached cb (t_check i) = false ->
            call cb i = {| after := cb; result := Raises circuit_open_error;
                           invoked := false |}).
  { intros i Hi. unfold call, gate. rewrite Ho, Hi. reflexivity. }
  split.
  - induction Hins as [|i ins Hi _ IH]; [reflexivity|].
    cbn [run]. rewrite (Hcall i Hi). exact IH.
  - eapply Forall_impl; [exact Hins|]. intros i Hi. cbn beta in Hi.
    rewrite (Hcall i Hi). split; reflexivity.
Qed.

(** The count of a breaker in use is not negative, and below the
    threshold while the circuit is closed after a failure. *)
Lemma closed_count (th : Z) (to : Q) ins :
  let cb := run (new_breaker th to) ins in
  (0 <= failure_count cb)%Z /\
  (state cb = CLOSED -> failure_count cb = 0%Z \/ (failure_count cb < th)%Z).
Proof.
  induction ins as [|i ins IH] using rev_ind; [cbn; split; [lia|left; reflexivity]|].
  rewrite run_snoc. cbv zeta in IH |- *.
  pose proof (between_calls_run th to ins) as [Hth _ _ _ _].
  set (cb := run (new_breaker th to) ins) in *. destruct IH as [Hpos Hcl].
  unfold call. destruct (gate cb (t_check i)) as [cb1|e] eqn:Hg; [|split; assumption].
  apply gate_inl in Hg. destruct Hg as (Hth1 & _ & Hc1 & _ & Hst).
  destruct (func i) as [v|e|e]; cbn.
  - split; [lia|left; reflexivity].
  - rewrite Hc1, Hth1, Hth. split; [lia|].
    destruct (Z.geb_spec (failure_count cb + 1) th); [discriminate|].
    intros _. right. lia.
  - rewrite Hc1. split; [exact Hpos|].
    destruct Hst as [(_ & -> & _)|[_ ->]]; [discriminate|exact Hcl].
Qed.

(** X13. As long as the operations invoked return or raise an
    [Exception], a breaker with a positive threshold is, between calls,
    [OPEN] exactly when its failure count has reached the threshold and
    [CLOSED] otherwise; it is never left [HALF_OPEN], its count is never
    negative, and its threshold and timeout never change. An operation
    that raises another [BaseException] during the trial call of an open
    circuit leaves the breaker [HALF_OPEN], its count and failure time
    unchanged. *)
Theorem open_iff_threshold_reached (th : Z) (to : Q) ins :
  (1 <= th)%Z ->
  let cb := run (new_breaker th to) ins in
  (Forall caught ins ->
   (state cb = OPEN <-> (th <= failure_count cb)%Z) /\
   (state cb = CLOSED <-> (failure_count cb < th)%Z) /\
   state cb <> HALF_OPEN /\
   (0 <= failure_count cb)%Z /\
   failure_threshold cb = th /\ recovery_timeout cb = to) /\
  (forall i e,
     state cb = OPEN -> _is_recovery_timeout_reached cb (t_check i) = true ->
     func i = Aborts e ->
     result (call cb i) = Aborts e /\
     state (after (call cb i)) = HALF_OPEN /\
     failure_count (after (call cb i)) = failure_count cb /\
     last_failure_time (after (call cb i)) = last_failure_time cb).
Proof.
  intros Hth cb. split.
  - intros Hins.
    pose proof (between_calls_run th to ins) as [Ht Hto _ Hoc _].
    pose proof (caught_run_not_half_open th to ins Hins) as Hho.
    destruct (closed_count th to ins) as [Hpos Hcl]. fold cb in Ht, Hto, Hho, Hoc, Hpos, Hcl.
    assert (Hc : state cb = CLOSED -> (failure_count cb < th)%Z).
    { intros H. destruct (Hcl H); lia. }
    repeat split; try assumption.
    + intros Hge. destruct (state cb) eqn:Hs;
        [specialize (Hc eq_refl); lia|reflexivity|congruence].
    + intros Hlt. destruct (state cb) eqn:Hs;
        [reflexivity|specialize (Hoc eq_refl); lia|congruence].
  - intros i e Ho Ht Hf. unfold call, gate. rewrite Ho, Ht, Hf. repeat split.
Qed.

(** X14. On a new breaker with a positive threshold, calls whose
    operations all fail leave the circuit closed, each failure counted,
    while they are fewer than the threshold, and open from the
    threshold-th failure on, whatever the clock says. *)
Theorem failures_open_the_circuit (th : Z) (to : Q) ins :
  (1 <= th)%Z ->
  Forall (fun i => exists e, func i = Raises e) ins ->
  let cb := run (new_breaker th to) ins in
  ((Z.of_nat (length ins) < th)%Z ->
     state cb = CLOSED /\ failure_count cb = Z.of_nat (length ins)) /\
  ((th <= Z.of_nat (length ins))%Z -> state cb = OPEN).
Proof.
  intros Hth Hins. cbv zeta.
  induction ins as [|i ins IH] using rev_ind; [split; [split; reflexivity|cbn; lia]|].
  apply Forall_app in Hins. destruct Hins as [Hins Hi].
  apply Forall_inv in Hi. destruct Hi as (e & He).
  specialize (IH Hins). destruct IH as [IHlt IHge].
  rewrite run_snoc, length_app. cbn [length].
  pose proof (between_calls_run th to ins) as [Ht _ _ Hoc _].
  set (cb := run (new_breaker th to) ins) in *.
  destruct (Z.lt_ge_cases (Z.of_nat (length ins)) th) as [Hlt|Hge].
  - destruct (IHlt Hlt) as [Hs Hc].
    assert (Hcall : after (call cb i) = on_failure cb (t_fail i)).
    { unfold call, gate. rewrite Hs, He. reflexivity. }
    rewrite Hcall. cbn. rewrite Ht, Hs, Hc. split.
    + intros Hlt'. destruct (Z.geb_spec (Z.of_nat (length ins) + 1) th); [lia|].
      split; [reflexivity|lia].
    + intros Hge'. destruct (Z.geb_spec (Z.of_nat (length ins) + 1) th); [reflexivity|lia].
  - split; [lia|]. intros _. specialize (IHge ltac:(lia)). specialize (Hoc IHge).
    unfold call, gate. rewrite IHge.
    destruct (_is_recovery_timeout_reached cb (t_check i)); [|exact IHge].
    rewrite He. cbn. rewrite Ht.
    destruct (Z.geb_spec (failure_count cb + 1) th); [reflexivity|lia].
Qed.

End Runs.

Lemma success_closes_witness :
  state (after (call tripped (succeeding_call 100))) = CLOSED.
Proof.
  destruct (success_closes tripped (succeeding_call 100) tt eq_refl) as (_ & _ & H & _).
  exact H.
Defined.

Lemma cooling_down_rejects_all_witness :
  run tripped [succeeding_call 10; failing_call 20; succeeding_call 30] = tripped.
Proof.
  destruct (cooling_down_rejects_all tripped
              [succeeding_call 10; failing_call 20; succeeding_call 30] eq_refl) as [H _].
  - repeat constructor.
  - exact H.
Defined.

Lemma open_iff_threshold_reached_witness :
  (state tripped = OPEN <-> (2 <= failure_count tripped)%Z) /\
  state (after (call tripped (interrupted_call 100))) = HALF_OPEN.
Proof.
  destruct (open_iff_threshold_reached (A:=unit) 2 60 [failing_call 0; failing_call 1]
              ltac:(lia)) as [Hcaught Habort].
  split.
  - destruct Hcaught as (H & _); [|exact H].
    repeat constructor; discriminate.
  - destruct (Habort (interrupted_call 100) KeyboardInterrupt eq_refl eq_refl eq_refl)
      as (_ & H & _).
    exact H.
Defined.

Lemma failures_open_the_circuit_witness : state tripped = OPEN.
Proof.
  destruct (failures_open_the_circuit 2 60 [failing_call 0; failing_call 1] ltac:(lia))
    as [_ H].
  - repeat constructor; eexists; reflexivity.
  - apply H. simpl. lia.
Defined.

End BreakerExtra.

(** ** State store: further properties *)

Module StoreExtra.
Import Python StateManager Store PythonFacts StateFacts.

Section Operations.
Context {F : PyFloat}.

(** X16. A successful [save_state] changes what [load_state] returns for
    its own key only, leaves the search records alone, and writes a row
    with a fresh id whose creation time is the time of this save, also
    when the key was stored before. *)
Theorem save_state_touches_one_key (db db' : database) (now : Z) (key : string) (v : pyval) :
  save_state db now key v = Some db' ->
  (forall k' default, k' <> key -> load_state db' k' default = load_state db k' default) /\
  job_search_state db' = job_search_state db /\
  exists row, application_state db' !! key = Some row /\
    row_id row = (application_state_seq db + 1)%Z /\
    created_at row = now /\ updated_at row = now.
Proof.
  unfold save_state. intros Hs. apply option_map_Some in Hs.
  destruct Hs as ([sv dt] & _ & ->). cbn [fst snd].
  split; [|split; [reflexivity|]].
  - intros k' default Hk. unfold load_state, replace_state. cbn [application_state].
    rewrite lookup_insert_ne by congruence. reflexivity.
  - eexists. split; [cbn [replace_state application_state]; apply lookup_insert_eq|].
    repeat split.
Qed.

(** X17. A search saved with a non-empty JSON-native result list is
    loaded back with the same results, query, status, error count and
    last error; its creation and update times are those of the save. *)
Theorem search_state_roundtrip (db : database) (now : Z) (search_id query : string)
    (item : pyval) (items : list pyval) (status : string) (error_count : Z)
    (last_error : option string) :
  json_native (PList (item :: items)) ->
  exists db' state,
    save_job_search_state db now search_id query (Some (item :: items)) status
      error_count last_error = Some db' /\
    load_job_search_state db' search_id = Some state /\
    st_results state = PList (item :: items) /\
    st_search_id state = search_id /\ st_query state = query /\
    st_status state = status /\ st_error_count state = error_count /\
    st_last_error state = last_error /\
    st_created_at state = now /\ st_updated_at state = now.
Proof.
  intros Hn. destruct (json_roundtrip_native _ Hn) as (t & Ht & Hl).
  assert (Hne : exists c r, t = String c r).
  { destruct t as [|c r]; [discriminate Hl|]. eexists _, _; reflexivity. }
  destruct Hne as (c & r & ->).
  unfold save_job_search_state. cbv beta iota zeta. rewrite Ht. cbn [option_map].
  exists (replace_search db now search_id query (Some (String c r)) status error_count
            last_error).
  assert (Hload : load_job_search_state
            (replace_search db now search_id query (Some (String c r)) status error_count
               last_error) search_id =
          Some (state_of_row search_id
                  {| search_row_id := job_search_state_seq db + 1;
                     StateManager.query := query;
                     results := Some (String c r);
                     StateManager.status := status;
                     StateManager.error_count := error_count;
                     StateManager.last_error := last_error;
                     search_created_at := now;
                     search_updated_at := now |}
                  (PList (item :: items)))).
  { unfold load_job_search_state, replace_search. cbn [job_search_state].
    rewrite lookup_insert_eq. cbn [results]. rewrite Hl. reflexivity. }
  eexists. split; [reflexivity|]. split; [exact Hload|]. repeat split.
Qed.

(** X18. A checkpoint whose state [json.dumps] accepts is loaded back
    with its operation name and its state as JSON normalises it (the
    state itself when it is JSON-native); creating it replaces an earlier
    checkpoint of the same id and leaves the other checkpoints and the
    other tables as they were. *)
Theorem checkpoint_roundtrip (st : store) (now : Z) (checkpoint_id operation : string)
    (data : pyval) (t : string) :
  floats_ok data -> json_dumps data = Some t ->
  exists st', create_checkpoint st now checkpoint_id operation data = Some st' /\
    load_checkpoint st' checkpoint_id = Some (operation, json_norm data) /\
    (json_native data -> load_checkpoint st' checkpoint_id = Some (operation, data)) /\
    (forall id', id' <> checkpoint_id -> load_checkpoint st' id' = load_checkpoint st id') /\
    tables st' = tables st.
Proof.
  intros Hf Ht. eexists. split; [unfold create_checkpoint; rewrite Ht; reflexivity|].
  assert (Hload : load_checkpoint
            {| tables := tables st;
               recovery_checkpoints :=
                 <[checkpoint_id := {| checkpoint_row_id := recovery_checkpoints_seq st + 1;
                                       Store.operation := operation;
                                       state_data := t;
                                       checkpoint_created_at := now |}]>
                   (recovery_checkpoints st);
               recovery_checkpoints_seq := recovery_checkpoints_seq st + 1 |}
            checkpoint_id = Some (operation, json_norm data)).
  { unfold load_checkpoint. cbn [recovery_checkpoints]. rewrite lookup_insert_eq.
    cbn [state_data Store.operation]. rewrite (json_roundtrip data t Hf Ht). reflexivity. }
  split; [exact Hload|]. split; [|split; [|reflexivity]].
  - intros Hn. rewrite Hload, (native_norm data Hn). reflexivity.
  - intros id' Hid. unfold load_checkpoint. cbn [recovery_checkpoints].
    rewrite lookup_insert_ne by congruence. reflexivity.
Qed.

(** *** The loop of [get_all_states] *)

Lemma deserialize_of_row (row : state_row) (v default : pyval) :
  deserialize_row row = Some v ->
  deserialize (value row) (data_type row) default = v.
Proof.
  unfold deserialize_row, deserialize.
  destruct (String.eqb (data_type row) "json"); [intros ->; reflexivity|].
  destruct (String.eqb (data_type row) "int").
  { destruct (int_of_str (value row)); [intros [= <-]; reflexivity|discriminate]. }
  destruct (String.eqb (data_type row) "float").
  { destruct (float_of_str (value row)); [intros [= <-]; reflexivity|discriminate]. }
  destruct (String.eqb (data_type row) "bool"); intros [= <-]; reflexivity.
Qed.

Lemma gather_sound (rows : list (string * state_row)) (states : gmap string pyval)
    (k : string) (v : pyval) :
  gather rows states !! k = Some v ->
  states !! k = Some v \/
  exists row, (k, row) ∈ rows /\ deserialize_row row = Some v.
Proof.
  revert states. induction rows as [|[k' row'] rows IH]; intros states; [left; assumption|].
  cbn [gather]. destruct (deserialize_row row') as [v'|] eqn:Hd; [|left; assumption].
  intros Hg. destruct (IH _ Hg) as [Hs|(row & Hin & Hrow)].
  - destruct (decide (k' = k)) as [->|Hne].
    + rewrite lookup_insert_eq in Hs. injection Hs as ->.
      right. exists row'. split; [left|exact Hd].
    + rewrite lookup_insert_ne in Hs by exact Hne. left. exact Hs.
  - right. exists row. split; [right; exact Hin|exact Hrow].
Qed.

Lemma gather_complete (rows : list (string * state_row)) (states : gmap string pyval)
    (k : string) :
  Forall (fun kr => is_Some (deserialize_row (snd kr))) rows ->
  NoDup (rows.*1) ->
  (forall row, (k, row) ∈ rows -> gather rows states !! k = deserialize_row row) /\
  (k ∉ rows.*1 -> gather rows states !! k = states !! k).
Proof.
  intros Hall. revert states.
  induction Hall as [|[k' row'] rows [v' Hv'] _ IH]; intros states Hnd.
  { split; [intros row Hin; inversion Hin|reflexivity]. }
  cbn [fmap list_fmap fst] in Hnd. apply NoDup_cons in Hnd. destruct Hnd as [Hk' Hnd].
  cbn [gather snd] in *. rewrite Hv'.
  destruct (IH (<[k' := v']> states) Hnd) as [IHin IHout].
  split.
  - intros row Hin. apply elem_of_cons in Hin. destruct Hin as [[= -> ->]|Hin].
    + rewrite IHout by exact Hk'. rewrite lookup_insert_eq, Hv'. reflexivity.
    + apply IHin, Hin.
  - intros Hk. apply not_elem_of_cons in Hk. destruct Hk as [Hne Hk].
    rewrite IHout by exact Hk. apply lookup_insert_ne.
    intros E. apply Hne. symmetry. exact E.
Qed.

Lemma scan_elem (table : gmap string state_row) (k : string) (row : state_row) :
  (k, row) ∈ scan table <-> table !! k = Some row.
Proof.
  unfold scan. rewrite merge_sort_Permutation. apply elem_of_map_to_list.
Qed.

Lemma scan_keys_NoDup (table : gmap string state_row) : NoDup ((scan table).*1).
Proof.
  unfold scan. rewrite merge_sort_Permutation. apply NoDup_fst_map_to_list.
Qed.

(** X15. [delete_state] reports whether the key was stored; afterwards
    [load_state] returns the default for that key and [get_all_states]
    does not list it, every other key loads as before, and deleting a
    key that is not stored changes nothing. *)
Theorem delete_state_removes (db : database) (key : string) (default : pyval) :
  let db' := fst (delete_state db key) in
  let deleted := snd (delete_state db key) in
  (deleted = true <-> is_Some (application_state db !! key)) /\
  load_state db' key default = default /\
  get_all_states db' !! key = None /\
  (forall k', k' <> key -> load_state db' k' default = load_state db k' default) /\
  (deleted = false -> db' = db).
Proof.
  cbv zeta. unfold delete_state. cbn [fst snd].
  split; [apply bool_decide_eq_true|].
  split; [unfold load_state; cbn [application_state]; rewrite lookup_delete_eq; reflexivity|].
  split; [|split].
  - unfold get_all_states. cbn [application_state].
    destruct (gather (scan (delete key (application_state db))) ∅ !! key) as [v|] eqn:Hg;
      [|reflexivity].
    apply gather_sound in Hg. destruct Hg as [Hg|(row & Hin & _)].
    + rewrite lookup_empty in Hg. discriminate.
    + apply scan_elem in Hin. rewrite lookup_delete_eq in Hin. discriminate.
  - intros k' Hk. unfold load_state. cbn [application_state].
    rewrite lookup_delete_ne by congruence. reflexivity.
  - intros Hd. apply bool_decide_eq_false in Hd.
    rewrite delete_id; [destruct db; reflexivity|].
    destruct (application_state db !! key) eqn:Hl; [|reflexivity].
    exfalso. apply Hd. eexists; reflexivity.
Qed.

(** X19. Every state [get_all_states] reports belongs to a stored key
    and is the value [load_state] returns for that key. *)
Theorem get_all_states_sound (db : database) (k : string) (v default : pyval) :
  get_all_states db !! k = Some v ->
  is_Some (application_state db !! k) /\ load_state db k default = v.
Proof.
  unfold get_all_states. intros Hg. apply gather_sound in Hg.
  destruct Hg as [Hg|(row & Hin & Hrow)]; [rewrite lookup_empty in Hg; discriminate|].
  apply scan_elem in Hin. split; [eexists; exact Hin|].
  unfold load_state. rewrite Hin. apply deserialize_of_row, Hrow.
Qed.

Lemma deserialize_rejected (row : state_row) (default : pyval) :
  deserialize_row row = None ->
  deserialize (value row) (data_type row) default = default.
Proof.
  unfold deserialize_row, deserialize.
  destruct (String.eqb (data_type row) "json"); [intros ->; reflexivity|].
  destruct (String.eqb (data_type row) "int").
  { destruct (int_of_str (value row)); [discriminate|reflexivity]. }
  destruct (String.eqb (data_type row) "float").
  { destruct (float_of_str (value row)); [discriminate|reflexivity]. }
  destruct (String.eqb (data_type row) "bool"); discriminate.
Qed.

(** X24. For a key whose stored text its conversion rejects,
    [load_state] returns the default and [get_all_states] does not list
    the key; rows of type [bool] or of a type without conversion are
    never rejected. *)
Theorem damaged_row_loads_default (db : database) (key : string) (row : state_row)
    (default : pyval) :
  application_state db !! key = Some row ->
  deserialize_row row = None ->
  load_state db key default = default /\
  get_all_states db !! key = None /\
  (data_type row = "json" \/ data_type row = "int" \/ data_type row = "float").
Proof.
  intros Hl Hd. split; [|split].
  - unfold load_state. rewrite Hl. apply deserialize_rejected, Hd.
  - unfold get_all_states.
    destruct (gather (scan (application_state db)) ∅ !! key) as [v|] eqn:Hg; [|reflexivity].
    apply gather_sound in Hg. destruct Hg as [Hg|(row' & Hin & Hrow)].
    + rewrite lookup_empty in Hg. discriminate.
    + apply scan_elem in Hin. rewrite Hl in Hin. injection Hin as <-. congruence.
  - unfold deserialize_row in Hd.
    destruct (String.eqb (data_type row) "json") eqn:Ej;
      [left; apply String.eqb_eq, Ej|].
    destruct (String.eqb (data_type row) "int") eqn:Ei;
      [right; left; apply String.eqb_eq, Ei|].
    destruct (String.eqb (data_type row) "float") eqn:Ef;
      [right; right; apply String.eqb_eq, Ef|].
    destruct (String.eqb (data_type row) "bool"); discriminate.
Qed.

Lemma saved_row_deserialises (db db' : database) (now : Z) (key : string) (v : pyval) :
  convertible v -> save_state db now key v = Some db' ->
  exists row, db' = replace_state db now key (value row) (data_type row) /\
              is_Some (deserialize_row row).
Proof.
  intros Hc Hs.
  destruct v as [|b|z|x|s|items|items|items]; cbn [convertible] in Hc.
  1-5: rewrite save_scalar in Hs by exact I; injection Hs as <-.
  - exists (text_row 0 "None" "NoneType"). split; [reflexivity|eexists; reflexivity].
  - exists (text_row 0 (str_scalar (PBool b)) "bool"). split; [reflexivity|].
    eexists; reflexivity.
  - exists (text_row 0 (str_int z) "int"). split; [reflexivity|].
    unfold deserialize_row. cbn [text_row data_type value String.eqb Ascii.eqb Bool.eqb].
    rewrite int_of_str_int. eexists; reflexivity.
  - exists (text_row 0 (float_str x) "float"). split; [reflexivity|].
    unfold deserialize_row. cbn [text_row data_type value String.eqb Ascii.eqb Bool.eqb].
    destruct Hc as [y ->]. eexists; reflexivity.
  - exists (text_row 0 s "str"). split; [reflexivity|eexists; reflexivity].
  - destruct (json_dumps (PList items)) as [t|] eqn:Ht;
      [|unfold save_state in Hs; rewrite Ht in Hs; discriminate].
    rewrite (save_container db now key (PList items) t I Ht) in Hs. injection Hs as <-.
    exists (text_row 0 t "json"). split; [reflexivity|].
    unfold deserialize_row. cbn [text_row data_type value String.eqb Ascii.eqb Bool.eqb].
    rewrite (json_roundtrip _ t Hc Ht). eexists; reflexivity.
  - destruct (json_dumps (PTuple items)) as [t|] eqn:Ht;
      [|unfold save_state in Hs; rewrite Ht in Hs; discriminate].
    rewrite (save_container db now key (PTuple items) t I Ht) in Hs. injection Hs as <-.
    exists (text_row 0 t "json"). split; [reflexivity|].
    unfold deserialize_row. cbn [text_row data_type value String.eqb Ascii.eqb Bool.eqb].
    rewrite (json_roundtrip _ t Hc Ht). eexists; reflexivity.
  - destruct (json_dumps (PDict items)) as [t|] eqn:Ht;
      [|unfold save_state in Hs; rewrite Ht in Hs; discriminate].
    rewrite (save_container db now key (PDict items) t I Ht) in Hs. injection Hs as <-.
    exists (text_row 0 t "json"). split; [reflexivity|].
    unfold deserialize_row. cbn [text_row data_type value String.eqb Ascii.eqb Bool.eqb].
    rewrite (json_roundtrip _ t Hc Ht). eexists; reflexivity.
Qed.

Lemma deserialize_row_fields (row row' : state_row) :
  value row = value row' -> data_type row = data_type row' ->
  deserialize_row row = deserialize_row row'.
Proof. unfold deserialize_row. intros -> ->. reflexivity. Qed.

Lemma all_states_of_readable (db : database) (k : string) (default : pyval) :
  readable db ->
  get_all_states db !! k =
  (fun _ => load_state db k default) <$> application_state db !! k.
Proof.
  intros Hall. unfold get_all_states.
  assert (HF : Forall (fun kr => is_Some (deserialize_row (snd kr)))
                 (scan (application_state db))).
  { apply Forall_forall. intros [k' row] Hin. apply scan_elem in Hin. apply (Hall k' row Hin). }
  destruct (gather_complete _ ∅ k HF (scan_keys_NoDup _)) as [Hin Hout].
  destruct (application_state db !! k) as [row|] eqn:Hl; cbn [fmap option_fmap option_map].
  - rewrite (Hin row) by (apply scan_elem; exact Hl).
    destruct (Hall k row Hl) as [v Hv]. rewrite Hv. f_equal. symmetry.
    unfold load_state. rewrite Hl. apply deserialize_of_row, Hv.
  - rewrite Hout; [apply lookup_empty|].
    intros Hk. apply list_elem_of_fmap in Hk. destruct Hk as ([k' row] & -> & Hk).
    apply scan_elem in Hk. cbn [fst] in Hl. congruence.
Qed.

(** X20. When every stored row can be deserialised, [get_all_states]
    holds exactly the stored keys, each with the value [load_state]
    returns for it. *)
Theorem get_all_states_complete (db : database) (k : string) (default : pyval) :
  readable db ->
  get_all_states db !! k =
  (fun _ => load_state db k default) <$> application_state db !! k.
Proof. apply all_states_of_readable. Qed.

(** X23. Saving a value whose text the conversions accept keeps every
    row deserialisable; [get_all_states] then lists the saved key with
    the value [load_state] returns for it, and lists every other key as
    it did before. *)
Theorem saved_state_is_listed (db db' : database) (now : Z) (key : string)
    (v default : pyval) :
  readable db -> convertible v -> save_state db now key v = Some db' ->
  readable db' /\
  get_all_states db' !! key = Some (load_state db' key default) /\
  forall k', k' <> key -> get_all_states db' !! k' = get_all_states db !! k'.
Proof.
  intros Hr Hc Hs.
  destruct (saved_row_deserialises db db' now key v Hc Hs) as (row & -> & Hrow).
  assert (Hr' : readable (replace_state db now key (value row) (data_type row))).
  { intros k r. unfold replace_state. cbn [application_state].
    destruct (decide (key = k)) as [->|Hne].
    - rewrite lookup_insert_eq. intros [= <-].
      rewrite (deserialize_row_fields _ row); [exact Hrow|reflexivity|reflexivity].
    - rewrite lookup_insert_ne by exact Hne. apply Hr. }
  split; [exact Hr'|]. split.
  - rewrite (all_states_of_readable _ key default Hr').
    unfold replace_state at 2. cbn [application_state]. rewrite lookup_insert_eq. reflexivity.
  - intros k' Hk.
    rewrite (all_states_of_readable _ k' default Hr'), (all_states_of_readable _ k' default Hr).
    unfold replace_state at 2. cbn [application_state].
    rewrite lookup_insert_ne by congruence.
    destruct (application_state db !! k') as [r|] eqn:Hl; [|reflexivity].
    cbn [fmap option_fmap option_map]. f_equal.
    unfold load_state, replace_state. cbn [application_state].
    rewrite lookup_insert_ne by congruence. reflexivity.
Qed.

Lemma gather_stops (l1 l2 : list (string * state_row)) (kb : string) (rb : state_row)
    (states : gmap string pyval) :
  deserialize_row rb = None ->
  gather (l1 ++ (kb, rb) :: l2) states = gather l1 states.
Proof.
  intros Hb. revert states. induction l1 as [|[k r] l1 IH]; intros states; cbn [app gather].
  - rewrite Hb. reflexivity.
  - destruct (deserialize_row r); [apply IH|reflexivity].
Qed.

(** X21. A row that cannot be deserialised ends the loop of
    [get_all_states]: the result is what the rows fetched before it
    give, and the key of the row and the keys of all rows fetched after
    it are missing from it, although the rows are stored. *)
Theorem corrupt_row_hides_later_rows (l1 l2 : list (string * state_row)) (kb : string)
    (rb : state_row) :
  NoDup ((l1 ++ (kb, rb) :: l2).*1) ->
  deserialize_row rb = None ->
  gather (l1 ++ (kb, rb) :: l2) ∅ = gather l1 ∅ /\
  forall k, k = kb \/ k ∈ l2.*1 -> gather (l1 ++ (kb, rb) :: l2) ∅ !! k = None.
Proof.
  intros Hnd Hb. rewrite (gather_stops l1 l2 kb rb ∅ Hb). split; [reflexivity|].
  intros k Hk.
  destruct (gather l1 ∅ !! k) as [v|] eqn:Hg; [|reflexivity]. exfalso.
  apply gather_sound in Hg. destruct Hg as [Hg|(row & Hin & _)];
    [rewrite lookup_empty in Hg; discriminate|].
  rewrite fmap_app in Hnd. apply NoDup_app in Hnd. destruct Hnd as (_ & Hdisj & _).
  apply (Hdisj k).
  - apply list_elem_of_fmap. exists (k, row). split; [reflexivity|exact Hin].
  - cbn [fmap list_fmap fst]. destruct Hk as [->|Hk]; [left|right; exact Hk].
Qed.

End Operations.

(** X22. [clear_all_states] succeeds and leaves nothing to load: every
    key gives the default, every search and checkpoint id gives [None],
    and [get_all_states] is empty; the id counters keep their values. *)
Theorem clear_all_states_empties {F : PyFloat} (st : store) (key : string) (default : pyval) :
  let st' := fst (clear_all_states st) in
  snd (clear_all_states st) = true /\
  load_state (tables st') key default = default /\
  load_job_search_state (tables st') key = None /\
  load_checkpoint st' key = None /\
  get_all_states (tables st') = ∅ /\
  application_state_seq (tables st') = application_state_seq (tables st) /\
  job_search_state_seq (tables st') = job_search_state_seq (tables st) /\
  recovery_checkpoints_seq st' = recovery_checkpoints_seq st.
Proof.
  cbv zeta. unfold clear_all_states. cbn [fst snd tables].
  split; [reflexivity|].
  split; [unfold load_state; cbn [application_state]; rewrite lookup_empty; reflexivity|].
  split; [unfold load_job_search_state; cbn [job_search_state]; rewrite lookup_empty;
          reflexivity|].
  split; [unfold load_checkpoint; cbn [recovery_checkpoints]; rewrite lookup_empty;
          reflexivity|].
  split; [|repeat split].
  unfold get_all_states, scan. cbn [application_state].
  rewrite map_to_list_empty. reflexivity.
Qed.

(** *** Examples with the sample float type *)

#[local] Existing Instance integral_floats.

Lemma postings_native : json_native (PList postings).
Proof.
  split; [|exact I]. split; [|repeat split; eexists; reflexivity].
  repeat constructor; rewrite ?elem_of_cons, ?elem_of_nil; intuition discriminate.
Qed.

Lemma paged_readable : readable paged.
Proof.
  intros k row Hl. unfold paged, replace_state in Hl.
  cbn [application_state empty_db] in Hl. apply lookup_insert_Some in Hl.
  destruct Hl as [[_ <-]|[_ Hl]]; [eexists; reflexivity|].
  rewrite lookup_empty in Hl. discriminate.
Qed.

Lemma paged_lists_page : get_all_states paged !! "page" = Some (PInt 3).
Proof.
  rewrite (all_states_of_readable paged "page" PNone paged_readable).
  unfold paged. rewrite load_after_replace.
  unfold replace_state. cbn [application_state]. rewrite lookup_insert_eq. reflexivity.
Qed.

Lemma fetched_keys_distinct :
  NoDup ((fetched_first ++ ("cursor", damaged) :: fetched_last).*1).
Proof.
  unfold fetched_first, fetched_last. cbn [app fmap list_fmap fst].
  repeat constructor; rewrite ?elem_of_cons, ?elem_of_nil; intuition discriminate.
Qed.

Lemma save_state_touches_one_key_witness :
  load_state paged "query" PNone = load_state empty_db "query" PNone /\
  job_search_state paged = job_search_state empty_db.
Proof.
  destruct (save_state_touches_one_key empty_db paged 0 "page" (PInt 3) eq_refl)
    as (Hother & Hsearch & _).
  split; [apply Hother; discriminate|exact Hsearch].
Defined.

Lemma search_state_roundtrip_witness :
  exists db' state,
    save_job_search_state empty_db 7 "s1" "data engineer" (Some postings) "done" 0 None
      = Some db' /\
    load_job_search_state db' "s1" = Some state /\
    st_results state = PList postings.
Proof.
  destruct (search_state_roundtrip empty_db 7 "s1" "data engineer"
              (PDict [(PStr "title", PStr "data engineer"); (PStr "remote", PBool true)]) []
              "done" 0 None postings_native) as (db' & state & Hs & Hl & Hr & _).
  exists db', state. split; [exact Hs|]. split; [exact Hl|exact Hr].
Defined.

Lemma checkpoint_roundtrip_witness :
  exists st', create_checkpoint empty_store 7 "cp1" "search" settings = Some st' /\
    load_checkpoint st' "cp1" = Some ("search", settings).
Proof.
  destruct (native_dumps settings settings_native) as [t Ht].
  destruct (checkpoint_roundtrip empty_store 7 "cp1" "search" settings t
              (native_floats_ok settings settings_native) Ht)
    as (st' & Hc & _ & Hl & _).
  exists st'. split; [exact Hc|exact (Hl settings_native)].
Defined.

Lemma get_all_states_sound_witness :
  is_Some (application_state paged !! "page") /\ load_state paged "page" PNone = PInt 3.
Proof.
  apply (get_all_states_sound paged "page" (PInt 3) PNone paged_lists_page).
Defined.

Lemma get_all_states_complete_witness :
  get_all_states paged !! "page" =
  (fun _ => load_state paged "page" PNone) <$> application_state paged !! "page".
Proof. apply (get_all_states_complete paged "page" PNone paged_readable). Defined.

Lemma saved_state_is_listed_witness :
  readable paged /\
  get_all_states paged !! "page" = Some (load_state paged "page" PNone) /\
  forall k', k' <> "page" -> get_all_states paged !! k' = get_all_states empty_db !! k'.
Proof.
  apply (saved_state_is_listed empty_db paged 0 "page" (PInt 3) PNone).
  - intros k row Hl. unfold empty_db in Hl. cbn [application_state] in Hl.
    rewrite lookup_empty in Hl. discriminate.
  - exact I.
  - reflexivity.
Defined.

Lemma corrupt_row_hides_later_rows_witness :
  gather (fetched_first ++ ("cursor", damaged) :: fetched_last) ∅ = gather fetched_first ∅ /\
  gather (fetched_first ++ ("cursor", damaged) :: fetched_last) ∅ !! "query" = None.
Proof.
  destruct (corrupt_row_hides_later_rows fetched_first fetched_last "cursor" damaged
              fetched_keys_distinct eq_refl) as [Hkept Hlost].
  split; [exact Hkept|]. apply Hlost. right. left.
Defined.

Lemma damaged_row_loads_default_witness :
  load_state damaged_db "cursor" (PInt 0) = PInt 0 /\
  get_all_states damaged_db !! "cursor" = None.
Proof.
  destruct (damaged_row_loads_default damaged_db "cursor" damaged (PInt 0)
              (lookup_singleton_eq "cursor" damaged) eq_refl) as (Hl & Hg & _).
  split; [exact Hl|exact Hg].
Defined.

End StoreExtra.
